(** * The built-in operators of the Lisp evaluator ([src/lisp/builtin.c])

    A shallow embedding of the operator table of the evaluator and the
    properties its specification states about it.

    Every C value is a heap node reached through a [struct value *]; the
    embedding keeps that: a pointer is an address into a heap of nodes, the
    operators run in a state monad over the heap and the standard output,
    and [set]'s write [bind->cdr = value] is a store into that heap, seen by
    every holder of the address. *)

From Stdlib Require Import ZArith String Ascii List Bool Lia.
From stdpp Require Import base option list strings pretty.

Local Open Scope string_scope.
Local Open Scope Z_scope.

(** ** Values *)

(** The type discriminant of a value ([v->type]). *)
Inductive val_type :=
  | VAL_NIL | VAL_TRUE | VAL_SYMBOL | VAL_INT | VAL_CELL
  | VAL_FUNCTION | VAL_MACRO | VAL_BUILTIN | VAL_ERROR.

Definition val_type_eqb (a b : val_type) : bool :=
  match a, b with
  | VAL_NIL, VAL_NIL | VAL_TRUE, VAL_TRUE | VAL_SYMBOL, VAL_SYMBOL
  | VAL_INT, VAL_INT | VAL_CELL, VAL_CELL | VAL_FUNCTION, VAL_FUNCTION
  | VAL_MACRO, VAL_MACRO | VAL_BUILTIN, VAL_BUILTIN
  | VAL_ERROR, VAL_ERROR => true
  | _, _ => false
  end.

(** The native operators: one name per [builtin_*] function, standing for
    the function pointer stored in a [VAL_BUILTIN] node. *)
Inductive builtin :=
  | Bprogn | Bmacro | Bprintln | Bprint | Bwhile | Bquote | Bcons | Bsetq
  | Bset | Bcar | Bcdr | Bfn | Bif | Badd | Bsub | Bmul | Bdiv | Beq | Bless.

(** A pointer is an address; [NULL] is address 0, which is never allocated. *)
Definition ptr := nat.
Definition NULL : ptr := 0%nat.

(** Source locations are only carried around. *)
Definition location := nat.

(** A node: the location stamp and the member of the union selected by the
    type tag. *)
Inductive value :=
  | VNil (l : location)
  | VTrue (l : location)
  | VSymbol (l : location) (name : string)
  | VInt (l : location) (i : Z)
  | VCell (l : location) (car cdr : ptr)
  | VFunction (l : location) (param body env : ptr)
  | VMacro (l : location) (param body env : ptr)
  | VBuiltin (l : location) (f : builtin)
  | VError (l : location) (msg : string).

Definition type (v : value) : val_type :=
  match v with
  | VNil _ => VAL_NIL
  | VTrue _ => VAL_TRUE
  | VSymbol _ _ => VAL_SYMBOL
  | VInt _ _ => VAL_INT
  | VCell _ _ _ => VAL_CELL
  | VFunction _ _ _ _ => VAL_FUNCTION
  | VMacro _ _ _ _ => VAL_MACRO
  | VBuiltin _ _ => VAL_BUILTIN
  | VError _ _ => VAL_ERROR
  end.

Definition loc (v : value) : location :=
  match v with
  | VNil l | VTrue l | VSymbol l _ | VInt l _ | VCell l _ _
  | VFunction l _ _ _ | VMacro l _ _ _ | VBuiltin l _ | VError l _ => l
  end.

(** ** Machine state and the monad of the operators *)

Record state := State {
  heap : list value;     (* node at address [S n] is [heap !! n] *)
  output : string        (* what has been written to stdout so far *)
}.

(** How a call ends: it returns, or it runs into behaviour the C standard
    leaves undefined (a read through a wild pointer or of the wrong union
    member, a division by zero, the use of an uninitialised variable), or
    a failed [assert] aborts it, or the iteration bound of the model is
    exhausted. *)
Inductive outcome (A : Type) :=
  | Done (a : A) (s : state)
  | Undefined
  | Aborted
  | OutOfFuel.
Arguments Done {A} a s.
Arguments Undefined {A}.
Arguments Aborted {A}.
Arguments OutOfFuel {A}.

Definition M (A : Type) := state -> outcome A.

Definition ret {A} (a : A) : M A := fun s => Done a s.

Definition bindM {A B} (m : M A) (k : A -> M B) : M B :=
  fun s => match m s with
           | Done a s' => k a s'
           | Undefined => Undefined
           | Aborted => Aborted
           | OutOfFuel => OutOfFuel
           end.

Notation "x <- m ;; k" := (bindM m (fun x => k))
  (at level 90, m at level 89, right associativity,
   format "'[v' x  <-  m  ;; '/' k ']'").
Notation "m ;;; k" := (bindM m (fun _ => k))
  (at level 90, right associativity,
   format "'[v' m  ;;; '/' k ']'").

Definition undefined {A} : M A := fun _ => Undefined.
Definition aborted {A} : M A := fun _ => Aborted.
Definition out_of_fuel {A} : M A := fun _ => OutOfFuel.

(** Reading a node through a pointer. *)
Definition lookup_ptr (h : list value) (p : ptr) : option value :=
  match p with
  | O => None
  | S n => h !! n
  end.

Definition deref (p : ptr) : M value :=
  fun s => match lookup_ptr (heap s) p with
           | Some v => Done v s
           | None => Undefined
           end.

(** [malloc] of a fresh node, already filled in. *)
Definition alloc (v : value) : M ptr :=
  fun s => Done (S (length (heap s))) (State (heap s ++ [v]) (output s)).

(** Overwriting the node at an address. *)
Definition store (p : ptr) (v : value) : M unit :=
  fun s => match p with
           | O => Undefined
           | S n => if decide (n < length (heap s))%nat
                    then Done tt (State (<[n:=v]> (heap s)) (output s))
                    else Undefined
           end.

(** Field accesses [p->type], [p->loc], [p->car], [p->cdr], [p->i]. *)
Definition type_of (p : ptr) : M val_type := v <- deref p ;; ret (type v).
Definition loc_of (p : ptr) : M location := v <- deref p ;; ret (loc v).

Definition car (p : ptr) : M ptr :=
  v <- deref p ;;
  match v with VCell _ a _ => ret a | _ => undefined end.

Definition cdr (p : ptr) : M ptr :=
  v <- deref p ;;
  match v with VCell _ _ d => ret d | _ => undefined end.

Definition int_of (p : ptr) : M Z :=
  v <- deref p ;;
  match v with VInt _ i => ret i | _ => undefined end.

(** [bind->cdr = value] *)
Definition set_cdr (p : ptr) (d : ptr) : M unit :=
  v <- deref p ;;
  match v with VCell l a _ => store p (VCell l a d) | _ => undefined end.

(** [putchar] *)
Definition putchar (c : ascii) : M unit :=
  fun s => Done tt (State (heap s) (output s +:+ String c EmptyString)).

Definition puts (t : string) : M unit :=
  fun s => Done tt (State (heap s) (output s +:+ t)).

(** ** Constructors and macros of the headers

    [builtin.c] includes [builtin.h], [error.h], [eval.h] and [util.h]; what
    it uses from them is modelled here from the specification. *)

(** Modelled from the spec: the value constructor [Nil(loc)], which is not
    in [builtin.c]; it builds a new [Nil] node stamped with the supplied
    source location. *)
Definition Nil (l : location) : M ptr := alloc (VNil l).

(** Modelled from the spec: the value constructor [True(loc)], which is not
    in [builtin.c]; it builds a new [True] node stamped with the supplied
    source location. *)
Definition True_ (l : location) : M ptr := alloc (VTrue l).

(** Modelled from the spec: [error(loc, fmt, ...)], which is not in
    [builtin.c]; it returns a new Error value carrying the formatted message
    and the location. It returns: errors are ordinary values. *)
Definition error (l : location) (msg : string) : M ptr := alloc (VError l msg).

(** Modelled from the spec: the location of a node built by a helper that
    takes none; the helpers are not in [builtin.c]. *)
Definition no_loc : location := 0%nat.

(** Modelled from the spec: [cons(a, d)], which is not in [builtin.c]; it
    builds a new Cell pair. The helper takes no location. *)
Definition cons (a d : ptr) : M ptr := alloc (VCell no_loc a d).

(** Modelled from the spec: [quote(x)], which is not in [builtin.c]; it
    builds the form [(quote x)], the list of the symbol [quote] and [x]. *)
Definition quote (x : ptr) : M ptr :=
  n <- Nil no_loc ;;
  tl <- cons x n ;;
  q <- alloc (VSymbol no_loc "quote") ;;
  cons q tl.

(** Modelled from the spec: the macro [IS_LIST(v)], which is not in
    [builtin.c]; a value is list-shaped when it is [Nil] or a Cell. *)
Definition IS_LIST (v : ptr) : M bool :=
  t <- type_of v ;;
  ret (match t with VAL_NIL | VAL_CELL => true | _ => false end).

(** C integers: [int] is 32 bits wide, two's complement. *)
Definition INT_MIN : Z := - 2 ^ 31.
Definition INT_MAX : Z := 2 ^ 31 - 1.
Definition wrap (z : Z) : Z := (z + 2 ^ 31) mod 2 ^ 32 - 2 ^ 31.

(** The four operators the [ARITHMETIC] macro is instantiated with. *)
Inductive arith_op := OpAdd | OpSub | OpMul | OpDiv.

Definition op_name (X : arith_op) : string :=
  match X with OpAdd => "+" | OpSub => "-" | OpMul => "*" | OpDiv => "/" end.

(** [sum X i] on [int]. Addition, subtraction and multiplication wrap
    around; division truncates towards zero and has no result when the
    divisor is zero or the quotient [INT_MIN / -1] does not fit. *)
Definition arith (X : arith_op) (sum i : Z) : option Z :=
  match X with
  | OpAdd => Some (wrap (sum + i))
  | OpSub => Some (wrap (sum - i))
  | OpMul => Some (wrap (sum * i))
  | OpDiv => if (i =? 0) || ((sum =? INT_MIN) && (i =? -1))
             then None
             else Some (Z.quot sum i)
  end.

(** [sum X= i] *)
Definition compound_assign (X : arith_op) (sum i : Z) : M Z :=
  match arith X sum i with
  | Some r => ret r
  | None => undefined
  end.

(** The first character of a C string ([*s]); the terminator when empty. *)
Definition first_char (s : string) : ascii :=
  match s with
  | EmptyString => Ascii.zero
  | String c _ => c
  end.

(** C leaves open the order in which the arguments of a call are evaluated.
    In [cons(eval(env, v->car), eval(env, v->cdr->car))] the two calls of
    [eval] do not overlap, but either may run first, and the loads that make
    up the operand of the later call may happen before or after the earlier
    call. These are the schedules a compiler may choose from. *)
Inductive arg_order :=
  | car_first            (* v->car, eval; v->cdr, ->car, eval *)
  | car_first_cdr_loaded (* v->car, v->cdr, eval; ->car, eval *)
  | car_first_loaded     (* v->car, v->cdr, ->car; eval, eval *)
  | cadr_first           (* v->cdr, ->car, eval; v->car, eval *)
  | cadr_first_loaded    (* v->car, v->cdr, ->car; eval of the second operand,
                            eval of the first *).

(** Whether [eval(env, v->car)] runs before [eval(env, v->cdr->car)]. *)
Definition first_argument_first (o : arg_order) : bool :=
  match o with
  | car_first | car_first_cdr_loaded | car_first_loaded => true
  | cadr_first | cadr_first_loaded => false
  end.

(** ** The operators of [builtin.c]

    The evaluator proper ([eval.h]) and the printer are not part of
    [builtin.c]; the operators are written over them as parameters, in the
    order of the C file. [fuel] bounds the iterations of each loop. *)

Section Builtins.

Variable fuel : nat.

(** [eval.h] *)
Variable eval : ptr -> ptr -> M ptr.
Variable eval_list : ptr -> ptr -> M ptr.
Variable progn : ptr -> ptr -> M ptr.
Variable find : ptr -> ptr -> M ptr.
Variable add_variable : ptr -> ptr -> ptr -> M ptr.

(** [print_value(stdout, v)] *)
Variable print_value : ptr -> M ptr.

(** The table [TYPE_NAME(type)] and the macro [IS_VOWEL(c)]. *)
Variable TYPE_NAME : val_type -> string.
Variable IS_VOWEL : ascii -> bool.

(** The schedule the compiler chose for the arguments of [cons(...)] in
    [builtin_cons]. *)
Variable order : arg_order.

(** The [for] loop of [make_function] over the parameters: [Some e] when
    it returns the error [e], [None] when it runs to its end. *)
Fixpoint make_function_params (n : nat) (p : ptr) : M (option ptr) :=
  match n with
  | O => out_of_fuel
  | S n' =>
      t <- type_of p ;;
      if val_type_eqb t VAL_CELL then
        a <- car p ;;
        ta <- type_of a ;;
        if val_type_eqb ta VAL_SYMBOL then
          d <- cdr p ;;
          make_function_params n' d
        else
          l <- loc_of a ;;
          e <- error l ("parameter name must be a symbol (this is "
                        +:+ (if IS_VOWEL (first_char (TYPE_NAME ta))
                             then "an" else "a")
                        +:+ " " +:+ TYPE_NAME ta +:+ ")") ;;
          ret (Some e)
      else ret None
  end.

Definition make_function (env v : ptr) (ty : val_type) : M ptr :=
  (if val_type_eqb ty VAL_FUNCTION || val_type_eqb ty VAL_MACRO
   then ret tt else aborted) ;;;
  a <- car v ;;
  la <- IS_LIST a ;;
  (* [!IS_LIST(v->car) || !IS_LIST(v->cdr)]: the right operand is looked
     at only when the left one is false *)
  malformed <- (if negb la then ret true
                else d <- cdr v ;; ld <- IS_LIST d ;; ret (negb ld)) ;;
  (* the value of [error(...)] is dropped: the statement has no [return] *)
  (if malformed : bool
   then l <- loc_of v ;;
        _ <- error l "malformed function definition" ;; ret tt
   else ret tt) ;;;
  r <- make_function_params fuel a ;;
  match r with
  | Some e => ret e
  | None =>
      d <- cdr v ;;
      l <- loc_of d ;;
      match ty with
      | VAL_MACRO => alloc (VMacro l a d env)
      | _ => alloc (VFunction l a d env)
      end
  end.

Definition builtin_fn (env v : ptr) : M ptr :=
  d <- cdr v ;;
  td <- type_of d ;;
  if negb (val_type_eqb td VAL_CELL) then
    l <- loc_of v ;;
    error l "missing list of parameters"
  else
    a <- car v ;;
    ta <- type_of a ;;
    if negb (val_type_eqb ta VAL_SYMBOL) then
      make_function env v VAL_FUNCTION
    else
      f <- make_function env d VAL_FUNCTION ;;
      add_variable env a f.

(** The [for] loop of [builtin_print]. *)
Fixpoint builtin_print_loop (n : nat) (p : ptr) : M (option ptr) :=
  match n with
  | O => out_of_fuel
  | S n' =>
      t <- type_of p ;;
      if negb (val_type_eqb t VAL_NIL) then
        a <- car p ;;
        e <- print_value a ;;
        te <- type_of e ;;
        if val_type_eqb te VAL_ERROR then ret (Some e)
        else d <- cdr p ;; builtin_print_loop n' d
      else ret None
  end.

Definition builtin_print (env list : ptr) : M ptr :=
  r <- eval_list env list ;;
  t <- type_of r ;;
  if val_type_eqb t VAL_ERROR then ret r
  else
    e <- builtin_print_loop fuel r ;;
    match e with
    | Some e => ret e
    | None => l <- loc_of list ;; Nil l
    end.

Definition builtin_set (env list : ptr) : M ptr :=
  a <- car list ;;
  sym <- eval env a ;;
  bind <- find env sym ;;
  if Nat.eqb bind NULL then
    d <- cdr list ;;
    b <- car d ;;
    value <- eval env b ;;
    _ <- add_variable env sym value ;;
    ret value
  else
    d <- cdr list ;;
    b <- car d ;;
    value <- eval env b ;;
    set_cdr bind value ;;;
    ret value.

(** The loop of the [ARITHMETIC(X)] macro, from the variables [args],
    [sum] and [first]: [inl e] when it returns [e], [inr sum] when it runs
    to its end. *)
Fixpoint ARITHMETIC_loop (X : arith_op) (n : nat) (args : ptr)
    (sum : Z) (first : bool) : M (ptr + Z) :=
  match n with
  | O => out_of_fuel
  | S n' =>
      t <- type_of args ;;
      if negb (val_type_eqb t VAL_NIL) then
        if val_type_eqb t VAL_ERROR then ret (inl args)
        else
          a <- car args ;;
          ta <- type_of a ;;
          if val_type_eqb ta VAL_INT then
            i <- int_of a ;;
            sum' <- (if first then ret i else compound_assign X sum i) ;;
            d <- cdr args ;;
            ARITHMETIC_loop X n' d sum' false
          else
            l <- loc_of a ;;
            e <- error l ("builtin `" +:+ op_name X
                          +:+ "' takes only numeric arguments (got `"
                          +:+ TYPE_NAME ta +:+ "')") ;;
            ret (inl e)
      else ret (inr sum)
  end.

Definition ARITHMETIC (X : arith_op) (env list : ptr) : M ptr :=
  args <- eval_list env list ;;
  r <- ARITHMETIC_loop X fuel args 0 true ;;
  match r with
  | inl e => ret e
  | inr sum => l <- loc_of list ;; alloc (VInt l sum)
  end.

Definition builtin_add := ARITHMETIC OpAdd.
Definition builtin_sub := ARITHMETIC OpSub.
Definition builtin_mul := ARITHMETIC OpMul.
Definition builtin_div := ARITHMETIC OpDiv.

(** The loops of [builtin_eq] and [builtin_less] differ in one test:
    [args->car->i != sum] and [args->car->i >= sum]. [Some r] when the
    loop returns [r], [None] when it runs to its end. *)
Fixpoint builtin_eq_loop (n : nat) (list args : ptr)
    (sum : Z) (first : bool) : M (option ptr) :=
  match n with
  | O => out_of_fuel
  | S n' =>
      t <- type_of args ;;
      if negb (val_type_eqb t VAL_NIL) then
        if val_type_eqb t VAL_ERROR then ret (Some args)
        else
          a <- car args ;;
          ta <- type_of a ;;
          if val_type_eqb ta VAL_INT then
            i <- int_of a ;;
            if first then
              d <- cdr args ;; builtin_eq_loop n' list d i false
            else if negb (i =? sum) then
              l <- loc_of list ;; r <- Nil l ;; ret (Some r)
            else
              d <- cdr args ;; builtin_eq_loop n' list d sum first
          else
            l <- loc_of a ;;
            e <- error l ("builtin `=' takes only numeric"
                          +:+ " arguments (got `"
                          +:+ TYPE_NAME ta +:+ "')") ;;
            ret (Some e)
      else ret None
  end.

Definition builtin_eq (env list : ptr) : M ptr :=
  args <- eval_list env list ;;
  r <- builtin_eq_loop fuel list args 0 true ;;
  match r with
  | Some r => ret r
  | None => l <- loc_of list ;; True_ l
  end.

Fixpoint builtin_less_loop (n : nat) (v args : ptr)
    (sum : Z) (first : bool) : M (option ptr) :=
  match n with
  | O => out_of_fuel
  | S n' =>
      t <- type_of args ;;
      if negb (val_type_eqb t VAL_NIL) then
        if val_type_eqb t VAL_ERROR then ret (Some args)
        else
          a <- car args ;;
          ta <- type_of a ;;
          if val_type_eqb ta VAL_INT then
            i <- int_of a ;;
            if first then
              d <- cdr args ;; builtin_less_loop n' v d i false
            else if i >=? sum then
              l <- loc_of v ;; r <- Nil l ;; ret (Some r)
            else
              d <- cdr args ;; builtin_less_loop n' v d sum first
          else
            l <- loc_of a ;;
            e <- error l ("builtin `<' takes only numeric"
                          +:+ " arguments (got `"
                          +:+ TYPE_NAME ta +:+ "')") ;;
            ret (Some e)
      else ret None
  end.

Definition builtin_less (env v : ptr) : M ptr :=
  args <- eval_list env v ;;
  r <- builtin_less_loop fuel v args 0 true ;;
  match r with
  | Some r => ret r
  | None => l <- loc_of v ;; True_ l
  end.

Definition builtin_if (env list : ptr) : M ptr :=
  c <- car list ;;
  r <- eval env c ;;
  t <- type_of r ;;
  if val_type_eqb t VAL_TRUE then
    d <- cdr list ;;
    a <- car d ;;
    eval env a
  else
    (* Otherwise do the else branches. *)
    d <- cdr list ;;
    dd <- cdr d ;;
    progn env dd.

Definition builtin_quote (env v : ptr) : M ptr :=
  car v.

Definition builtin_setq (env list : ptr) : M ptr :=
  a <- car list ;;
  q <- quote a ;;
  d <- cdr list ;;
  l <- cons q d ;;
  builtin_set env l.

Definition builtin_println (env v : ptr) : M ptr :=
  r <- builtin_print env v ;;
  putchar "010"%char ;;;
  ret r.

(** [x] is the value of [eval(env, v->car)] and [y] that of
    [eval(env, v->cdr->car)], in every schedule. *)
Definition builtin_cons (env v : ptr) : M ptr :=
  match order with
  | car_first =>
      a <- car v ;;
      x <- eval env a ;;
      d <- cdr v ;;
      b <- car d ;;
      y <- eval env b ;;
      cons x y
  | car_first_cdr_loaded =>
      a <- car v ;;
      d <- cdr v ;;
      x <- eval env a ;;
      b <- car d ;;
      y <- eval env b ;;
      cons x y
  | car_first_loaded =>
      a <- car v ;;
      d <- cdr v ;;
      b <- car d ;;
      x <- eval env a ;;
      y <- eval env b ;;
      cons x y
  | cadr_first =>
      d <- cdr v ;;
      b <- car d ;;
      y <- eval env b ;;
      a <- car v ;;
      x <- eval env a ;;
      cons x y
  | cadr_first_loaded =>
      a <- car v ;;
      d <- cdr v ;;
      b <- car d ;;
      y <- eval env b ;;
      x <- eval env a ;;
      cons x y
  end.

Definition builtin_car (env v : ptr) : M ptr :=
  a <- car v ;;
  r <- eval env a ;;
  car r.

Definition builtin_cdr (env v : ptr) : M ptr :=
  a <- car v ;;
  r <- eval env a ;;
  cdr r.

Definition builtin_macro (env v : ptr) : M ptr :=
  make_function env v VAL_MACRO.

Definition builtin_progn (env v : ptr) : M ptr :=
  progn env v.

(** The [while] statement of [builtin_while]; the local [r] starts
    uninitialised ([None]). *)
Fixpoint builtin_while_loop (n : nat) (env v : ptr) (r : option ptr)
    : M (option ptr) :=
  match n with
  | O => out_of_fuel
  | S n' =>
      a <- car v ;;
      c <- eval env a ;;
      if Nat.eqb c NULL then ret r
      else
        t <- type_of c ;;
        if val_type_eqb t VAL_TRUE then
          d <- cdr v ;;
          r' <- progn env d ;;
          builtin_while_loop n' env v (Some r')
        else ret r
  end.

Definition builtin_while (env v : ptr) : M ptr :=
  r <- builtin_while_loop fuel env v None ;;
  match r with
  | Some r => ret r
  | None => undefined
  end.

(** The function behind each entry of the table of [load_builtins]. *)
Definition call_builtin (f : builtin) : ptr -> ptr -> M ptr :=
  match f with
  | Bprogn => builtin_progn
  | Bmacro => builtin_macro
  | Bprintln => builtin_println
  | Bprint => builtin_print
  | Bwhile => builtin_while
  | Bquote => builtin_quote
  | Bcons => builtin_cons
  | Bsetq => builtin_setq
  | Bset => builtin_set
  | Bcar => builtin_car
  | Bcdr => builtin_cdr
  | Bfn => builtin_fn
  | Bif => builtin_if
  | Badd => builtin_add
  | Bsub => builtin_sub
  | Bmul => builtin_mul
  | Bdiv => builtin_div
  | Beq => builtin_eq
  | Bless => builtin_less
  end.

End Builtins.

(** ** The evaluator and the environment

    [eval.c] is not among the sources; the definitions of this part follow
    the specification (sections 4.2 and 4.3). *)

(** Modelled from the spec: the write [frame->car = cell] of
    [add_variable], which is not in [builtin.c]. *)
Definition set_car (p : ptr) (a : ptr) : M unit :=
  v <- deref p ;;
  match v with VCell l _ d => store p (VCell l a d) | _ => undefined end.

(** Modelled from the spec: the comparison of symbols in [find], which is
    not in [builtin.c]. Symbols are interned names: two Symbol nodes stand
    for the same variable when they carry the same name. Anything else is no
    symbol. *)
Definition same_symbol (a b : ptr) : M bool :=
  fun s => Done (match lookup_ptr (heap s) a, lookup_ptr (heap s) b with
                 | Some (VSymbol _ x), Some (VSymbol _ y) => String.eqb x y
                 | _, _ => false
                 end) s.

Section Environment.

Variable fuel : nat.

(** Modelled from the spec: the search of [find] in one frame, the list of
    its binding cells [(symbol . value)]; [find] is not in [builtin.c]. *)
Fixpoint find_in_frame (n : nat) (sym cell : ptr) : M ptr :=
  match n with
  | O => out_of_fuel
  | S n' =>
      t <- type_of cell ;;
      if val_type_eqb t VAL_CELL then
        b <- car cell ;;
        k <- car b ;;
        same <- same_symbol k sym ;;
        if same : bool then ret b
        else d <- cdr cell ;; find_in_frame n' sym d
      else ret NULL
  end.

(** Modelled from the spec: the search of [find] along the chain of frames;
    a frame is a Cell of its bindings and its parent, and the parent of the
    root frame is [Nil]. *)
Fixpoint find_in_chain (n : nat) (env sym : ptr) : M ptr :=
  match n with
  | O => out_of_fuel
  | S n' =>
      t <- type_of env ;;
      if val_type_eqb t VAL_CELL then
        vars <- car env ;;
        b <- find_in_frame fuel sym vars ;;
        if negb (Nat.eqb b NULL) then ret b
        else up <- cdr env ;; find_in_chain n' up sym
      else ret NULL
  end.

(** Modelled from the spec: [find(env, symbol)], which is not in
    [builtin.c]; it searches the frame chain from innermost to outermost
    and returns the binding cell itself, or the absence marker [NULL] if
    no frame binds the symbol. *)
Definition find (env sym : ptr) : M ptr := find_in_chain fuel env sym.

(** Modelled from the spec: [add_variable(env, symbol, value)], which is
    not in [builtin.c]; it inserts a new binding into the innermost frame
    of [env] and does not search for an existing binding first. What it
    returns is not specified; the value is taken. *)
Definition add_variable (env sym value : ptr) : M ptr :=
  b <- cons sym value ;;
  vars <- car env ;;
  c <- cons b vars ;;
  set_car env c ;;;
  ret value.

(** Modelled from the spec: the argument binding of the apply protocol,
    which is not in [builtin.c]; [params] are bound to [args] by position in
    [frame], as far as both lists go. *)
Fixpoint bind_params (n : nat) (frame params args : ptr) : M unit :=
  match n with
  | O => out_of_fuel
  | S n' =>
      tp <- type_of params ;;
      ta <- type_of args ;;
      if val_type_eqb tp VAL_CELL && val_type_eqb ta VAL_CELL then
        p <- car params ;;
        a <- car args ;;
        _ <- add_variable frame p a ;;
        dp <- cdr params ;;
        da <- cdr args ;;
        bind_params n' frame dp da
      else ret tt
  end.

(** Modelled from the spec: the new child frame of a call, whose parent is
    the environment the function captured; not in [builtin.c]. *)
Definition new_frame (up params args : ptr) : M ptr :=
  n <- Nil no_loc ;;
  frame <- cons n up ;;
  bind_params fuel frame params args ;;;
  ret frame.

Variable eval : ptr -> ptr -> M ptr.

(** Modelled from the spec: [eval_list(env, list)], which is not in
    [builtin.c]; it produces a new list, in the original order, of the
    values of the elements, and on the first Error result stops and
    returns that Error. *)
Fixpoint eval_list_loop (n : nat) (env list : ptr) : M ptr :=
  match n with
  | O => out_of_fuel
  | S n' =>
      t <- type_of list ;;
      if val_type_eqb t VAL_CELL then
        a <- car list ;;
        x <- eval env a ;;
        tx <- type_of x ;;
        if val_type_eqb tx VAL_ERROR then ret x
        else
          d <- cdr list ;;
          rest <- eval_list_loop n' env d ;;
          tr <- type_of rest ;;
          if val_type_eqb tr VAL_ERROR then ret rest
          else cons x rest
      else
        l <- loc_of list ;; Nil l
  end.

(** Modelled from the spec: [eval_list], as above, with the iteration
    bound. *)
Definition eval_list (env list : ptr) : M ptr := eval_list_loop fuel env list.

(** Modelled from the spec: [progn(env, body)], which is not in
    [builtin.c]; it evaluates each expression of [body] in order and
    returns the last result; an Error result is returned at once
    (section 7); the result of an empty body is the uninitialised
    accumulator. *)
Fixpoint progn_loop (n : nat) (env body : ptr) (r : option ptr)
    : M (option ptr) :=
  match n with
  | O => out_of_fuel
  | S n' =>
      t <- type_of body ;;
      if val_type_eqb t VAL_CELL then
        a <- car body ;;
        x <- eval env a ;;
        tx <- type_of x ;;
        if val_type_eqb tx VAL_ERROR then ret (Some x)
        else d <- cdr body ;; progn_loop n' env d (Some x)
      else ret r
  end.

(** Modelled from the spec: [progn], as above; an empty body returns the
    accumulator as it is, uninitialised. *)
Definition progn (env body : ptr) : M ptr :=
  r <- progn_loop fuel env body None ;;
  match r with
  | Some x => ret x
  | None => undefined
  end.

End Environment.

(** Modelled from the spec: the table [TYPE_NAME], which is not in
    [builtin.c]; the names are those of the type discriminants. *)
Definition TYPE_NAME (t : val_type) : string :=
  match t with
  | VAL_NIL => "Nil"
  | VAL_TRUE => "True"
  | VAL_SYMBOL => "Symbol"
  | VAL_INT => "Integer"
  | VAL_CELL => "Cell"
  | VAL_FUNCTION => "Function"
  | VAL_MACRO => "Macro"
  | VAL_BUILTIN => "NativeOperator"
  | VAL_ERROR => "Error"
  end.

(** Modelled from the spec: the macro [IS_VOWEL], which is not in
    [builtin.c]. *)
Definition IS_VOWEL (c : ascii) : bool :=
  existsb (Ascii.eqb c)
    (list_ascii_of_string "aeiouAEIOU").

(** Modelled from the spec: the rendering of a value by the printer, an
    external collaborator whose format is not specified: integers in
    decimal, symbols by name and any other value as its type name. *)
Definition render (v : value) : string :=
  match v with
  | VInt _ i => pretty i
  | VSymbol _ name => name
  | _ => TYPE_NAME (type v)
  end.

(** Modelled from the spec: [print_value(out, v)], which is not in
    [builtin.c]; it writes the rendering of the value and returns the value
    printed. *)
Definition print_value (p : ptr) : M ptr :=
  v <- deref p ;;
  puts (render v) ;;;
  ret p.

(** Modelled from the spec: [eval(env, expr)], which is not in
    [builtin.c]. A Symbol is looked up with [find]; a Cell applies the value
    of its first element to the rest, unevaluated for a native operator or a
    macro and evaluated with [eval_list] for a function; every other value
    evaluates to itself. Each level of recursion costs one unit of fuel;
    [ord] is the schedule of the compiled [builtin_cons]. *)
Fixpoint eval (ord : arg_order) (n : nat) (env e : ptr) {struct n}
    : M ptr :=
  match n with
  | O => out_of_fuel
  | S n' =>
      v <- deref e ;;
      match v with
      | VSymbol l name =>
          b <- find n' env e ;;
          if Nat.eqb b NULL then error l ("unbound symbol `" +:+ name +:+ "'")
          else cdr b
      | VCell l f args =>
          op <- eval ord n' env f ;;
          o <- deref op ;;
          match o with
          | VBuiltin _ b =>
              call_builtin n' (eval ord n') (eval_list n' (eval ord n'))
                (progn n' (eval ord n')) (find n') add_variable print_value
                TYPE_NAME IS_VOWEL ord b env args
          | VFunction _ params body up =>
              vals <- eval_list n' (eval ord n') env args ;;
              t <- type_of vals ;;
              if val_type_eqb t VAL_ERROR then ret vals
              else
                frame <- new_frame n' up params vals ;;
                progn n' (eval ord n') frame body
          | VMacro _ params body up =>
              frame <- new_frame n' up params args ;;
              progn n' (eval ord n') frame body
          | _ => error l ("`" +:+ TYPE_NAME (type o) +:+ "' is not callable")
          end
      | _ => ret e
      end
  end.

(** ** The table of built-ins and whole programs *)

(** Modelled from the spec: [add_builtin(env, name, f)], which is not in
    [builtin.c]; it binds the name to a NativeOperator value in [env]. *)
Definition add_builtin (env : ptr) (name : string) (f : builtin) : M unit :=
  s <- alloc (VSymbol no_loc name) ;;
  b <- alloc (VBuiltin no_loc f) ;;
  _ <- add_variable env s b ;;
  ret tt.

Definition load_builtins (env : ptr) : M unit :=
  add_builtin env "progn"   Bprogn ;;;
  add_builtin env "macro"   Bmacro ;;;
  add_builtin env "println" Bprintln ;;;
  add_builtin env "print"   Bprint ;;;
  add_builtin env "while"   Bwhile ;;;
  add_builtin env "quote"   Bquote ;;;
  add_builtin env "cons"    Bcons ;;;
  add_builtin env "setq"    Bsetq ;;;
  add_builtin env "set"     Bset ;;;
  add_builtin env "car"     Bcar ;;;
  add_builtin env "cdr"     Bcdr ;;;
  add_builtin env "fn"      Bfn ;;;
  add_builtin env "if"      Bif ;;;
  add_builtin env "+"       Badd ;;;
  add_builtin env "-"       Bsub ;;;
  add_builtin env "*"       Bmul ;;;
  add_builtin env "/"       Bdiv ;;;
  add_builtin env "="       Beq ;;;
  add_builtin env "<"       Bless.

(** What the reader hands to the evaluator: the tree of a form. *)
#[local] Set Warnings "-register-all".
Inductive sexp :=
  | SInt (i : Z)
  | SSym (name : string)
  | SList (items : list sexp).

(** Modelled from the spec: the location the reader stamps a node with
    (here the address the node gets). *)
Definition here : M location := fun s => Done (S (length (heap s))) s.

(** Modelled from the spec: the reader, an external collaborator; it builds
    the Value tree of a form, lists right-nested and ended by [Nil], every
    node stamped with its location. *)
Fixpoint read (e : sexp) : M ptr :=
  match e with
  | SInt i => l <- here ;; alloc (VInt l i)
  | SSym name => l <- here ;; alloc (VSymbol l name)
  | SList items =>
      (fix read_items (items : list sexp) : M ptr :=
         match items with
         | [] => l <- here ;; Nil l
         | x :: rest =>
             a <- read x ;;
             d <- read_items rest ;;
             l <- here ;;
             alloc (VCell l a d)
         end) items
  end.

Definition empty_state : state := State [] "".

(** Modelled from the spec: what the driver does before the first form, a
    fresh root frame (no bindings, parent [Nil]) with the built-ins
    loaded. *)
Definition root_env : M ptr :=
  vars <- Nil no_loc ;;
  up <- Nil no_loc ;;
  env <- cons vars up ;;
  load_builtins env ;;;
  ret env.

(** Modelled from the spec: the driver, an external collaborator, on a
    sequence of top-level forms: each is read and evaluated in the root
    environment; the value of the last one is the result. *)
Fixpoint run_forms (o : arg_order) (n : nat) (env : ptr)
    (forms : list sexp) (r : ptr) : M ptr :=
  match forms with
  | [] => ret r
  | f :: rest =>
      e <- read f ;;
      v <- eval o n env e ;;
      run_forms o n env rest v
  end.

(** Modelled from the spec: a whole session of the driver, from an empty
    heap. *)
Definition run (o : arg_order) (n : nat) (forms : list sexp) : outcome ptr :=
  (env <- root_env ;; run_forms o n env forms NULL) empty_state.

(** The node a finished run returned, and what it printed. *)
Definition result_of (o : outcome ptr) : option value :=
  match o with
  | Done p s => lookup_ptr (heap s) p
  | _ => None
  end.

Definition printed (o : outcome ptr) : option string :=
  match o with
  | Done _ s => Some (output s)
  | _ => None
  end.

(** ** What the specification says of the numeric operators *)

(** [<]: every later argument is compared with the first one. *)
Definition less_spec (zs : list Z) : bool :=
  match zs with
  | [] => true
  | z0 :: rest => forallb (fun z => z <? z0) rest
  end.

(** [=]: every argument equals the first one. *)
Definition eq_spec (zs : list Z) : bool :=
  match zs with
  | [] => true
  | z0 :: rest => forallb (fun z => z =? z0) rest
  end.

(** The arithmetic operators: the first argument seeds the accumulator and
    each later one is folded in from the left; no argument gives 0. *)
Fixpoint fold_from (X : arith_op) (acc : Z) (zs : list Z) : option Z :=
  match zs with
  | [] => Some acc
  | i :: rest =>
      match arith X acc i with
      | Some acc' => fold_from X acc' rest
      | None => None
      end
  end.

Definition arith_spec (X : arith_op) (zs : list Z) : option Z :=
  match zs with
  | [] => Some 0
  | z0 :: rest => fold_from X z0 rest
  end.

(** The six operators on numbers, the name each puts in its message, and
    when its loop gets past the Integers [zs] in front of a later argument:
    always for [+], [-] and [*], while the quotient is defined for [/],
    and while no comparison with the first argument has failed for [=]
    and [<]. *)
Definition numeric_name (b : builtin) : option string :=
  match b with
  | Badd => Some "+" | Bsub => Some "-" | Bmul => Some "*" | Bdiv => Some "/"
  | Beq => Some "=" | Bless => Some "<"
  | _ => None
  end.

Definition gets_past (b : builtin) (zs : list Z) : bool :=
  match b with
  | Badd | Bsub | Bmul => true
  | Bdiv => match arith_spec OpDiv zs with Some _ => true | None => false end
  | Beq => eq_spec zs
  | Bless => less_spec zs
  | _ => false
  end.

(** ** The cells of an environment

    The Cells [find] walks along when it searches a frame (the spine of the
    list of bindings) and a chain of frames (the frames and their spines).
    The binding cells themselves are not among them. *)
Fixpoint frame_cells (n : nat) (h : list value) (cell : ptr)
    : option (list ptr) :=
  match n with
  | O => None
  | S n' =>
      match lookup_ptr h cell with
      | Some (VCell _ _ d) =>
          match frame_cells n' h d with
          | Some cs => Some (cell :: cs)
          | None => None
          end
      | Some _ => Some []
      | None => None
      end
  end.

Fixpoint chain_cells (n : nat) (h : list value) (env : ptr)
    : option (list ptr) :=
  match n with
  | O => None
  | S n' =>
      match lookup_ptr h env with
      | Some (VCell _ vars up) =>
          match frame_cells n h vars, chain_cells n' h up with
          | Some a, Some b => Some (env :: a ++ b)
          | _, _ => None
          end
      | Some _ => Some []
      | None => None
      end
  end.

(** ** Lists in the heap *)

(** [lseg h p ps q]: from [p], a chain of Cells whose elements are [ps]
    leads to [q]. *)
Fixpoint lseg (h : list value) (p : ptr) (ps : list ptr) (q : ptr) : Prop :=
  match ps with
  | [] => p = q
  | a :: ps' => exists l d, lookup_ptr h p = Some (VCell l a d) /\ lseg h d ps' q
  end.

(** [is_list h p ps]: [p] is the list of [ps], ended by a [Nil] node. *)
Definition is_list (h : list value) (p : ptr) (ps : list ptr) : Prop :=
  exists q l, lseg h p ps q /\ lookup_ptr h q = Some (VNil l).

(** [ints h ps zs]: the nodes [ps] are the Integers [zs]. *)
Definition ints (h : list value) (ps : list ptr) (zs : list Z) : Prop :=
  Forall2 (fun p z => exists l, lookup_ptr h p = Some (VInt l z)) ps zs.

(** [symbols h ps]: the nodes [ps] are Symbols. *)
Definition symbols (h : list value) (ps : list ptr) : Prop :=
  Forall (fun p => exists l name, lookup_ptr h p = Some (VSymbol l name)) ps.

(** [nodes h ps vs]: the nodes [ps] are [vs]. *)
Definition nodes (h : list value) (ps : list ptr) (vs : list value) : Prop :=
  Forall2 (fun p v => lookup_ptr h p = Some v) ps vs.

(** ** The messages *)

Definition type_error_message (TYPE_NAME : val_type -> string)
    (name : string) (t : val_type) : string :=
  "builtin `" +:+ name +:+ "' takes only numeric arguments (got `"
  +:+ TYPE_NAME t +:+ "')".

Definition parameter_message (TYPE_NAME : val_type -> string)
    (IS_VOWEL : ascii -> bool) (t : val_type) : string :=
  "parameter name must be a symbol (this is "
  +:+ (if IS_VOWEL (first_char (TYPE_NAME t)) then "an" else "a")
  +:+ " " +:+ TYPE_NAME t +:+ ")".

(** ** The printer *)

Definition newline : string := String "010"%char "".

(** A printer that writes the rendering of the value it is given, leaves
    the heap alone and reports no error, on every value that is no Error. *)
Definition printer_ok (print_value : ptr -> M ptr) (render : value -> string)
    : Prop :=
  forall p s v,
    lookup_ptr (heap s) p = Some v ->
    type v <> VAL_ERROR ->
    exists e ve,
      print_value p s = Done e (State (heap s) (output s +:+ render v))
      /\ lookup_ptr (heap s) e = Some ve
      /\ type ve <> VAL_ERROR.

(** ** The argument list [setq] hands to [set] *)

(** [setq] builds the argument list [((quote sym) . rest)] in five new
    nodes. *)
Definition quoted_args (h : list value) (sym rest : ptr) : list value :=
  let n := length h in
  h ++ [VNil no_loc;
        VCell no_loc sym (1 + n)%nat;
        VSymbol no_loc "quote";
        VCell no_loc (3 + n)%nat (2 + n)%nat;
        VCell no_loc (4 + n)%nat rest].

(** [is_quoted_args h args sym rest]: in [h], [args] is the list whose
    first element is the form [(quote sym)] and whose tail is [rest]. *)
Definition is_quoted_args (h : list value) (args sym rest : ptr) : Prop :=
  exists q k l,
    lseg h args [q] rest
    /\ is_list h q [k; sym]
    /\ lookup_ptr h k = Some (VSymbol l "quote").

(** ** Programs *)

Definition quoted (x : sexp) : sexp := SList [SSym "quote"; x].
Definition call (f : string) (args : list sexp) : sexp :=
  SList (SSym f :: args).

(** The native apply site: the operator [f] called on the unevaluated
    argument list [args] in the root environment, after [forms] ran. *)
Definition apply_builtin (o : arg_order) (n : nat) (forms : list sexp)
    (f : builtin) (args : list sexp) : outcome ptr :=
  (env <- root_env ;;
   _ <- run_forms o n env forms NULL ;;
   v <- read (SList args) ;;
   call_builtin n (eval o n) (eval_list n (eval o n)) (progn n (eval o n))
     (find n) add_variable print_value TYPE_NAME IS_VOWEL o f env v)
    empty_state.

Definition state_of {A} (o : outcome A) : state :=
  match o with
  | Done _ s => s
  | _ => empty_state
  end.

(** A form whose evaluation yields an Error value. *)
Definition failing : sexp := call "+" [quoted (SSym "x")].

(** A loop that counts [i] up to 2, prints [i] in each round, and
    its body ends in an Error in the first round only. *)
Definition body_fails_once : list sexp :=
  [call "setq" [SSym "i"; SInt 0];
   call "while" [call "<" [SInt 2; SSym "i"];
                 call "setq" [SSym "i"; call "+" [SSym "i"; SInt 1]];
                 call "print" [SSym "i"];
                 call "if" [call "=" [SSym "i"; SInt 1]; failing; SSym "i"]]].

(** A loop whose condition is [True] in the first round and an Error in
    the second. *)
Definition condition_fails : list sexp :=
  [call "setq" [SSym "i"; SInt 0];
   call "while" [call "if" [call "=" [SSym "i"; SInt 0];
                            call "=" [SInt 0; SInt 0];
                            failing];
                 call "setq" [SSym "i"; SInt 1]]].

(** A closure: [g] is a function made inside a call of [mk], so the
    environment it captured is a frame of that call, whose parent is the
    root frame. *)
Definition closure_forms : list sexp :=
  [call "setq" [SSym "i"; SInt 0];
   call "fn" [SSym "mk"; SList [SSym "a"];
              call "fn" [SList [SSym "b"]; SSym "i"]];
   call "setq" [SSym "g"; call "mk" [SInt 1]]].

(** The kinds of value each numeric operator can return: an Error or an
    Integer for the arithmetic ones, an Error, [Nil] or [True] for the
    comparisons. *)
Definition result_kind (b : builtin) (t : val_type) : bool :=
  match b, t with
  | (Badd | Bsub | Bmul | Bdiv), (VAL_ERROR | VAL_INT) => true
  | (Beq | Bless), (VAL_ERROR | VAL_NIL | VAL_TRUE) => true
  | _, _ => false
  end.

(** What a loop of a numeric operator can end in: nothing returned, a node
    of the list that is an Error, or one new node. *)
Definition loop_outcome {R} (s : state) (ended : R -> Prop)
    (returned : R -> option ptr) (kind : val_type -> Prop)
    (r : R) (s' : state) : Prop :=
  (ended r /\ s' = s)
  \/ (exists e ve, returned r = Some e /\ s' = s
        /\ lookup_ptr (heap s) e = Some ve /\ type ve = VAL_ERROR)
  \/ (exists node, returned r = Some (S (length (heap s)))
        /\ s' = State (heap s ++ [node]) (output s) /\ kind (type node)).

(** The node [make_function] builds: a Function or a Macro over the
    parameters, the body and the captured environment. *)
Definition closure (ty : val_type) (l : location) (param body env : ptr)
    : value :=
  match ty with
  | VAL_MACRO => VMacro l param body env
  | _ => VFunction l param body env
  end.

(** [prints print_value render v]: on the value [v], wherever it lies, the
    printer writes [render v], leaves the heap alone and reports no
    error. *)
Definition prints (print_value : ptr -> M ptr) (render : value -> string)
    (v : value) : Prop :=
  forall p s,
    lookup_ptr (heap s) p = Some v ->
    exists e ve,
      print_value p s = Done e (State (heap s) (output s +:+ render v))
      /\ lookup_ptr (heap s) e = Some ve
      /\ type ve <> VAL_ERROR.

(** A printer that cannot print Symbols: on a Symbol it writes nothing and
    returns an Error, on any other value it does what [print_value] does. *)
Definition print_no_symbols (p : ptr) : M ptr :=
  v <- deref p ;;
  match v with
  | VSymbol l _ => error l "cannot print a symbol"
  | _ => print_value p
  end.

(** The rounds of the [while] statement of [builtin_while], from a state and
    a value of the local [r] to the state and the value of [r] at the end:
    the condition evaluates to something that is not [True], or it evaluates
    to [True], the body runs as a [progn], and the rounds go on. The last
    index counts the rounds. *)
Inductive while_rounds (eval progn : ptr -> ptr -> M ptr) (env v : ptr)
    : state -> option ptr -> state -> option ptr -> nat -> Prop :=
  | rounds_end s acc l c d r s1 :
      lookup_ptr (heap s) v = Some (VCell l c d) ->
      eval env c s = Done r s1 ->
      r = NULL \/ (exists vr, lookup_ptr (heap s1) r = Some vr
                              /\ type vr <> VAL_TRUE) ->
      while_rounds eval progn env v s acc s1 acc 0
  | rounds_more s acc l c d r s1 vr l1 c1 d1 x s2 s3 res k :
      lookup_ptr (heap s) v = Some (VCell l c d) ->
      eval env c s = Done r s1 ->
      lookup_ptr (heap s1) r = Some vr ->
      type vr = VAL_TRUE ->
      lookup_ptr (heap s1) v = Some (VCell l1 c1 d1) ->
      progn env d1 s1 = Done x s2 ->
      while_rounds eval progn env v s2 (Some x) s3 res k ->
      while_rounds eval progn env v s acc s3 res (S k).

(** The values an [int] holds. *)
Definition in_range (z : Z) : Prop := INT_MIN <= z <= INT_MAX.

(** The operator of [X] on the integers of mathematics. *)
Definition exact (X : arith_op) (a b : Z) : Z :=
  match X with
  | OpAdd => a + b
  | OpSub => a - b
  | OpMul => a * b
  | OpDiv => Z.quot a b
  end.

(** [fits X acc zs]: folding [zs] into [acc] with the exact operator never
    leaves the range of [int] and never divides by zero. *)
Fixpoint fits (X : arith_op) (acc : Z) (zs : list Z) : Prop :=
  match zs with
  | [] => True
  | i :: rest =>
      in_range (exact X acc i) /\ (X = OpDiv -> i <> 0)
      /\ fits X (exact X acc i) rest
  end.

(** What the specification says of the arithmetic operators, in its own
    terms, to be compared with [arith] and the loop of [ARITHMETIC]. *)

(** The [int] an integer comes out as: the number between [INT_MIN] and
    [INT_MAX] that differs from it by a multiple of 2^32. *)
Definition to_int (z : Z) : Z :=
  let r := z mod 2 ^ 32 in
  if r <? 2 ^ 31 then r else r - 2 ^ 32.

(** The arithmetic operator that corresponds to [X]: the sum, the difference
    and the product, as [int]s, and the quotient rounded towards zero, which
    there is when the divisor is not zero and the quotient is an [int]. *)
Definition int_operator (X : arith_op) (a b : Z) : option Z :=
  match X with
  | OpAdd => Some (to_int (a + b))
  | OpSub => Some (to_int (a - b))
  | OpMul => Some (to_int (a * b))
  | OpDiv =>
      if b =? 0 then None
      else if (INT_MIN <=? Z.quot a b) && (Z.quot a b <=? INT_MAX)
           then Some (Z.quot a b)
           else None
  end.

(** The fold of the specification: the first argument seeds the
    accumulator, each later one is folded in from the left, and no argument
    gives 0. *)
Definition left_fold (X : arith_op) (zs : list Z) : option Z :=
  match zs with
  | [] => Some 0
  | z0 :: rest =>
      fold_left (fun acc i => match acc with
                              | Some a => int_operator X a i
                              | None => None
                              end) rest (Some z0)
  end.

(** * Properties *)

(** ** The heap and the monad *)

Lemma lookup_ptr_app_l (h h' : list value) (p : ptr) (v : value) :
  lookup_ptr h p = Some v -> lookup_ptr (h ++ h') p = Some v.
Proof.
  destruct p as [|n]; simpl; [discriminate|].
  intros H. rewrite lookup_app_l; [exact H|].
  apply lookup_lt_Some in H. exact H.
Qed.

Lemma lookup_ptr_alloc (h : list value) (v : value) :
  lookup_ptr (h ++ [v]) (S (length h)) = Some v.
Proof.
  simpl. rewrite lookup_app_r by lia.
  replace (length h - length h)%nat with 0%nat by lia. reflexivity.
Qed.

Lemma lookup_ptr_bound (h : list value) (p : ptr) (v : value) :
  lookup_ptr h p = Some v -> (0 < p <= length h)%nat.
Proof.
  destruct p as [|n]; simpl; [discriminate|].
  intros H. apply lookup_lt_Some in H. lia.
Qed.

Lemma bind_done {A B} (m : M A) (k : A -> M B) (s s' : state) (a : A) :
  m s = Done a s' -> bindM m k s = k a s'.
Proof. intros H. unfold bindM. rewrite H. reflexivity. Qed.

Lemma deref_done (p : ptr) (v : value) (s : state) :
  lookup_ptr (heap s) p = Some v -> deref p s = Done v s.
Proof. intros H. unfold deref. rewrite H. reflexivity. Qed.

Lemma type_of_done (p : ptr) (v : value) (s : state) :
  lookup_ptr (heap s) p = Some v -> type_of p s = Done (type v) s.
Proof. intros H. unfold type_of, bindM, deref. rewrite H. reflexivity. Qed.

Lemma loc_of_done (p : ptr) (v : value) (s : state) :
  lookup_ptr (heap s) p = Some v -> loc_of p s = Done (loc v) s.
Proof. intros H. unfold loc_of, bindM, deref. rewrite H. reflexivity. Qed.

Lemma car_done (p : ptr) (l : location) (a d : ptr) (s : state) :
  lookup_ptr (heap s) p = Some (VCell l a d) -> car p s = Done a s.
Proof. intros H. unfold car, bindM, deref. rewrite H. reflexivity. Qed.

Lemma cdr_done (p : ptr) (l : location) (a d : ptr) (s : state) :
  lookup_ptr (heap s) p = Some (VCell l a d) -> cdr p s = Done d s.
Proof. intros H. unfold cdr, bindM, deref. rewrite H. reflexivity. Qed.

Lemma int_of_done (p : ptr) (l : location) (i : Z) (s : state) :
  lookup_ptr (heap s) p = Some (VInt l i) -> int_of p s = Done i s.
Proof. intros H. unfold int_of, bindM, deref. rewrite H. reflexivity. Qed.

Lemma IS_LIST_done (p : ptr) (v : value) (s : state) :
  lookup_ptr (heap s) p = Some v ->
  IS_LIST p s =
    Done (match type v with VAL_NIL | VAL_CELL => true | _ => false end) s.
Proof.
  intros H. unfold IS_LIST.
  rewrite (bind_done _ _ _ _ _ (type_of_done _ _ _ H)). reflexivity.
Qed.

Create HintDb prim discriminated.
#[local] Hint Resolve deref_done type_of_done loc_of_done car_done cdr_done
  int_of_done IS_LIST_done : prim.

(** One step of a monadic computation whose first action is known. *)
Ltac mstep :=
  erewrite bind_done by (eauto with prim); cbv beta.


(** ** The comparison and arithmetic loops *)

Lemma ints_cons_inv h p ps zs :
  ints h (p :: ps) zs ->
  exists z zs' l, zs = z :: zs' /\ lookup_ptr h p = Some (VInt l z) /\ ints h ps zs'.
Proof.
  intros H. inversion H as [|? z ? zs' [l Hl] Hr]; subst.
  exists z, zs', l. auto.
Qed.

Lemma ints_nil_inv h zs : ints h [] zs -> zs = [].
Proof. intros H. inversion H. reflexivity. Qed.

Lemma ints_length h ps zs : ints h ps zs -> length ps = length zs.
Proof. apply Forall2_length. Qed.

Section Loops.

Variable TYPE_NAME : val_type -> string.

(** *** [builtin_less] *)

Lemma less_loop_nil n v args l sum first s :
  lookup_ptr (heap s) args = Some (VNil l) ->
  builtin_less_loop TYPE_NAME (S n) v args sum first s = Done None s.
Proof.
  intros H. cbn [builtin_less_loop]. mstep. reflexivity.
Qed.

Lemma less_loop_int n v args l a d l' i sum first s :
  lookup_ptr (heap s) args = Some (VCell l a d) ->
  lookup_ptr (heap s) a = Some (VInt l' i) ->
  builtin_less_loop TYPE_NAME (S n) v args sum first s =
    if first then builtin_less_loop TYPE_NAME n v d i false s
    else if i >=? sum then (lv <- loc_of v ;; r <- Nil lv ;; ret (Some r)) s
    else builtin_less_loop TYPE_NAME n v d sum false s.
Proof.
  intros H Ha. cbn [builtin_less_loop]. mstep. cbn. mstep. mstep. cbn. mstep.
  destruct first.
  - mstep. reflexivity.
  - destruct (i >=? sum); [reflexivity|]. mstep. reflexivity.
Qed.

Lemma less_loop_bad n v args l a d va sum first s :
  lookup_ptr (heap s) args = Some (VCell l a d) ->
  lookup_ptr (heap s) a = Some va ->
  type va <> VAL_INT ->
  builtin_less_loop TYPE_NAME (S n) v args sum first s =
    (e <- error (loc va)
            ("builtin `<' takes only numeric arguments (got `"
             +:+ TYPE_NAME (type va) +:+ "')") ;;
     ret (Some e)) s.
Proof.
  intros H Ha Hty. cbn [builtin_less_loop]. mstep. cbn. mstep. mstep.
  destruct (type va) eqn:E; try congruence; cbn; mstep; reflexivity.
Qed.

(** A prefix of Integers all below [sum] is passed over. *)
Lemma less_loop_prefix ps : forall zs n v args q sum s,
  ints (heap s) ps zs ->
  lseg (heap s) args ps q ->
  Forall (fun z => z < sum) zs ->
  builtin_less_loop TYPE_NAME (length ps + n) v args sum false s =
    builtin_less_loop TYPE_NAME n v q sum false s.
Proof.
  induction ps as [|p ps IH]; intros zs n v args q sum s Hi Hs Hlt.
  - cbn in Hs. subst. reflexivity.
  - apply ints_cons_inv in Hi as (z & zs' & l & -> & Hp & Hi).
    destruct Hs as (lc & d & Hc & Hs).
    inversion Hlt as [|? ? Hz Hrest]; subst.
    cbn [length Nat.add].
    rewrite (less_loop_int _ _ _ _ _ _ _ _ _ _ _ Hc Hp).
    cbn. destruct (Z.geb_spec z sum); [lia|].
    eapply IH; eauto.
Qed.

(** The first Integer at or above [sum] ends the loop with [Nil],
    whatever follows it. *)
Lemma less_loop_stop n v args l a d l' i lv sum s :
  lookup_ptr (heap s) args = Some (VCell l a d) ->
  lookup_ptr (heap s) a = Some (VInt l' i) ->
  lookup_ptr (heap s) v = Some lv ->
  sum <= i ->
  builtin_less_loop TYPE_NAME (S n) v args sum false s =
    Done (Some (S (length (heap s))))
         (State (heap s ++ [VNil (loc lv)]) (output s)).
Proof.
  intros Hc Ha Hv Hle.
  rewrite (less_loop_int _ _ _ _ _ _ _ _ _ _ _ Hc Ha). cbn.
  destruct (Z.geb_spec i sum); [|lia].
  mstep. reflexivity.
Qed.

(** *** [builtin_eq] *)

Lemma eq_loop_nil n v args l sum first s :
  lookup_ptr (heap s) args = Some (VNil l) ->
  builtin_eq_loop TYPE_NAME (S n) v args sum first s = Done None s.
Proof.
  intros H. cbn [builtin_eq_loop]. mstep. reflexivity.
Qed.

Lemma eq_loop_int n v args l a d l' i sum first s :
  lookup_ptr (heap s) args = Some (VCell l a d) ->
  lookup_ptr (heap s) a = Some (VInt l' i) ->
  builtin_eq_loop TYPE_NAME (S n) v args sum first s =
    if first then builtin_eq_loop TYPE_NAME n v d i false s
    else if negb (i =? sum)
         then (lv <- loc_of v ;; r <- Nil lv ;; ret (Some r)) s
         else builtin_eq_loop TYPE_NAME n v d sum false s.
Proof.
  intros H Ha. cbn [builtin_eq_loop]. mstep. cbn. mstep. mstep. cbn. mstep.
  destruct first.
  - mstep. reflexivity.
  - destruct (negb (i =? sum)); [reflexivity|]. mstep. reflexivity.
Qed.

Lemma eq_loop_bad n v args l a d va sum first s :
  lookup_ptr (heap s) args = Some (VCell l a d) ->
  lookup_ptr (heap s) a = Some va ->
  type va <> VAL_INT ->
  builtin_eq_loop TYPE_NAME (S n) v args sum first s =
    (e <- error (loc va)
            ("builtin `=' takes only numeric arguments (got `"
             +:+ TYPE_NAME (type va) +:+ "')") ;;
     ret (Some e)) s.
Proof.
  intros H Ha Hty. cbn [builtin_eq_loop]. mstep. cbn. mstep. mstep.
  destruct (type va) eqn:E; try congruence; cbn; mstep; reflexivity.
Qed.

Lemma eq_loop_prefix ps : forall zs n v args q sum s,
  ints (heap s) ps zs ->
  lseg (heap s) args ps q ->
  Forall (fun z => z = sum) zs ->
  builtin_eq_loop TYPE_NAME (length ps + n) v args sum false s =
    builtin_eq_loop TYPE_NAME n v q sum false s.
Proof.
  induction ps as [|p ps IH]; intros zs n v args q sum s Hi Hs Hlt.
  - cbn in Hs. subst. reflexivity.
  - apply ints_cons_inv in Hi as (z & zs' & l & -> & Hp & Hi).
    destruct Hs as (lc & d & Hc & Hs).
    inversion Hlt as [|? ? Hz Hrest]; subst.
    cbn [length Nat.add].
    rewrite (eq_loop_int _ _ _ _ _ _ _ _ _ _ _ Hc Hp).
    cbn. rewrite Z.eqb_refl. cbn.
    eapply IH; eauto.
Qed.

(** *** [ARITHMETIC] *)

Lemma arith_loop_nil X n args l sum first s :
  lookup_ptr (heap s) args = Some (VNil l) ->
  ARITHMETIC_loop TYPE_NAME X (S n) args sum first s = Done (inr sum) s.
Proof.
  intros H. cbn [ARITHMETIC_loop]. mstep. reflexivity.
Qed.

Lemma arith_loop_int X n args l a d l' i sum first s :
  lookup_ptr (heap s) args = Some (VCell l a d) ->
  lookup_ptr (heap s) a = Some (VInt l' i) ->
  ARITHMETIC_loop TYPE_NAME X (S n) args sum first s =
    if first then ARITHMETIC_loop TYPE_NAME X n d i false s
    else match arith X sum i with
         | Some sum' => ARITHMETIC_loop TYPE_NAME X n d sum' false s
         | None => Undefined
         end.
Proof.
  intros H Ha. cbn [ARITHMETIC_loop]. mstep. cbn. mstep. mstep. cbn. mstep.
  destruct first.
  - unfold bindM at 1. cbn. mstep. reflexivity.
  - unfold bindM at 1, compound_assign.
    destruct (arith X sum i); cbn; [|reflexivity].
    mstep. reflexivity.
Qed.

Lemma arith_loop_bad X n args l a d va sum first s :
  lookup_ptr (heap s) args = Some (VCell l a d) ->
  lookup_ptr (heap s) a = Some va ->
  type va <> VAL_INT ->
  ARITHMETIC_loop TYPE_NAME X (S n) args sum first s =
    (e <- error (loc va)
            ("builtin `" +:+ op_name X
             +:+ "' takes only numeric arguments (got `"
             +:+ TYPE_NAME (type va) +:+ "')") ;;
     ret (inl e)) s.
Proof.
  intros H Ha Hty. cbn [ARITHMETIC_loop]. mstep. cbn. mstep. mstep.
  destruct (type va) eqn:E; try congruence; cbn; mstep; reflexivity.
Qed.


(** Over a whole list of Integers. *)
Lemma less_loop_ints ps : forall zs n v args sum s lv,
  ints (heap s) ps zs ->
  is_list (heap s) args ps ->
  lookup_ptr (heap s) v = Some lv ->
  builtin_less_loop TYPE_NAME (length ps + S n) v args sum false s =
    if forallb (fun z => z <? sum) zs then Done None s
    else Done (Some (S (length (heap s))))
              (State (heap s ++ [VNil (loc lv)]) (output s)).
Proof.
  induction ps as [|p ps IH]; intros zs n v args sum s lv Hi Hl Hv.
  - apply ints_nil_inv in Hi as ->. destruct Hl as (q & l & Hs & Hq).
    cbn in Hs. subst q. cbn [length Nat.add forallb].
    eapply less_loop_nil; eauto.
  - apply ints_cons_inv in Hi as (z & zs' & l & -> & Hp & Hi).
    destruct Hl as (q & lq & (lc & d & Hc & Hs) & Hq).
    cbn [length Nat.add forallb].
    destruct (Z.ltb_spec z sum) as [Hlt|Hge]; cbn [andb].
    + rewrite (less_loop_int _ _ _ _ _ _ _ _ _ _ _ Hc Hp). cbn.
      destruct (Z.geb_spec z sum); [lia|].
      eapply IH; eauto. exists q, lq. auto.
    + eapply less_loop_stop; eauto.
Qed.

Lemma eq_loop_ints ps : forall zs n v args sum s lv,
  ints (heap s) ps zs ->
  is_list (heap s) args ps ->
  lookup_ptr (heap s) v = Some lv ->
  builtin_eq_loop TYPE_NAME (length ps + S n) v args sum false s =
    if forallb (fun z => z =? sum) zs then Done None s
    else Done (Some (S (length (heap s))))
              (State (heap s ++ [VNil (loc lv)]) (output s)).
Proof.
  induction ps as [|p ps IH]; intros zs n v args sum s lv Hi Hl Hv.
  - apply ints_nil_inv in Hi as ->. destruct Hl as (q & l & Hs & Hq).
    cbn in Hs. subst q. cbn [length Nat.add forallb].
    eapply eq_loop_nil; eauto.
  - apply ints_cons_inv in Hi as (z & zs' & l & -> & Hp & Hi).
    destruct Hl as (q & lq & (lc & d & Hc & Hs) & Hq).
    cbn [length Nat.add forallb].
    rewrite (eq_loop_int _ _ _ _ _ _ _ _ _ _ _ Hc Hp). cbn.
    destruct (Z.eqb_spec z sum) as [Heq|Hne]; cbn [andb negb].
    + eapply IH; eauto. exists q, lq. auto.
    + mstep. reflexivity.
Qed.

Lemma arith_loop_ints X ps : forall zs n args sum s,
  ints (heap s) ps zs ->
  is_list (heap s) args ps ->
  ARITHMETIC_loop TYPE_NAME X (length ps + S n) args sum false s =
    match fold_from X sum zs with
    | Some r => Done (inr r) s
    | None => Undefined
    end.
Proof.
  induction ps as [|p ps IH]; intros zs n args sum s Hi Hl.
  - apply ints_nil_inv in Hi as ->. destruct Hl as (q & l & Hs & Hq).
    cbn in Hs. subst q. cbn [length Nat.add fold_from].
    eapply arith_loop_nil; eauto.
  - apply ints_cons_inv in Hi as (z & zs' & l & -> & Hp & Hi).
    destruct Hl as (q & lq & (lc & d & Hc & Hs) & Hq).
    cbn [length Nat.add fold_from].
    rewrite (arith_loop_int _ _ _ _ _ _ _ _ _ _ _ Hc Hp).
    destruct (arith X sum z); [|reflexivity].
    eapply IH; eauto. exists q, lq. auto.
Qed.

Lemma arith_loop_prefix X ps : forall zs n args q sum r s,
  ints (heap s) ps zs ->
  lseg (heap s) args ps q ->
  fold_from X sum zs = Some r ->
  ARITHMETIC_loop TYPE_NAME X (length ps + n) args sum false s =
    ARITHMETIC_loop TYPE_NAME X n q r false s.
Proof.
  induction ps as [|p ps IH]; intros zs n args q sum r s Hi Hs Hf.
  - apply ints_nil_inv in Hi as ->. cbn in Hs, Hf. subst.
    injection Hf as ->. reflexivity.
  - apply ints_cons_inv in Hi as (z & zs' & l & -> & Hp & Hi).
    destruct Hs as (lc & d & Hc & Hs).
    cbn [length Nat.add]. cbn [fold_from] in Hf.
    rewrite (arith_loop_int _ _ _ _ _ _ _ _ _ _ _ Hc Hp).
    destruct (arith X sum z); [|discriminate].
    eapply IH; eauto.
Qed.


Lemma lseg_snoc h ps : forall p a q,
  lseg h p (ps ++ [a]) q ->
  exists m l, lseg h p ps m /\ lookup_ptr h m = Some (VCell l a q).
Proof.
  induction ps as [|x ps IH]; intros p a q H.
  - destruct H as (l & d & Hc & Hd). cbn in Hd. subst d.
    exists p, l. split; [reflexivity|assumption].
  - destruct H as (l & d & Hc & Hd).
    apply IH in Hd as (m & lm & Hm & Hcm).
    exists m, lm. split; [|assumption]. exists l, d. auto.
Qed.

Lemma forallb_Forall_ltb sum zs :
  forallb (fun z => z <? sum) zs = true -> Forall (fun z => z < sum) zs.
Proof.
  induction zs as [|z zs IH]; cbn; [constructor|].
  intros H. apply andb_prop in H as [H1 H2].
  constructor; [apply Z.ltb_lt; assumption|auto].
Qed.

Lemma forallb_Forall_eqb sum zs :
  forallb (fun z => z =? sum) zs = true -> Forall (fun z => z = sum) zs.
Proof.
  induction zs as [|z zs IH]; cbn; [constructor|].
  intros H. apply andb_prop in H as [H1 H2].
  constructor; [apply Z.eqb_eq; assumption|auto].
Qed.

(** *** The operators on a list of Integers *)

Variable fuel : nat.
Variable eval_list : ptr -> ptr -> M ptr.

Lemma builtin_less_ints env v s args s1 ps zs lv :
  eval_list env v s = Done args s1 ->
  is_list (heap s1) args ps ->
  ints (heap s1) ps zs ->
  lookup_ptr (heap s1) v = Some lv ->
  (length zs < fuel)%nat ->
  builtin_less fuel eval_list TYPE_NAME env v s =
    Done (S (length (heap s1)))
         (State (heap s1 ++ [if less_spec zs then VTrue (loc lv)
                             else VNil (loc lv)]) (output s1)).
Proof.
  intros He Hl Hi Hv Hf. unfold builtin_less. mstep.
  rewrite <- (ints_length _ _ _ Hi) in Hf.
  replace fuel with (length ps + S (fuel - length ps - 1))%nat by lia.
  destruct ps as [|p ps].
  - apply ints_nil_inv in Hi as ->. destruct Hl as (q & l & Hs & Hq).
    cbn in Hs. subst q. cbn [length Nat.add less_spec].
    erewrite bind_done by (eapply less_loop_nil; eauto).
    cbv beta iota. mstep. reflexivity.
  - apply ints_cons_inv in Hi as (z & zs' & l & -> & Hp & Hi).
    destruct Hl as (q & lq & (lc & d & Hc & Hs) & Hq).
    cbn [length Nat.add less_spec].
    unfold bindM at 1.
    rewrite (less_loop_int _ _ _ _ _ _ _ _ _ _ _ Hc Hp).
    erewrite less_loop_ints; eauto; [|exists q, lq; auto].
    destruct (forallb _ zs'); cbv beta iota.
    + mstep. reflexivity.
    + reflexivity.
Qed.

Lemma builtin_eq_ints env v s args s1 ps zs lv :
  eval_list env v s = Done args s1 ->
  is_list (heap s1) args ps ->
  ints (heap s1) ps zs ->
  lookup_ptr (heap s1) v = Some lv ->
  (length zs < fuel)%nat ->
  builtin_eq fuel eval_list TYPE_NAME env v s =
    Done (S (length (heap s1)))
         (State (heap s1 ++ [if eq_spec zs then VTrue (loc lv)
                             else VNil (loc lv)]) (output s1)).
Proof.
  intros He Hl Hi Hv Hf. unfold builtin_eq. mstep.
  rewrite <- (ints_length _ _ _ Hi) in Hf.
  replace fuel with (length ps + S (fuel - length ps - 1))%nat by lia.
  destruct ps as [|p ps].
  - apply ints_nil_inv in Hi as ->. destruct Hl as (q & l & Hs & Hq).
    cbn in Hs. subst q. cbn [length Nat.add eq_spec].
    erewrite bind_done by (eapply eq_loop_nil; eauto).
    cbv beta iota. mstep. reflexivity.
  - apply ints_cons_inv in Hi as (z & zs' & l & -> & Hp & Hi).
    destruct Hl as (q & lq & (lc & d & Hc & Hs) & Hq).
    cbn [length Nat.add eq_spec].
    unfold bindM at 1.
    rewrite (eq_loop_int _ _ _ _ _ _ _ _ _ _ _ Hc Hp).
    erewrite eq_loop_ints; eauto; [|exists q, lq; auto].
    destruct (forallb _ zs'); cbv beta iota.
    + mstep. reflexivity.
    + reflexivity.
Qed.

Lemma ARITHMETIC_ints X env list s args s1 ps zs lv :
  eval_list env list s = Done args s1 ->
  is_list (heap s1) args ps ->
  ints (heap s1) ps zs ->
  lookup_ptr (heap s1) list = Some lv ->
  (length zs < fuel)%nat ->
  ARITHMETIC fuel eval_list TYPE_NAME X env list s =
    match arith_spec X zs with
    | Some r => Done (S (length (heap s1)))
                     (State (heap s1 ++ [VInt (loc lv) r]) (output s1))
    | None => Undefined
    end.
Proof.
  intros He Hl Hi Hv Hf. unfold ARITHMETIC. mstep.
  rewrite <- (ints_length _ _ _ Hi) in Hf.
  replace fuel with (length ps + S (fuel - length ps - 1))%nat by lia.
  destruct ps as [|p ps].
  - apply ints_nil_inv in Hi as ->. destruct Hl as (q & l & Hs & Hq).
    cbn in Hs. subst q. cbn [length Nat.add arith_spec].
    erewrite bind_done by (eapply arith_loop_nil; eauto).
    cbv beta iota. mstep. reflexivity.
  - apply ints_cons_inv in Hi as (z & zs' & l & -> & Hp & Hi).
    destruct Hl as (q & lq & (lc & d & Hc & Hs) & Hq).
    cbn [length Nat.add arith_spec].
    unfold bindM at 1.
    rewrite (arith_loop_int _ _ _ _ _ _ _ _ _ _ _ Hc Hp).
    erewrite arith_loop_ints; eauto; [|exists q, lq; auto].
    destruct (fold_from X z zs'); cbv beta iota.
    + mstep. reflexivity.
    + reflexivity.
Qed.


(** *** A non-Integer argument *)

Lemma less_loop_reach ps zs n v args q s :
  ints (heap s) ps zs ->
  lseg (heap s) args ps q ->
  less_spec zs = true ->
  builtin_less_loop TYPE_NAME (length ps + n) v args 0 true s =
    builtin_less_loop TYPE_NAME n v q (hd 0 zs) (bool_decide (zs = [])) s.
Proof.
  intros Hi Hs Hok. destruct ps as [|p ps].
  - apply ints_nil_inv in Hi as ->. cbn in Hs. subst. reflexivity.
  - apply ints_cons_inv in Hi as (z & zs' & l & -> & Hp & Hi).
    destruct Hs as (lc & d & Hc & Hs).
    cbn [length Nat.add]. rewrite (less_loop_int _ _ _ _ _ _ _ _ _ _ _ Hc Hp).
    cbn. eapply less_loop_prefix; eauto.
    apply forallb_Forall_ltb. exact Hok.
Qed.

Lemma eq_loop_reach ps zs n v args q s :
  ints (heap s) ps zs ->
  lseg (heap s) args ps q ->
  eq_spec zs = true ->
  builtin_eq_loop TYPE_NAME (length ps + n) v args 0 true s =
    builtin_eq_loop TYPE_NAME n v q (hd 0 zs) (bool_decide (zs = [])) s.
Proof.
  intros Hi Hs Hok. destruct ps as [|p ps].
  - apply ints_nil_inv in Hi as ->. cbn in Hs. subst. reflexivity.
  - apply ints_cons_inv in Hi as (z & zs' & l & -> & Hp & Hi).
    destruct Hs as (lc & d & Hc & Hs).
    cbn [length Nat.add]. rewrite (eq_loop_int _ _ _ _ _ _ _ _ _ _ _ Hc Hp).
    cbn. eapply eq_loop_prefix; eauto.
    apply forallb_Forall_eqb. exact Hok.
Qed.

Lemma arith_loop_reach X ps zs r n args q s :
  ints (heap s) ps zs ->
  lseg (heap s) args ps q ->
  arith_spec X zs = Some r ->
  ARITHMETIC_loop TYPE_NAME X (length ps + n) args 0 true s =
    ARITHMETIC_loop TYPE_NAME X n q r (bool_decide (zs = [])) s.
Proof.
  intros Hi Hs Hok. destruct ps as [|p ps].
  - apply ints_nil_inv in Hi as ->. cbn in Hs, Hok. subst.
    injection Hok as <-. reflexivity.
  - apply ints_cons_inv in Hi as (z & zs' & l & -> & Hp & Hi).
    destruct Hs as (lc & d & Hc & Hs).
    cbn [length Nat.add]. rewrite (arith_loop_int _ _ _ _ _ _ _ _ _ _ _ Hc Hp).
    cbn. eapply arith_loop_prefix; eauto.
Qed.

Section TypeError.

Variables (env v : ptr) (s s1 : state) (args bad q : ptr).
Variables (ps : list ptr) (zs : list Z) (vb : value).
Hypothesis Heval : eval_list env v s = Done args s1.
Hypothesis Hseg : lseg (heap s1) args (ps ++ [bad]) q.
Hypothesis Hints : ints (heap s1) ps zs.
Hypothesis Hbad : lookup_ptr (heap s1) bad = Some vb.
Hypothesis Htype : type vb <> VAL_INT.
Hypothesis Hfuel : (length zs < fuel)%nat.

Let failed (name : string) : outcome ptr :=
  Done (S (length (heap s1)))
       (State (heap s1 ++ [VError (loc vb)
                             (type_error_message TYPE_NAME name (type vb))])
              (output s1)).

Lemma builtin_less_type_error :
  less_spec zs = true ->
  builtin_less fuel eval_list TYPE_NAME env v s = failed "<".
Proof using All.
  intros Hok. unfold builtin_less. mstep.
  apply lseg_snoc in Hseg as (m & l & Hm & Hc).
  rewrite <- (ints_length _ _ _ Hints) in Hfuel.
  replace fuel with (length ps + S (fuel - length ps - 1))%nat by lia.
  unfold bindM at 1.
  rewrite (less_loop_reach _ _ _ _ _ _ _ Hints Hm Hok).
  rewrite (less_loop_bad _ _ _ _ _ _ _ _ _ _ Hc Hbad Htype).
  reflexivity.
Qed.

Lemma builtin_eq_type_error :
  eq_spec zs = true ->
  builtin_eq fuel eval_list TYPE_NAME env v s = failed "=".
Proof using All.
  intros Hok. unfold builtin_eq. mstep.
  apply lseg_snoc in Hseg as (m & l & Hm & Hc).
  rewrite <- (ints_length _ _ _ Hints) in Hfuel.
  replace fuel with (length ps + S (fuel - length ps - 1))%nat by lia.
  unfold bindM at 1.
  rewrite (eq_loop_reach _ _ _ _ _ _ _ Hints Hm Hok).
  rewrite (eq_loop_bad _ _ _ _ _ _ _ _ _ _ Hc Hbad Htype).
  reflexivity.
Qed.

Lemma ARITHMETIC_type_error X r :
  arith_spec X zs = Some r ->
  ARITHMETIC fuel eval_list TYPE_NAME X env v s = failed (op_name X).
Proof using All.
  intros Hok. unfold ARITHMETIC. mstep.
  apply lseg_snoc in Hseg as (m & l & Hm & Hc).
  rewrite <- (ints_length _ _ _ Hints) in Hfuel.
  replace fuel with (length ps + S (fuel - length ps - 1))%nat by lia.
  unfold bindM at 1.
  rewrite (arith_loop_reach _ _ _ _ _ _ _ _ Hints Hm Hok).
  rewrite (arith_loop_bad _ _ _ _ _ _ _ _ _ _ Hc Hbad Htype).
  reflexivity.
Qed.

End TypeError.

End Loops.

(** ** [if], [quote], [cons], [car] *)

Section Control.

Variables eval progn : ptr -> ptr -> M ptr.

(** The condition is [True]: the value of the "then" branch. *)
Lemma builtin_if_true env list s l c d r s1 vr l1 c1 d1 l2 a dd :
  lookup_ptr (heap s) list = Some (VCell l c d) ->
  eval env c s = Done r s1 ->
  lookup_ptr (heap s1) r = Some vr ->
  type vr = VAL_TRUE ->
  lookup_ptr (heap s1) list = Some (VCell l1 c1 d1) ->
  lookup_ptr (heap s1) d1 = Some (VCell l2 a dd) ->
  builtin_if eval progn env list s = eval env a s1.
Proof.
  intros Hl He Hr Ht Hl1 Hd. unfold builtin_if.
  mstep. mstep. mstep. rewrite Ht. cbn. mstep. mstep. reflexivity.
Qed.

(** The condition is anything else, an Error included: the remaining
    forms as a [progn]. *)
Lemma builtin_if_not_true env list s l c d r s1 vr l1 c1 d1 l2 a dd :
  lookup_ptr (heap s) list = Some (VCell l c d) ->
  eval env c s = Done r s1 ->
  lookup_ptr (heap s1) r = Some vr ->
  type vr <> VAL_TRUE ->
  lookup_ptr (heap s1) list = Some (VCell l1 c1 d1) ->
  lookup_ptr (heap s1) d1 = Some (VCell l2 a dd) ->
  builtin_if eval progn env list s = progn env dd s1.
Proof.
  intros Hl He Hr Ht Hl1 Hd. unfold builtin_if.
  mstep. mstep. mstep.
  destruct (type vr); try congruence; cbn; mstep; mstep; reflexivity.
Qed.

Lemma builtin_quote_verbatim env v s l a d :
  lookup_ptr (heap s) v = Some (VCell l a d) ->
  builtin_quote env v s = Done a s.
Proof. intros H. unfold builtin_quote. eauto with prim. Qed.

(** [cons] when the first argument is evaluated first: the argument list
    reads the same before and after that evaluation. *)
Lemma builtin_cons_first_first order env v s l qa d l2 qb dd x s1 l1 qa1
    l3 dd1 y s2 :
  first_argument_first order = true ->
  lookup_ptr (heap s) v = Some (VCell l qa d) ->
  lookup_ptr (heap s) d = Some (VCell l2 qb dd) ->
  eval env qa s = Done x s1 ->
  lookup_ptr (heap s1) v = Some (VCell l1 qa1 d) ->
  lookup_ptr (heap s1) d = Some (VCell l3 qb dd1) ->
  eval env qb s1 = Done y s2 ->
  builtin_cons eval order env v s =
    Done (S (length (heap s2)))
         (State (heap s2 ++ [VCell no_loc x y]) (output s2)).
Proof.
  intros Ho Hv Hd Hx Hv1 Hd1 Hy.
  destruct order; try discriminate Ho; unfold builtin_cons.
  - erewrite bind_done by (eapply car_done; exact Hv). cbv beta.
    erewrite bind_done by exact Hx. cbv beta.
    erewrite bind_done by (eapply cdr_done; exact Hv1). cbv beta.
    erewrite bind_done by (eapply car_done; exact Hd1). cbv beta.
    erewrite bind_done by exact Hy. reflexivity.
  - erewrite bind_done by (eapply car_done; exact Hv). cbv beta.
    erewrite bind_done by (eapply cdr_done; exact Hv). cbv beta.
    erewrite bind_done by exact Hx. cbv beta.
    erewrite bind_done by (eapply car_done; exact Hd1). cbv beta.
    erewrite bind_done by exact Hy. reflexivity.
  - erewrite bind_done by (eapply car_done; exact Hv). cbv beta.
    erewrite bind_done by (eapply cdr_done; exact Hv). cbv beta.
    erewrite bind_done by (eapply car_done; exact Hd). cbv beta.
    erewrite bind_done by exact Hx. cbv beta.
    erewrite bind_done by exact Hy. reflexivity.
Qed.

(** [cons] when the second argument is evaluated first: the value of the
    first argument is still the [car] of the new Cell. *)
Lemma builtin_cons_second_first order env v s l qa d l2 qb dd y s1 l1 d1
    x s2 :
  first_argument_first order = false ->
  lookup_ptr (heap s) v = Some (VCell l qa d) ->
  lookup_ptr (heap s) d = Some (VCell l2 qb dd) ->
  eval env qb s = Done y s1 ->
  lookup_ptr (heap s1) v = Some (VCell l1 qa d1) ->
  eval env qa s1 = Done x s2 ->
  builtin_cons eval order env v s =
    Done (S (length (heap s2)))
         (State (heap s2 ++ [VCell no_loc x y]) (output s2)).
Proof.
  intros Ho Hv Hd Hy Hv1 Hx.
  destruct order; try discriminate Ho; unfold builtin_cons.
  - erewrite bind_done by (eapply cdr_done; exact Hv). cbv beta.
    erewrite bind_done by (eapply car_done; exact Hd). cbv beta.
    erewrite bind_done by exact Hy. cbv beta.
    erewrite bind_done by (eapply car_done; exact Hv1). cbv beta.
    erewrite bind_done by exact Hx. reflexivity.
  - erewrite bind_done by (eapply car_done; exact Hv). cbv beta.
    erewrite bind_done by (eapply cdr_done; exact Hv). cbv beta.
    erewrite bind_done by (eapply car_done; exact Hd). cbv beta.
    erewrite bind_done by exact Hy. cbv beta.
    erewrite bind_done by exact Hx. reflexivity.
Qed.

(** [cons] of two forms whose evaluation leaves the state as it is: every
    schedule gives the same Cell. *)
Lemma builtin_cons_pure order env v s l qa d l2 qb dd x y :
  lookup_ptr (heap s) v = Some (VCell l qa d) ->
  lookup_ptr (heap s) d = Some (VCell l2 qb dd) ->
  eval env qa s = Done x s ->
  eval env qb s = Done y s ->
  builtin_cons eval order env v s =
    Done (S (length (heap s)))
         (State (heap s ++ [VCell no_loc x y]) (output s)).
Proof.
  intros Hv Hd Hx Hy. destruct (first_argument_first order) eqn:Ho.
  - eapply builtin_cons_first_first; eauto.
  - eapply builtin_cons_second_first; eauto.
Qed.

Lemma builtin_car_done env v s l x d c s1 lc a b :
  lookup_ptr (heap s) v = Some (VCell l x d) ->
  eval env x s = Done c s1 ->
  lookup_ptr (heap s1) c = Some (VCell lc a b) ->
  builtin_car eval env v s = Done a s1.
Proof.
  intros Hv Hx Hc. unfold builtin_car. mstep. mstep. eauto with prim.
Qed.

End Control.

(** ** [print] and [println] *)

Lemma string_app_nil_r (a : string) : a +:+ "" = a.
Proof.
  induction a as [|c a IH]; [reflexivity|].
  change (String c (a +:+ "") = String c a). congruence.
Qed.

Lemma string_app_assoc (a b c : string) : (a +:+ b) +:+ c = a +:+ b +:+ c.
Proof.
  induction a as [|x a IH]; [reflexivity|].
  change (String x ((a +:+ b) +:+ c) = String x (a +:+ b +:+ c)). congruence.
Qed.

Section Printing.

Variable fuel : nat.
Variable eval_list : ptr -> ptr -> M ptr.
Variable print_value : ptr -> M ptr.

Lemma builtin_println_print env v s :
  builtin_println fuel eval_list print_value env v s =
    match builtin_print fuel eval_list print_value env v s with
    | Done r s' =>
        Done r (State (heap s') (output s' +:+ newline))
    | Undefined => Undefined
    | Aborted => Aborted
    | OutOfFuel => OutOfFuel
    end.
Proof.
  unfold builtin_println, bindM.
  destruct (builtin_print _ _ _ _ _ _); reflexivity.
Qed.

(** An Error from the evaluation of the arguments is the result. *)
Lemma builtin_print_error env list s r s1 vr :
  eval_list env list s = Done r s1 ->
  lookup_ptr (heap s1) r = Some vr ->
  type vr = VAL_ERROR ->
  builtin_print fuel eval_list print_value env list s = Done r s1.
Proof.
  intros He Hr Ht. unfold builtin_print. mstep. mstep. rewrite Ht.
  reflexivity.
Qed.

Lemma builtin_print_loop_ok render ps : forall vs n p h out,
  printer_ok print_value render ->
  is_list h p ps ->
  nodes h ps vs ->
  Forall (fun v => type v <> VAL_ERROR) vs ->
  builtin_print_loop print_value (length ps + S n) p (State h out) =
    Done None (State h (out +:+ foldr String.append "" (map render vs))).
Proof.
  induction ps as [|a ps IH]; intros vs n p h out Hok Hl Hvs Hne.
  - inversion Hvs; subst. destruct Hl as (q & l & Hs & Hq).
    cbn in Hs. subst q. cbn [length Nat.add builtin_print_loop].
    mstep. cbn. rewrite string_app_nil_r. reflexivity.
  - inversion Hvs as [|? v ? vs' Ha Hrest]; subst.
    inversion Hne as [|? ? Hv Hne']; subst.
    destruct Hl as (q & lq & (lc & d & Hc & Hs) & Hq).
    cbn [length Nat.add builtin_print_loop].
    mstep. cbn. mstep.
    destruct (Hok a (State h out) v Ha Hv) as (e & ve & He & Hve & Hte).
    cbn [heap output] in He, Hve.
    mstep. mstep.
    destruct (type ve) eqn:E; try congruence; cbn;
      mstep; (erewrite IH; eauto; [|exists q, lq; auto]);
      rewrite string_app_assoc; reflexivity.
Qed.

(** [print] on success: the renderings in order, and [Nil]. *)
Lemma builtin_print_success render env list s r s1 ps vs lv vr :
  printer_ok print_value render ->
  eval_list env list s = Done r s1 ->
  lookup_ptr (heap s1) r = Some vr ->
  type vr <> VAL_ERROR ->
  is_list (heap s1) r ps ->
  nodes (heap s1) ps vs ->
  Forall (fun v => type v <> VAL_ERROR) vs ->
  lookup_ptr (heap s1) list = Some lv ->
  (length ps < fuel)%nat ->
  builtin_print fuel eval_list print_value env list s =
    Done (S (length (heap s1)))
         (State (heap s1 ++ [VNil (loc lv)])
                (output s1 +:+ foldr String.append "" (map render vs))).
Proof.
  intros Hok He Hr Ht Hl Hvs Hne Hlv Hf. unfold builtin_print. mstep. mstep.
  replace fuel with (length ps + S (fuel - length ps - 1))%nat by lia.
  destruct s1 as [h out]. cbn [heap output] in *.
  destruct (type vr) eqn:E; try congruence; cbn;
    (erewrite bind_done by (eapply builtin_print_loop_ok; eauto));
    cbv beta iota; mstep; reflexivity.
Qed.

End Printing.

(** ** [set] and [setq] *)

Lemma store_done (p : ptr) (v v0 : value) (s : state) :
  lookup_ptr (heap s) p = Some v0 ->
  store p v s = Done tt (State (<[pred p := v]> (heap s)) (output s)).
Proof.
  intros H. destruct p as [|n]; [discriminate|]. cbn in H.
  apply lookup_lt_Some in H. unfold store.
  destruct (decide (n < length (heap s))%nat); [reflexivity|lia].
Qed.

Lemma set_cdr_done (p : ptr) (l : location) (a d d' : ptr) (s : state) :
  lookup_ptr (heap s) p = Some (VCell l a d) ->
  set_cdr p d' s =
    Done tt (State (<[pred p := VCell l a d']> (heap s)) (output s)).
Proof.
  intros H. unfold set_cdr. mstep. eapply store_done; eauto.
Qed.

Lemma set_car_done (p : ptr) (l : location) (a d a' : ptr) (s : state) :
  lookup_ptr (heap s) p = Some (VCell l a d) ->
  set_car p a' s =
    Done tt (State (<[pred p := VCell l a' d]> (heap s)) (output s)).
Proof.
  intros H. unfold set_car. mstep. eapply store_done; eauto.
Qed.

Lemma lookup_ptr_insert_eq (h : list value) (p : ptr) (v v0 : value) :
  lookup_ptr h p = Some v0 ->
  lookup_ptr (<[pred p := v]> h) p = Some v.
Proof.
  destruct p as [|n]; [discriminate|]. cbn. intros H.
  apply list_lookup_insert_eq. apply lookup_lt_Some in H. exact H.
Qed.

Lemma lookup_ptr_insert_ne (h : list value) (p q : ptr) (v : value) :
  p <> NULL -> p <> q ->
  lookup_ptr (<[pred p := v]> h) q = lookup_ptr h q.
Proof.
  intros Hp Hne. destruct q as [|m]; [reflexivity|].
  destruct p as [|n]; [exfalso; apply Hp; reflexivity|]. cbn.
  apply list_lookup_insert_ne. intros ->. apply Hne. reflexivity.
Qed.

Section SetOp.

Variable eval : ptr -> ptr -> M ptr.
Variable find : ptr -> ptr -> M ptr.
Variable add_variable : ptr -> ptr -> ptr -> M ptr.

(** [find] found nothing: the value is bound with [add_variable]. *)
Lemma builtin_set_new env list s l a d sym s1 s2 l1 a1 d1 l2 b dd
    value s3 r s4 :
  lookup_ptr (heap s) list = Some (VCell l a d) ->
  eval env a s = Done sym s1 ->
  find env sym s1 = Done NULL s2 ->
  lookup_ptr (heap s2) list = Some (VCell l1 a1 d1) ->
  lookup_ptr (heap s2) d1 = Some (VCell l2 b dd) ->
  eval env b s2 = Done value s3 ->
  add_variable env sym value s3 = Done r s4 ->
  builtin_set eval find add_variable env list s = Done value s4.
Proof.
  intros Hl Hs Hf Hl1 Hd Hv Ha. unfold builtin_set.
  mstep. mstep. mstep. cbn. mstep. mstep. mstep. mstep. reflexivity.
Qed.

(** [find] found the binding cell [bind]: its [cdr] is overwritten. *)
Lemma builtin_set_existing env list s l a d sym s1 bind s2 l1 a1 d1 l2 b dd
    value s3 lb k old :
  lookup_ptr (heap s) list = Some (VCell l a d) ->
  eval env a s = Done sym s1 ->
  find env sym s1 = Done bind s2 ->
  bind <> NULL ->
  lookup_ptr (heap s2) list = Some (VCell l1 a1 d1) ->
  lookup_ptr (heap s2) d1 = Some (VCell l2 b dd) ->
  eval env b s2 = Done value s3 ->
  lookup_ptr (heap s3) bind = Some (VCell lb k old) ->
  builtin_set eval find add_variable env list s =
    Done value
      (State (<[pred bind := VCell lb k value]> (heap s3)) (output s3)).
Proof.
  intros Hl Hs Hf Hn Hl1 Hd Hv Hb. unfold builtin_set.
  mstep. mstep. mstep.
  destruct (Nat.eqb_spec bind NULL) as [|_]; [congruence|].
  mstep. mstep. mstep.
  erewrite bind_done by (eapply set_cdr_done; eauto).
  reflexivity.
Qed.

Lemma builtin_setq_set env list s l sym rest :
  lookup_ptr (heap s) list = Some (VCell l sym rest) ->
  builtin_setq eval find add_variable env list s =
    builtin_set eval find add_variable env (5 + length (heap s))%nat
      (State (quoted_args (heap s) sym rest) (output s)).
Proof.
  intros Hl. unfold builtin_setq. mstep.
  unfold quote, cons, Nil, bindM at 1 2 3 4, alloc. cbn [heap output].
  erewrite bind_done.
  2:{ eapply cdr_done. cbn [heap]. repeat apply lookup_ptr_app_l. eauto. }
  unfold bindM at 1. cbn [heap output].
  unfold quoted_args. repeat rewrite length_app. cbn [length].
  repeat rewrite <- app_assoc. cbn [app].
  replace (S (length (heap s) + 1 + 1 + 1 + 1)) with (5 + length (heap s))%nat by lia.
  replace (S (length (heap s) + 1 + 1 + 1)) with (4 + length (heap s))%nat by lia.
  replace (S (length (heap s) + 1 + 1)) with (3 + length (heap s))%nat by lia.
  replace (S (length (heap s) + 1)) with (2 + length (heap s))%nat by lia.
  reflexivity.
Qed.

End SetOp.

(** ** [while] *)

Section While.

Variables eval progn : ptr -> ptr -> M ptr.

(** The condition is [True]: the body runs and the loop goes on, whatever
    the body returned. *)
Lemma builtin_while_loop_true n env v acc s l c d r s1 vr l1 c1 d1 x s2 :
  lookup_ptr (heap s) v = Some (VCell l c d) ->
  eval env c s = Done r s1 ->
  lookup_ptr (heap s1) r = Some vr ->
  type vr = VAL_TRUE ->
  lookup_ptr (heap s1) v = Some (VCell l1 c1 d1) ->
  progn env d1 s1 = Done x s2 ->
  builtin_while_loop eval progn (S n) env v acc s =
    builtin_while_loop eval progn n env v (Some x) s2.
Proof.
  intros Hv Hc Hr Ht Hv1 Hp. cbn [builtin_while_loop]. mstep. mstep.
  destruct (Nat.eqb_spec r NULL) as [->|_]; [discriminate|].
  mstep. rewrite Ht. cbn. mstep. mstep. reflexivity.
Qed.

(** The condition is anything else, an Error included: the loop ends with
    the value of the last run of the body. *)
Lemma builtin_while_loop_stop n env v acc s l c d r s1 vr :
  lookup_ptr (heap s) v = Some (VCell l c d) ->
  eval env c s = Done r s1 ->
  lookup_ptr (heap s1) r = Some vr ->
  type vr <> VAL_TRUE ->
  builtin_while_loop eval progn (S n) env v acc s = Done acc s1.
Proof.
  intros Hv Hc Hr Ht. cbn [builtin_while_loop]. mstep. mstep.
  destruct (Nat.eqb_spec r NULL) as [->|_]; [discriminate|].
  mstep. destruct (type vr); try congruence; reflexivity.
Qed.

End While.

(** ** [fn] and [macro] *)

Section MakeFunction.

Variable fuel : nat.
Variable TYPE_NAME : val_type -> string.
Variable IS_VOWEL : ascii -> bool.

Lemma make_function_params_end n p v s :
  lookup_ptr (heap s) p = Some v ->
  type v <> VAL_CELL ->
  make_function_params TYPE_NAME IS_VOWEL (S n) p s = Done None s.
Proof.
  intros Hp Ht. cbn [make_function_params]. mstep.
  destruct (type v); try congruence; reflexivity.
Qed.

Lemma make_function_params_symbols ps : forall n p q s,
  lseg (heap s) p ps q ->
  symbols (heap s) ps ->
  make_function_params TYPE_NAME IS_VOWEL (length ps + n) p s =
    make_function_params TYPE_NAME IS_VOWEL n q s.
Proof.
  induction ps as [|a ps IH]; intros n p q s Hs Hsym.
  - cbn in Hs. subst. reflexivity.
  - destruct Hs as (l & d & Hc & Hs).
    inversion Hsym as [|? ? (la & name & Ha) Hrest]; subst.
    cbn [length Nat.add make_function_params].
    mstep. cbn. mstep. mstep. cbn. mstep. eapply IH; eauto.
Qed.

Lemma make_function_params_bad n p l a d va s :
  lookup_ptr (heap s) p = Some (VCell l a d) ->
  lookup_ptr (heap s) a = Some va ->
  type va <> VAL_SYMBOL ->
  make_function_params TYPE_NAME IS_VOWEL (S n) p s =
    Done (Some (S (length (heap s))))
         (State (heap s ++ [VError (loc va) (parameter_message TYPE_NAME IS_VOWEL (type va))])
                (output s)).
Proof.
  intros Hp Ha Ht. cbn [make_function_params]. mstep. cbn. mstep. mstep.
  destruct (type va) eqn:E; try congruence; cbn; mstep; reflexivity.
Qed.

(** A parameter that is no Symbol: the Error naming its type. *)
Lemma make_function_non_symbol env v ty s lv a d vd ps bad q vb :
  ty = VAL_FUNCTION \/ ty = VAL_MACRO ->
  lookup_ptr (heap s) v = Some (VCell lv a d) ->
  lookup_ptr (heap s) d = Some vd ->
  type vd = VAL_NIL \/ type vd = VAL_CELL ->
  lseg (heap s) a (ps ++ [bad]) q ->
  symbols (heap s) ps ->
  lookup_ptr (heap s) bad = Some vb ->
  type vb <> VAL_SYMBOL ->
  (length ps < fuel)%nat ->
  make_function fuel TYPE_NAME IS_VOWEL env v ty s =
    Done (S (length (heap s)))
         (State (heap s ++ [VError (loc vb) (parameter_message TYPE_NAME IS_VOWEL (type vb))])
                (output s)).
Proof.
  intros Hty Hv Hd Hvd Hs Hsym Hb Hbt Hf.
  apply lseg_snoc in Hs as (m & lm & Hm & Hc).
  unfold make_function.
  erewrite bind_done by (destruct Hty as [-> | ->]; reflexivity).
  mstep.
  assert (Ha : exists la x y, lookup_ptr (heap s) a = Some (VCell la x y)).
  { destruct ps as [|p ps]; cbn in Hm.
    - subst m. eauto.
    - destruct Hm as (l & d' & Hc' & _). eauto. }
  destruct Ha as (la & x & y & Ha).
  mstep. cbn [type negb]. unfold bindM at 1. mstep. mstep.
  replace (match type vd with VAL_NIL | VAL_CELL => true | _ => false end)
    with true by (destruct Hvd as [-> | ->]; reflexivity).
  cbn [negb]. unfold ret at 1. unfold bindM at 1, ret at 1.
  replace fuel with (length ps + S (fuel - length ps - 1))%nat by lia.
  unfold bindM at 1.
  rewrite (make_function_params_symbols _ _ _ _ _ Hm Hsym).
  rewrite (make_function_params_bad _ _ _ _ _ _ _ Hc Hb Hbt).
  reflexivity.
Qed.

(** A parameter list that is not list-shaped: the Error is built and
    dropped, and a function value is the result. *)
Lemma make_function_malformed env v ty s lv a d va vd :
  ty = VAL_FUNCTION \/ ty = VAL_MACRO ->
  lookup_ptr (heap s) v = Some (VCell lv a d) ->
  lookup_ptr (heap s) a = Some va ->
  type va <> VAL_NIL -> type va <> VAL_CELL ->
  lookup_ptr (heap s) d = Some vd ->
  (0 < fuel)%nat ->
  make_function fuel TYPE_NAME IS_VOWEL env v ty s =
    Done (2 + length (heap s))%nat
         (State (heap s ++ [VError lv "malformed function definition";
                            match ty with
                            | VAL_MACRO => VMacro (loc vd) a d env
                            | _ => VFunction (loc vd) a d env
                            end])
                (output s)).
Proof.
  intros Hty Hv Ha Hn Hc Hd Hf. unfold make_function.
  erewrite bind_done by (destruct Hty as [-> | ->]; reflexivity).
  mstep. mstep.
  replace (match type va with VAL_NIL | VAL_CELL => true | _ => false end)
    with false by (destruct (type va); congruence).
  cbn [negb]. unfold bindM at 1, ret at 1.
  unfold bindM at 1. erewrite bind_done by eauto with prim.
  unfold bindM at 1, error, alloc. cbn [loc ret].
  destruct fuel as [|n]; [lia|].
  erewrite bind_done.
  2:{ eapply make_function_params_end with (v := va).
      - cbn [heap]. apply lookup_ptr_app_l. exact Ha.
      - exact Hc. }
  cbv beta iota.
  erewrite bind_done
    by (eapply cdr_done; cbn [heap]; apply lookup_ptr_app_l; exact Hv).
  erewrite bind_done
    by (eapply loc_of_done; cbn [heap]; apply lookup_ptr_app_l; exact Hd).
  unfold alloc.
  destruct Hty as [-> | ->]; cbn [heap output];
    rewrite length_app; cbn [length]; rewrite <- app_assoc; cbn [app];
    replace (S (length (heap s) + 1)) with (2 + length (heap s))%nat by lia;
    reflexivity.
Qed.

End MakeFunction.

(** ** The environment *)

Lemma bind_inv {A B} (m : M A) (k : A -> M B) (s s' : state) (b : B) :
  bindM m k s = Done b s' -> exists a s1, m s = Done a s1 /\ k a s1 = Done b s'.
Proof.
  unfold bindM. destruct (m s) as [a s1| | |]; try discriminate. eauto.
Qed.

Lemma deref_inv (p : ptr) (s s' : state) (v : value) :
  deref p s = Done v s' -> lookup_ptr (heap s) p = Some v /\ s' = s.
Proof.
  unfold deref. destruct (lookup_ptr (heap s) p); [|discriminate].
  intros [= -> ->]. auto.
Qed.

Lemma type_of_inv (p : ptr) (s s' : state) (t : val_type) :
  type_of p s = Done t s' ->
  exists v, lookup_ptr (heap s) p = Some v /\ t = type v /\ s' = s.
Proof.
  intros H. apply bind_inv in H as (v & s1 & Hd & Hr).
  apply deref_inv in Hd as [Hv ->]. injection Hr as <- <-. eauto.
Qed.

Lemma car_inv (p : ptr) (s s' : state) (a : ptr) :
  car p s = Done a s' ->
  exists l d, lookup_ptr (heap s) p = Some (VCell l a d) /\ s' = s.
Proof.
  intros H. apply bind_inv in H as (v & s1 & Hd & Hr).
  apply deref_inv in Hd as [Hv ->].
  destruct v; try discriminate. injection Hr as <- <-. eauto.
Qed.

Lemma cdr_inv (p : ptr) (s s' : state) (d : ptr) :
  cdr p s = Done d s' ->
  exists l a, lookup_ptr (heap s) p = Some (VCell l a d) /\ s' = s.
Proof.
  intros H. apply bind_inv in H as (v & s1 & Hd & Hr).
  apply deref_inv in Hd as [Hv ->].
  destruct v; try discriminate. injection Hr as <- <-. eauto.
Qed.

(** [find] only reads. *)
Lemma find_in_frame_reads n : forall sym cell s r s',
  find_in_frame n sym cell s = Done r s' -> s' = s.
Proof.
  induction n as [|n IH]; intros sym cell s r s' H; [discriminate|].
  cbn [find_in_frame] in H.
  apply bind_inv in H as (t & s1 & Ht & H).
  apply type_of_inv in Ht as (v & Hv & -> & ->).
  destruct (val_type_eqb (type v) VAL_CELL); [|injection H as _ <-; reflexivity].
  apply bind_inv in H as (b & s1 & Hb & H). apply car_inv in Hb as (? & ? & _ & ->).
  apply bind_inv in H as (k & s1 & Hk & H). apply car_inv in Hk as (? & ? & _ & ->).
  apply bind_inv in H as (same & s1 & Hsame & H).
  unfold same_symbol in Hsame. injection Hsame as <- <-.
  match type of H with (if ?c then _ else _) _ = _ => destruct c end.
  - injection H as _ <-. reflexivity.
  - apply bind_inv in H as (d & s1 & Hd & H). apply cdr_inv in Hd as (? & ? & _ & ->).
    eapply IH; eauto.
Qed.

Lemma find_in_chain_reads fuel n : forall env sym s r s',
  find_in_chain fuel n env sym s = Done r s' -> s' = s.
Proof.
  induction n as [|n IH]; intros env sym s r s' H; [discriminate|].
  cbn [find_in_chain] in H.
  apply bind_inv in H as (t & s1 & Ht & H).
  apply type_of_inv in Ht as (v & Hv & -> & ->).
  destruct (val_type_eqb (type v) VAL_CELL); [|injection H as _ <-; reflexivity].
  apply bind_inv in H as (vars & s1 & Hb & H). apply car_inv in Hb as (? & ? & _ & ->).
  apply bind_inv in H as (b & s1 & Hb & H). apply find_in_frame_reads in Hb as ->.
  destruct (negb (Nat.eqb b NULL)).
  - injection H as _ <-. reflexivity.
  - apply bind_inv in H as (d & s1 & Hd & H). apply cdr_inv in Hd as (? & ? & _ & ->).
    eapply IH; eauto.
Qed.

Lemma find_reads fuel env sym s r s' :
  find fuel env sym s = Done r s' -> s' = s.
Proof. apply find_in_chain_reads. Qed.

(** *** Overwriting the value slot of a binding cell *)

Section PutCdr.

Variables (h : list value) (bind : ptr) (lb : location) (k old value : ptr).
Hypothesis Hbind : lookup_ptr h bind = Some (VCell lb k old).

Let h' := <[pred bind := VCell lb k value]> h.

Lemma put_cdr_lookup p :
  (p = bind /\ lookup_ptr h' p = Some (VCell lb k value))
  \/ (p <> bind /\ lookup_ptr h' p = lookup_ptr h p).
Proof using Hbind.
  destruct (decide (p = bind)) as [->|Hne].
  - left. split; [reflexivity|]. eapply lookup_ptr_insert_eq; eauto.
  - right. split; [assumption|]. apply lookup_ptr_insert_ne; [|congruence].
    intros ->. discriminate.
Qed.

Lemma put_cdr_type p v :
  lookup_ptr h p = Some v ->
  exists v', lookup_ptr h' p = Some v' /\ type v' = type v.
Proof using Hbind.
  intros Hp. destruct (put_cdr_lookup p) as [[-> Hl]|[Hne Hl]].
  - rewrite Hbind in Hp. injection Hp as <-. eauto.
  - rewrite Hl. eauto.
Qed.

Lemma put_cdr_car p l a d :
  lookup_ptr h p = Some (VCell l a d) ->
  exists d', lookup_ptr h' p = Some (VCell l a d').
Proof using Hbind.
  intros Hp. destruct (put_cdr_lookup p) as [[-> Hl]|[Hne Hl]].
  - rewrite Hbind in Hp. injection Hp as <- <- <-. eauto.
  - rewrite Hl. eauto.
Qed.

Lemma put_cdr_same_symbol a b o :
  same_symbol a b (State h' o) =
    match same_symbol a b (State h o) with
    | Done x _ => Done x (State h' o)
    | other => other
    end.
Proof using Hbind.
  unfold same_symbol. cbn [heap]. f_equal.
  destruct (put_cdr_lookup a) as [[-> Ha]|[Hna Ha]];
    destruct (put_cdr_lookup b) as [[-> Hb]|[Hnb Hb]];
    rewrite ?Ha, ?Hb, ?Hbind; reflexivity.
Qed.

Lemma put_cdr_find_in_frame o n : forall m sym cell cells r,
  frame_cells m h cell = Some cells ->
  ~ In bind cells ->
  find_in_frame n sym cell (State h o) = Done r (State h o) ->
  find_in_frame n sym cell (State h' o) = Done r (State h' o).
Proof using Hbind.
  induction n as [|n IH]; intros m sym cell cells r Hc Hni H; [discriminate|].
  destruct m as [|m]; [discriminate|].
  cbn [find_in_frame] in H |- *. cbn [frame_cells] in Hc.
  apply bind_inv in H as (t & s1 & Ht & H).
  apply type_of_inv in Ht as (v & Hv & -> & ->). cbn [heap] in Hv.
  rewrite Hv in Hc.
  destruct (put_cdr_type _ _ Hv) as (v' & Hv' & Hty).
  erewrite bind_done by (eapply type_of_done; cbn [heap]; eauto).
  rewrite Hty.
  destruct v; cbn [type val_type_eqb] in H |- *;
    try (injection H as <-; reflexivity).
  destruct (frame_cells m h cdr0) as [cs|] eqn:Hcs; [|discriminate].
  injection Hc as <-.
  apply bind_inv in H as (b & s1 & Hb & H).
  apply car_inv in Hb as (? & ? & Hb & ->). cbn [heap] in Hb.
  rewrite Hv in Hb. injection Hb as <- <- <-.
  assert (Hcell : cell <> bind) by (intros ->; apply Hni; left; reflexivity).
  destruct (put_cdr_lookup cell) as [[? _]|[_ Hl]]; [congruence|].
  rewrite Hv in Hl.
  erewrite bind_done by (eapply car_done; cbn [heap]; eauto).
  apply bind_inv in H as (kk & s1 & Hk & H).
  apply car_inv in Hk as (lk & dk & Hk & ->). cbn [heap] in Hk.
  destruct (put_cdr_car _ _ _ _ Hk) as (dk' & Hk').
  erewrite bind_done by (eapply car_done; cbn [heap]; eauto).
  unfold bindM at 1. rewrite put_cdr_same_symbol.
  unfold bindM at 1 in H.
  destruct (same_symbol kk sym (State h o)) as [same s1| | |] eqn:Hs;
    try discriminate.
  unfold same_symbol in Hs. injection Hs as Hs <-.
  destruct same.
  + injection H as <-. reflexivity.
  + apply bind_inv in H as (d & s1 & Hd & H).
    apply cdr_inv in Hd as (? & ? & Hd & ->). cbn [heap] in Hd.
    rewrite Hv in Hd. injection Hd as <- <- <-.
    erewrite bind_done by (eapply cdr_done; cbn [heap]; eauto).
    eapply IH; eauto. intros Hin. apply Hni. right. exact Hin.
Qed.

Lemma put_cdr_find_in_chain o fuel n : forall m env sym cells r,
  chain_cells m h env = Some cells ->
  ~ In bind cells ->
  find_in_chain fuel n env sym (State h o) = Done r (State h o) ->
  find_in_chain fuel n env sym (State h' o) = Done r (State h' o).
Proof using Hbind.
  induction n as [|n IH]; intros m env sym cells r Hc Hni H; [discriminate|].
  destruct m as [|m]; [discriminate|].
  cbn [find_in_chain] in H |- *. cbn [chain_cells] in Hc.
  apply bind_inv in H as (t & s1 & Ht & H).
  apply type_of_inv in Ht as (v & Hv & -> & ->). cbn [heap] in Hv.
  rewrite Hv in Hc.
  destruct (put_cdr_type _ _ Hv) as (v' & Hv' & Hty).
  erewrite bind_done by (eapply type_of_done; cbn [heap]; eauto).
  rewrite Hty.
  destruct v; cbn [type val_type_eqb] in H |- *;
    try (injection H as <-; reflexivity).
  destruct (frame_cells (S m) h car0) as [fc|] eqn:Hfc; [|discriminate].
  destruct (chain_cells m h cdr0) as [cc|] eqn:Hcc; [|discriminate].
  injection Hc as <-.
  apply bind_inv in H as (vars & s1 & Hb & H).
  apply car_inv in Hb as (? & ? & Hb & ->). cbn [heap] in Hb.
  rewrite Hv in Hb. injection Hb as <- <- <-.
  assert (Henv : env <> bind) by (intros ->; apply Hni; left; reflexivity).
  destruct (put_cdr_lookup env) as [[? _]|[_ Hl]]; [congruence|].
  rewrite Hv in Hl.
  erewrite bind_done by (eapply car_done; cbn [heap]; eauto).
  apply bind_inv in H as (b & s1 & Hb & H).
  pose proof (find_in_frame_reads _ _ _ _ _ _ Hb) as ->.
  erewrite bind_done.
  2:{ eapply put_cdr_find_in_frame; eauto.
      intros Hin. apply Hni. right. apply in_or_app. left. exact Hin. }
  destruct (negb (Nat.eqb b NULL)).
  + injection H as <-. reflexivity.
  + apply bind_inv in H as (d & s1 & Hd & H).
    apply cdr_inv in Hd as (? & ? & Hd & ->). cbn [heap] in Hd.
    rewrite Hv in Hd. injection Hd as <- <- <-.
    erewrite bind_done by (eapply cdr_done; cbn [heap]; eauto).
    eapply IH; eauto.
    intros Hin. apply Hni. right. apply in_or_app. right. exact Hin.
Qed.

(** Whoever reached the binding cell through [find] before the write
    reads the new value through [find] after it. *)
Lemma put_cdr_visible o fuel m env sym cells :
  chain_cells m h env = Some cells ->
  ~ In bind cells ->
  find fuel env sym (State h o) = Done bind (State h o) ->
  (b <- find fuel env sym ;; cdr b) (State h' o) = Done value (State h' o).
Proof using Hbind.
  intros Hc Hni Hf.
  erewrite bind_done by (eapply put_cdr_find_in_chain; eauto).
  eapply cdr_done. cbn [heap]. eapply lookup_ptr_insert_eq; eauto.
Qed.

End PutCdr.

(** *** A new binding *)

Lemma add_variable_done env sym value s le vars up :
  lookup_ptr (heap s) env = Some (VCell le vars up) ->
  add_variable env sym value s =
    Done value
      (State (<[pred env := VCell le (2 + length (heap s))%nat up]>
                (heap s ++ [VCell no_loc sym value;
                            VCell no_loc (1 + length (heap s))%nat vars])%list)
             (output s)).
Proof.
  intros He. unfold add_variable, cons.
  unfold bindM at 1, alloc at 1. cbn [heap output].
  erewrite bind_done
    by (eapply car_done; cbn [heap]; apply lookup_ptr_app_l; exact He).
  unfold bindM at 1, alloc at 1. cbn [heap output].
  erewrite bind_done.
  2:{ eapply set_car_done. cbn [heap]. do 2 apply lookup_ptr_app_l. exact He. }
  cbn [heap output]. rewrite length_app. cbn [length].
  rewrite <- app_assoc. cbn [app].
  replace (S (length (heap s) + 1)) with (2 + length (heap s))%nat by lia.
  reflexivity.
Qed.

(** After [add_variable], [find] from the same frame returns the new
    binding cell, which holds the symbol and the value. *)
Lemma add_variable_found fuel env sym value s le vars up ls name r s' :
  lookup_ptr (heap s) env = Some (VCell le vars up) ->
  lookup_ptr (heap s) sym = Some (VSymbol ls name) ->
  (0 < fuel)%nat ->
  add_variable env sym value s = Done r s' ->
  find fuel env sym s' = Done (1 + length (heap s))%nat s'
  /\ lookup_ptr (heap s') (1 + length (heap s))%nat
      = Some (VCell no_loc sym value).
Proof.
  intros He Hs Hf Ha. rewrite (add_variable_done _ _ _ _ _ _ _ He) in Ha.
  injection Ha as <- <-. cbn [heap].
  pose proof (lookup_ptr_bound _ _ _ He) as Hb.
  assert (Hne : env <> NULL) by (unfold NULL; lia).
  set (h1 := (heap s ++ _)%list).
  set (h2 := <[pred env := _]> h1).
  assert (Hnew : lookup_ptr h2
                   (1 + length (heap s))%nat = Some (VCell no_loc sym value)).
  { subst h2. rewrite lookup_ptr_insert_ne by (auto; lia). subst h1. cbn.
    rewrite lookup_app_r by lia.
    replace (length (heap s) - length (heap s))%nat with 0%nat by lia.
    reflexivity. }
  assert (Hsp : lookup_ptr h2
                   (2 + length (heap s))%nat
                 = Some (VCell no_loc (1 + length (heap s))%nat vars)).
  { subst h2. rewrite lookup_ptr_insert_ne by (auto; lia). subst h1. cbn.
    rewrite lookup_app_r by lia.
    replace (S (length (heap s)) - length (heap s))%nat with 1%nat by lia.
    reflexivity. }
  assert (Henv : lookup_ptr h2
                   env = Some (VCell le (2 + length (heap s))%nat up)).
  { subst h2. eapply lookup_ptr_insert_eq. subst h1.
    apply lookup_ptr_app_l. exact He. }
  assert (Hsym : lookup_ptr h2
                   sym = Some (VSymbol ls name)).
  { subst h2. rewrite lookup_ptr_insert_ne; auto.
    - subst h1. apply lookup_ptr_app_l. exact Hs.
    - intros ->. rewrite He in Hs. discriminate. }
  split; [|exact Hnew].
  destruct fuel as [|n]; [lia|]. unfold find. cbn [find_in_chain].
  erewrite bind_done by (eapply type_of_done; cbn [heap]; eauto).
  cbn [type val_type_eqb].
  erewrite bind_done by (eapply car_done; cbn [heap]; eauto).
  erewrite bind_done.
  2:{ cbn [find_in_frame].
      erewrite bind_done by (eapply type_of_done; cbn [heap]; eauto).
      cbn [type val_type_eqb].
      erewrite bind_done by (eapply car_done; cbn [heap]; eauto).
      erewrite bind_done by (eapply car_done; cbn [heap]; eauto).
      unfold bindM at 1, same_symbol. cbn [heap]. rewrite Hsym.
      rewrite String.eqb_refl. reflexivity. }
  reflexivity.
Qed.


(** * The claims of the specification *)

(** Running a known prefix of a computation on a known state. *)
Ltac mcompute := erewrite bind_done by (vm_compute; reflexivity); cbv beta.

(** A list at known addresses of a known heap. *)
Ltac known_lseg :=
  repeat (eexists; eexists; split; [vm_compute; reflexivity|]); reflexivity.
Ltac known_list :=
  eexists; eexists; split; [known_lseg|vm_compute; reflexivity].
Ltac known_nodes :=
  repeat constructor; try eexists; vm_compute; reflexivity.

Lemma wrap_in_range (z : Z) : INT_MIN <= z <= INT_MAX -> wrap z = z.
Proof.
  unfold wrap, INT_MIN, INT_MAX. intros H.
  rewrite Z.mod_small by lia. lia.
Qed.

Lemma arith_spec_total (X : arith_op) (zs : list Z) :
  X <> OpDiv -> exists r, arith_spec X zs = Some r.
Proof.
  intros HX. destruct zs as [|z zs]; [exists 0; reflexivity|].
  cbn [arith_spec]. revert z.
  induction zs as [|i zs IH]; intros z; [exists z; reflexivity|].
  cbn [fold_from]. destruct X; try congruence; cbn [arith]; apply IH.
Qed.

Lemma wrap_range (z : Z) : in_range (wrap z).
Proof.
  unfold in_range, wrap, INT_MIN, INT_MAX.
  pose proof (Z.mod_pos_bound (z + 2 ^ 31) (2 ^ 32) ltac:(lia)). lia.
Qed.

Lemma quot_range (a b : Z) :
  in_range a -> b <> 0 -> ~ (a = INT_MIN /\ b = -1) -> in_range (Z.quot a b).
Proof.
  unfold in_range, INT_MIN, INT_MAX. intros Ha Hb Hne.
  destruct (Z.eq_dec b (-1)) as [->|Hb1].
  - change (-1) with (- (1)). rewrite Z.quot_opp_r, Z.quot_1_r by lia. lia.
  - destruct (Z.eq_dec b 1) as [->|Hb2]; [rewrite Z.quot_1_r; lia|].
    assert (Habs : Z.abs (Z.quot a b) <= 2 ^ 30).
    { rewrite <- Z.quot_abs by assumption.
      rewrite Z.quot_div_nonneg by lia.
      apply Z.div_le_upper_bound; [lia|]. nia. }
    lia.
Qed.

Lemma arith_range X a b r :
  in_range a -> arith X a b = Some r -> in_range r.
Proof.
  intros Ha H. destruct X; cbn [arith] in H;
    try (injection H as <-; apply wrap_range).
  destruct (b =? 0) eqn:Eb; [discriminate|]. cbn [orb] in H.
  destruct ((a =? INT_MIN) && (b =? -1)) eqn:E; [discriminate|].
  injection H as <-. apply quot_range; [assumption|lia|].
  intros [-> ->]. discriminate.
Qed.

Lemma wrap_to_int (z : Z) : wrap z = to_int z.
Proof.
  unfold wrap, to_int. cbv zeta.
  pose proof (Z.mod_pos_bound z (2 ^ 32) ltac:(lia)) as Hr.
  pose proof (Z.div_mod z (2 ^ 32) ltac:(lia)) as Hz.
  destruct (Z.ltb_spec (z mod 2 ^ 32) (2 ^ 31)) as [Hlt|Hge].
  - rewrite <- (Z.mod_unique (z + 2 ^ 31) (2 ^ 32) (z / 2 ^ 32)
                  (z mod 2 ^ 32 + 2 ^ 31)); lia.
  - rewrite <- (Z.mod_unique (z + 2 ^ 31) (2 ^ 32) (z / 2 ^ 32 + 1)
                  (z mod 2 ^ 32 - 2 ^ 31)); lia.
Qed.

Lemma arith_int_operator X a b :
  (X = OpDiv -> in_range a) -> arith X a b = int_operator X a b.
Proof.
  intros Ha. destruct X; cbn [arith int_operator];
    try (rewrite wrap_to_int; reflexivity).
  specialize (Ha eq_refl).
  destruct (Z.eqb_spec b 0) as [->|Hb]; [reflexivity|]. cbn [orb].
  destruct (Z.eqb_spec a INT_MIN) as [->|Hmin];
    [destruct (Z.eqb_spec b (-1)) as [->|Hb1]|]; cbn [andb].
  - reflexivity.
  - assert (Hq : in_range (Z.quot INT_MIN b))
      by (apply quot_range; [assumption|assumption|intros [_ E]; auto]).
    destruct Hq as [Hlo Hhi].
    apply Z.leb_le in Hlo, Hhi. rewrite Hlo, Hhi. reflexivity.
  - assert (Hq : in_range (Z.quot a b))
      by (apply quot_range; [assumption|assumption|intros [E _]; auto]).
    destruct Hq as [Hlo Hhi].
    apply Z.leb_le in Hlo, Hhi. rewrite Hlo, Hhi. reflexivity.
Qed.

Lemma fold_from_left_fold X zs : forall acc,
  (X = OpDiv -> in_range acc) ->
  fold_from X acc zs =
    fold_left (fun acc i => match acc with
                            | Some a => int_operator X a i
                            | None => None
                            end) zs (Some acc).
Proof.
  induction zs as [|i zs IH]; intros acc Hacc; [reflexivity|].
  cbn [fold_from fold_left]. rewrite <- (arith_int_operator X acc i Hacc).
  destruct (arith X acc i) as [acc'|] eqn:E.
  - apply IH. intros HX. eapply arith_range; eauto.
  - clear. induction zs as [|j zs IH]; [reflexivity|exact IH].
Qed.

Lemma arith_spec_left_fold X zs :
  (X = OpDiv -> Forall in_range zs) -> arith_spec X zs = left_fold X zs.
Proof.
  intros H. destruct zs as [|z0 rest]; [reflexivity|].
  cbn [arith_spec left_fold]. apply fold_from_left_fold.
  intros HX. specialize (H HX). inversion H; assumption.
Qed.

(** C2. On a list of Integers, [<] compares every later argument with the
    first one only: the result is [Nil] when some later argument is at
    least the first, [True] otherwise; [(< 5 3 4)] is [True]. *)
Theorem builtin_less_first_anchored :
  (forall fuel eval_list TYPE_NAME env v s args s1 ps zs lv,
     eval_list env v s = Done args s1 ->
     is_list (heap s1) args ps ->
     ints (heap s1) ps zs ->
     lookup_ptr (heap s1) v = Some lv ->
     (length zs < fuel)%nat ->
     builtin_less fuel eval_list TYPE_NAME env v s =
       Done (S (length (heap s1)))
            (State (heap s1 ++ [if less_spec zs then VTrue (loc lv)
                                else VNil (loc lv)]) (output s1)))
  /\ (forall z0 rest,
        less_spec (z0 :: rest) = false <-> exists z, In z rest /\ z0 <= z)
  /\ (forall o, result_of (run o 60 [call "<" [SInt 5; SInt 3; SInt 4]])
                 = Some (VTrue 87%nat)).
Proof.
  split; [|split].
  - intros. eapply builtin_less_ints; eauto.
  - intros z0 rest. cbn [less_spec]. split.
    + intros H. induction rest as [|z rest IH]; [discriminate|].
      cbn [forallb] in H. apply andb_false_iff in H as [H|H].
      * exists z. split; [left; reflexivity|]. apply Z.ltb_ge. exact H.
      * destruct (IH H) as (z' & Hin & Hle). exists z'. split; [right|]; auto.
    + intros (z & Hin & Hle). induction rest as [|z' rest IH]; [destruct Hin|].
      cbn [forallb]. apply andb_false_iff. destruct Hin as [->|Hin].
      * left. apply Z.ltb_ge. exact Hle.
      * right. auto.
  - intros o; destruct o; vm_compute; reflexivity.
Qed.

Lemma builtin_less_first_anchored_witness :
  result_of (apply_builtin car_first 60 [] Bless [SInt 5; SInt 3; SInt 4])
  = Some (VTrue 86%nat).
Proof.
  unfold apply_builtin. mcompute. mcompute. mcompute. cbn [call_builtin].
  erewrite (proj1 builtin_less_first_anchored)
    with (ps := [80; 81; 82]%nat) (zs := [5; 3; 4]).
  2: vm_compute; reflexivity.
  2: known_list.
  2: known_nodes.
  2: vm_compute; reflexivity.
  2: vm_compute; lia.
  vm_compute. reflexivity.
Defined.

(** C3. On a list of Integers, [+], [-], [*] and [/] seed the accumulator
    with the first argument and fold the later ones in from the left with
    the arithmetic operator of their name on [int]: the sum, the difference
    and the product modulo 2^32, and the quotient rounded towards zero,
    which has no result on a zero divisor or when it is no [int]. One
    argument is returned unchanged, no argument gives 0; [(+ 1 2 3)] is 6,
    [(- 10 1 2)] is 7, the product of 2, 3 and 4 is 24 and the quotient of
    20 by 2 and then by 5 is 2. *)
Theorem ARITHMETIC_folds :
  (forall X fuel eval_list TYPE_NAME env list s args s1 ps zs lv,
     eval_list env list s = Done args s1 ->
     is_list (heap s1) args ps ->
     ints (heap s1) ps zs ->
     lookup_ptr (heap s1) list = Some lv ->
     (length zs < fuel)%nat ->
     (X = OpDiv -> Forall in_range zs) ->
     ARITHMETIC fuel eval_list TYPE_NAME X env list s =
       match left_fold X zs with
       | Some r => Done (S (length (heap s1)))
                        (State (heap s1 ++ [VInt (loc lv) r]) (output s1))
       | None => Undefined
       end)
  /\ (forall X zs, X <> OpDiv -> exists r, left_fold X zs = Some r)
  /\ (forall X z, left_fold X [z] = Some z)
  /\ (forall X, left_fold X [] = Some 0)
  /\ (forall o,
        result_of (run o 60 [call "+" [SInt 1; SInt 2; SInt 3]])
        = Some (VInt 87%nat 6)
        /\ result_of (run o 60 [call "-" [SInt 10; SInt 1; SInt 2]])
           = Some (VInt 87%nat 7)
        /\ result_of (run o 60 [call "*" [SInt 2; SInt 3; SInt 4]])
           = Some (VInt 87%nat 24)
        /\ result_of (run o 60 [call "/" [SInt 20; SInt 2; SInt 5]])
           = Some (VInt 87%nat 2)).
Proof.
  split; [|split; [|split; [|split]]].
  - intros X fuel eval_list TYPE_NAME env list s args s1 ps zs lv
      He Hl Hi Hlv Hf Hr.
    rewrite <- (arith_spec_left_fold X zs Hr).
    eapply ARITHMETIC_ints; eauto.
  - intros X zs HX. rewrite <- arith_spec_left_fold by (intros; contradiction).
    apply arith_spec_total. exact HX.
  - reflexivity.
  - reflexivity.
  - intros o; destruct o; repeat split; vm_compute; reflexivity.
Qed.

Lemma ARITHMETIC_folds_witness :
  result_of (apply_builtin car_first 60 [] Bsub [SInt 10; SInt 1; SInt 2])
  = Some (VInt 86%nat 7)
  /\ result_of (apply_builtin car_first 60 [] Bmul [SInt 65536; SInt 65537])
     = Some (VInt 84%nat 65536)
  /\ result_of (apply_builtin car_first 60 [] Bdiv [SInt (-7); SInt 2])
     = Some (VInt 84%nat (-3)).
Proof.
  split; [|split].
  - unfold apply_builtin. mcompute. mcompute. mcompute.
    cbn [call_builtin]. unfold builtin_sub.
    erewrite (proj1 ARITHMETIC_folds)
      with (ps := [80; 81; 82]%nat) (zs := [10; 1; 2]).
    2: vm_compute; reflexivity.
    2: known_list.
    2: known_nodes.
    2: vm_compute; reflexivity.
    2: vm_compute; lia.
    2: discriminate.
    vm_compute. reflexivity.
  - unfold apply_builtin. mcompute. mcompute. mcompute.
    cbn [call_builtin]. unfold builtin_mul.
    erewrite (proj1 ARITHMETIC_folds)
      with (ps := [80; 81]%nat) (zs := [65536; 65537]).
    2: vm_compute; reflexivity.
    2: known_list.
    2: known_nodes.
    2: vm_compute; reflexivity.
    2: vm_compute; lia.
    2: discriminate.
    vm_compute. reflexivity.
  - unfold apply_builtin. mcompute. mcompute. mcompute.
    cbn [call_builtin]. unfold builtin_div.
    erewrite (proj1 ARITHMETIC_folds)
      with (ps := [80; 81]%nat) (zs := [-7; 2]).
    2: vm_compute; reflexivity.
    2: known_list.
    2: known_nodes.
    2: vm_compute; reflexivity.
    2: vm_compute; lia.
    2: intros _; repeat constructor; unfold INT_MIN, INT_MAX; lia.
    vm_compute. reflexivity.
Defined.

(** C8, as stated, fails: the third argument of [(= 1 2 (quote x))] is a
    Symbol, yet [=] stops at the second argument, which differs from the
    first, and returns [Nil], not an Error. *)
Lemma numeric_type_error_counterexample :
  result_of (run car_first 60 [quoted (SSym "x")]) = Some (VSymbol 81%nat "x")
  /\ result_of (run car_first 60 [call "=" [SInt 1; SInt 2; quoted (SSym "x")]])
     = Some (VNil 91%nat)
  /\ ~ (exists l msg,
          result_of (run car_first 60 [call "=" [SInt 1; SInt 2; quoted (SSym "x")]])
          = Some (VError l msg)).
Proof.
  assert (H : result_of (run car_first 60 [call "=" [SInt 1; SInt 2; quoted (SSym "x")]])
              = Some (VNil 91%nat)) by (vm_compute; reflexivity).
  split; [vm_compute; reflexivity|]. split; [exact H|].
  intros (l & msg & He). rewrite H in He. discriminate He.
Qed.

(** C8, amended. When the evaluated arguments are Integers [zs] followed by
    a value that is no Integer, each of [+], [-], [*], [/], [=] and [<]
    whose loop gets past [zs] returns the Error naming the type of that
    value; [(+ 1 (quote x))] is the Error naming the Symbol type. *)
Theorem numeric_type_error :
  (forall b name fuel eval eval_list progn find add_variable print_value
          TYPE_NAME IS_VOWEL order env v s args s1 ps zs bad q vb,
     numeric_name b = Some name ->
     eval_list env v s = Done args s1 ->
     lseg (heap s1) args (ps ++ [bad]) q ->
     ints (heap s1) ps zs ->
     lookup_ptr (heap s1) bad = Some vb ->
     type vb <> VAL_INT ->
     gets_past b zs = true ->
     (length zs < fuel)%nat ->
     call_builtin fuel eval eval_list progn find add_variable print_value
       TYPE_NAME IS_VOWEL order b env v s =
       Done (S (length (heap s1)))
            (State (heap s1 ++ [VError (loc vb)
                                  (type_error_message TYPE_NAME name (type vb))])
                   (output s1)))
  /\ (forall o,
        result_of (run o 60 [call "+" [SInt 1; quoted (SSym "x")]])
        = Some (VError 83%nat
                  "builtin `+' takes only numeric arguments (got `Symbol')")).
Proof.
  split; [|intros o; destruct o; vm_compute; reflexivity].
  intros b name fuel eval eval_list progn find add_variable print_value
    TYPE_NAME IS_VOWEL order env v s args s1 ps zs bad q vb
    Hname He Hs Hi Hb Ht Hpast Hf.
  destruct b; try discriminate; injection Hname as <-; cbn [call_builtin];
    cbn [gets_past] in Hpast.
  - destruct (arith_spec_total OpAdd zs) as [r Hr]; [discriminate|].
    eapply (ARITHMETIC_type_error _ _ _ _ _ _ _ _ _ _ _ _ _ He Hs Hi Hb Ht Hf OpAdd);
      eauto.
  - destruct (arith_spec_total OpSub zs) as [r Hr]; [discriminate|].
    eapply (ARITHMETIC_type_error _ _ _ _ _ _ _ _ _ _ _ _ _ He Hs Hi Hb Ht Hf OpSub);
      eauto.
  - destruct (arith_spec_total OpMul zs) as [r Hr]; [discriminate|].
    eapply (ARITHMETIC_type_error _ _ _ _ _ _ _ _ _ _ _ _ _ He Hs Hi Hb Ht Hf OpMul);
      eauto.
  - destruct (arith_spec OpDiv zs) as [r|] eqn:Hr; [|discriminate].
    eapply (ARITHMETIC_type_error _ _ _ _ _ _ _ _ _ _ _ _ _ He Hs Hi Hb Ht Hf OpDiv);
      eauto.
  - eapply builtin_eq_type_error; eauto.
  - eapply builtin_less_type_error; eauto.
Qed.

Lemma numeric_type_error_witness :
  result_of (apply_builtin car_first 60 [] Badd [SInt 1; quoted (SSym "x")])
  = Some (VError 82%nat
            "builtin `+' takes only numeric arguments (got `Symbol')").
Proof.
  unfold apply_builtin. mcompute. mcompute. mcompute.
  erewrite (proj1 numeric_type_error)
    with (name := "+") (ps := [80]%nat) (zs := [1]) (bad := 82%nat).
  2: reflexivity.
  2: vm_compute; reflexivity.
  2: known_lseg.
  2: known_nodes.
  2: vm_compute; reflexivity.
  2: vm_compute; discriminate.
  2: reflexivity.
  2: vm_compute; lia.
  vm_compute. reflexivity.
Defined.

(** C1. The condition of [(if (+ (quote x)) (print 1) (print 2))] evaluates
    to an Error; [if] does not return it: it runs the else branch, which
    prints 2 and yields [Nil]. With [1] and [2] as the branches, the result
    is the Integer 2. *)
Theorem builtin_if_condition_error :
  forall o,
  result_of (run o 60 [failing])
  = Some (VError 82%nat
            "builtin `+' takes only numeric arguments (got `Symbol')")
  /\ result_of (run o 60 [call "if" [failing; SInt 1; SInt 2]])
     = Some (VInt 91%nat 2)
  /\ printed (run o 60 [call "if" [failing; call "print" [SInt 1];
                                          call "print" [SInt 2]]])
     = Some "2".
Proof.
  intros o; destruct o; repeat split; vm_compute; reflexivity.
Qed.

(** C4. [(macro x 1)] and [(fn 5 1)] have a parameter list that is no list:
    the Error "malformed function definition" is built and dropped, and a
    Macro, respectively a Function, is the result. *)
Theorem make_function_malformed_result :
  forall o,
  result_of (run o 60 [call "macro" [SSym "x"; SInt 1]])
  = Some (VMacro 84%nat 81%nat 84%nat 3%nat)
  /\ lookup_ptr (heap (state_of (run o 60 [call "macro" [SSym "x"; SInt 1]])))
       87%nat
     = Some (VError 85%nat "malformed function definition")
  /\ result_of (run o 60 [call "fn" [SInt 5; SInt 1]])
     = Some (VFunction 84%nat 81%nat 84%nat 3%nat).
Proof.
  intros o; destruct o; repeat split; vm_compute; reflexivity.
Qed.

(** C5. An Error from the body does not halt [while]: the loop runs a second
    round (it prints 1 and 2) and returns the Integer 2. An Error from the
    condition ends the loop, and the result is the last value of the body,
    the Integer 1, not the Error. *)
Theorem builtin_while_errors :
  forall o,
  result_of (run o 60 body_fails_once) = Some (VInt 109%nat 2)
  /\ printed (run o 60 body_fails_once) = Some "12"
  /\ result_of (run o 60 condition_fails) = Some (VInt 126%nat 1).
Proof.
  intros o; destruct o; repeat split; vm_compute; reflexivity.
Qed.

(** C9. [quote] returns its argument as it stands; [car] of a [cons] of two
    quoted forms is the first quoted value itself; and evaluating
    [(car (cons (quote a) (quote b)))] returns the node of the Symbol [a]
    that the reader built (address 83), not a copy. *)
Theorem quote_cons_car_round_trip :
  (forall env v s l a d,
     lookup_ptr (heap s) v = Some (VCell l a d) ->
     builtin_quote env v s = Done a s)
  /\ (forall eval order env s v lv x dv vc lc qa dc ld qb dd va la a da
             vb lb b db,
        lookup_ptr (heap s) v = Some (VCell lv x dv) ->
        eval env x s = builtin_cons eval order env vc s ->
        lookup_ptr (heap s) vc = Some (VCell lc qa dc) ->
        lookup_ptr (heap s) dc = Some (VCell ld qb dd) ->
        eval env qa s = builtin_quote env va s ->
        lookup_ptr (heap s) va = Some (VCell la a da) ->
        eval env qb s = builtin_quote env vb s ->
        lookup_ptr (heap s) vb = Some (VCell lb b db) ->
        builtin_car eval env v s =
          Done a (State (heap s ++ [VCell no_loc a b]) (output s)))
  /\ (forall o, exists s,
        run o 60 [call "car" [call "cons" [quoted (SSym "a");
                                           quoted (SSym "b")]]]
        = Done 83%nat s
        /\ lookup_ptr (heap s) 83%nat = Some (VSymbol 83%nat "a")).
Proof.
  split; [|split].
  - intros. eapply builtin_quote_verbatim; eauto.
  - intros eval order env s v lv x dv vc lc qa dc ld qb dd va la a da
      vb lb b db Hv Hx Hvc Hdc Hqa Hva Hqb Hvb.
    eapply builtin_car_done; eauto.
    + rewrite Hx. eapply builtin_cons_pure; eauto.
      * rewrite Hqa. eapply builtin_quote_verbatim; eauto.
      * rewrite Hqb. eapply builtin_quote_verbatim; eauto.
    + cbn [heap]. apply lookup_ptr_alloc.
  - intros o; destruct o; eexists;
      (split; [vm_compute; reflexivity|vm_compute; reflexivity]).
Qed.

Lemma quote_cons_car_round_trip_witness :
  result_of (apply_builtin car_first 60 [] Bquote [SSym "a"])
  = Some (VSymbol 80%nat "a")
  /\ result_of (apply_builtin car_first 60 [] Bcar
                  [call "cons" [quoted (SSym "a"); quoted (SSym "b")]])
     = Some (VSymbol 82%nat "a").
Proof.
  split.
  - unfold apply_builtin. mcompute. mcompute. mcompute. cbn [call_builtin].
    erewrite (proj1 quote_cons_car_round_trip).
    2: vm_compute; reflexivity.
    vm_compute. reflexivity.
  - unfold apply_builtin. mcompute. mcompute. mcompute. cbn [call_builtin].
    erewrite (proj1 (proj2 quote_cons_car_round_trip))
      with (order := car_first) (vc := 93%nat) (va := 84%nat) (vb := 89%nat).
    2: vm_compute; reflexivity.
    2: vm_compute; reflexivity.
    2: vm_compute; reflexivity.
    2: vm_compute; reflexivity.
    2: vm_compute; reflexivity.
    2: vm_compute; reflexivity.
    2: vm_compute; reflexivity.
    2: vm_compute; reflexivity.
    vm_compute. reflexivity.
Defined.

Lemma print_value_ok : printer_ok print_value render.
Proof.
  intros p s v Hp Hv. exists p, v. unfold print_value.
  erewrite bind_done by eauto with prim.
  split; [reflexivity|]. cbn [heap]. auto.
Qed.

(** C10. [println] returns what [print] returns and writes a line break
    after it in every case: on success the renderings, then the line break,
    with [Nil] as the result; on an Error from the arguments the line break
    alone, with that Error as the result. *)
Theorem builtin_println_newline :
  (forall fuel eval_list print_value env v s,
     builtin_println fuel eval_list print_value env v s =
       match builtin_print fuel eval_list print_value env v s with
       | Done r s' => Done r (State (heap s') (output s' +:+ newline))
       | Undefined => Undefined
       | Aborted => Aborted
       | OutOfFuel => OutOfFuel
       end)
  /\ (forall fuel eval_list print_value render env list s r s1 ps vs lv vr,
        printer_ok print_value render ->
        eval_list env list s = Done r s1 ->
        lookup_ptr (heap s1) r = Some vr ->
        type vr <> VAL_ERROR ->
        is_list (heap s1) r ps ->
        nodes (heap s1) ps vs ->
        Forall (fun v => type v <> VAL_ERROR) vs ->
        lookup_ptr (heap s1) list = Some lv ->
        (length ps < fuel)%nat ->
        builtin_println fuel eval_list print_value env list s =
          Done (S (length (heap s1)))
               (State (heap s1 ++ [VNil (loc lv)])
                      ((output s1 +:+ foldr String.append "" (map render vs))
                       +:+ newline)))
  /\ (forall fuel eval_list print_value env list s r s1 vr,
        eval_list env list s = Done r s1 ->
        lookup_ptr (heap s1) r = Some vr ->
        type vr = VAL_ERROR ->
        builtin_println fuel eval_list print_value env list s =
          Done r (State (heap s1) (output s1 +:+ newline))).
Proof.
  split; [|split].
  - intros. apply builtin_println_print.
  - intros. rewrite builtin_println_print.
    erewrite builtin_print_success; eauto.
  - intros. rewrite builtin_println_print.
    erewrite builtin_print_error; eauto.
Qed.

Lemma builtin_println_newline_witness :
  (let o := apply_builtin car_first 60 [] Bprintln [SInt 1; SInt 2] in
   result_of o = Some (VNil 84%nat) /\ printed o = Some ("12" +:+ newline))
  /\ (let o := apply_builtin car_first 60 [] Bprintln [SInt 1; SSym "zz"] in
      result_of o = Some (VError 81%nat "unbound symbol `zz'")
      /\ printed o = Some newline).
Proof.
  split.
  - unfold apply_builtin. mcompute. mcompute. mcompute. cbn [call_builtin].
    erewrite (proj1 (proj2 builtin_println_newline))
      with (render := render) (ps := [80; 81]%nat)
           (vs := [VInt 80%nat 1; VInt 81%nat 2]).
    2: exact print_value_ok.
    2: vm_compute; reflexivity.
    2: vm_compute; reflexivity.
    2: vm_compute; discriminate.
    2: known_list.
    2: known_nodes.
    2: repeat constructor; discriminate.
    2: vm_compute; reflexivity.
    2: vm_compute; lia.
    split; vm_compute; reflexivity.
  - unfold apply_builtin. mcompute. mcompute. mcompute. cbn [call_builtin].
    erewrite (proj2 (proj2 builtin_println_newline)).
    2: vm_compute; reflexivity.
    2: vm_compute; reflexivity.
    2: vm_compute; reflexivity.
    split; vm_compute; reflexivity.
Defined.

Lemma quoted_args_lookup h sym rest p v :
  lookup_ptr h p = Some v -> lookup_ptr (quoted_args h sym rest) p = Some v.
Proof. intros H. unfold quoted_args. apply lookup_ptr_app_l. exact H. Qed.

Lemma quoted_args_shape h sym rest :
  is_quoted_args (quoted_args h sym rest) (5 + length h)%nat sym rest.
Proof.
  assert (Hn : forall i v, [VNil no_loc; VCell no_loc sym (1 + length h)%nat;
                            VSymbol no_loc "quote";
                            VCell no_loc (3 + length h)%nat (2 + length h)%nat;
                            VCell no_loc (4 + length h)%nat rest] !! i = Some v ->
               lookup_ptr (quoted_args h sym rest) (S (length h + i)) = Some v).
  { intros i v Hi. unfold quoted_args. cbn [lookup_ptr].
    rewrite lookup_app_r by lia.
    replace (length h + i - length h)%nat with i by lia. exact Hi. }
  exists (4 + length h)%nat, (3 + length h)%nat, no_loc. repeat split.
  - exists no_loc, rest. split; [|reflexivity].
    replace (5 + length h)%nat with (S (length h + 4)) by lia.
    apply Hn. reflexivity.
  - exists (1 + length h)%nat, no_loc. split.
    + exists no_loc, (2 + length h)%nat. split.
      * replace (4 + length h)%nat with (S (length h + 3)) by lia.
        apply Hn. reflexivity.
      * exists no_loc, (1 + length h)%nat. split; [|reflexivity].
        replace (2 + length h)%nat with (S (length h + 1)) by lia.
        apply Hn. reflexivity.
    + replace (1 + length h)%nat with (S (length h + 0)) by lia.
      apply Hn. reflexivity.
  - replace (3 + length h)%nat with (S (length h + 2)) by lia.
    apply Hn. reflexivity.
Qed.

(** C6. [setq] on [(sym . rest)] is [set] on the argument list
    [((quote sym) . rest)], built in fresh nodes beside the heap as it was;
    the results and the final states are the same. It is the form
    [(quote sym)] that [set] evaluates, never [sym]: with [y] bound to the
    symbol [x], [(setq y 7)] leaves [x] at 5 where [(set y 7)] changes it. *)
Theorem builtin_setq_is_set_quoted :
  (forall eval find add_variable env list s l sym rest,
     lookup_ptr (heap s) list = Some (VCell l sym rest) ->
     let args := (5 + length (heap s))%nat in
     let s' := State (quoted_args (heap s) sym rest) (output s) in
     builtin_setq eval find add_variable env list s =
       builtin_set eval find add_variable env args s'
     /\ is_quoted_args (heap s') args sym rest
     /\ (forall p v, lookup_ptr (heap s) p = Some v ->
                     lookup_ptr (heap s') p = Some v))
  /\ (forall o,
     result_of (run o 60 [call "setq" [SSym "x"; SInt 5]; SSym "x"])
     = Some (VInt 82%nat 5)
  /\ result_of (run o 60 [call "set" [quoted (SSym "x"); SInt 5]; SSym "x"])
     = Some (VInt 86%nat 5)
  /\ result_of (run o 60 [call "setq" [SSym "x"; SInt 5];
                        call "setq" [SSym "y"; quoted (SSym "x")];
                        call "setq" [SSym "y"; SInt 7];
                        SSym "x"])
     = Some (VInt 82%nat 5)
  /\ result_of (run o 60 [call "setq" [SSym "x"; SInt 5];
                        call "setq" [SSym "y"; quoted (SSym "x")];
                        call "set" [SSym "y"; SInt 7];
                        SSym "x"])
     = Some (VInt 114%nat 7)).
Proof.
  split; [|intros o; destruct o; repeat split; vm_compute; reflexivity].
  intros eval find add_variable env list s l sym rest Hl args s'.
  split; [|split].
  - eapply builtin_setq_set; eauto.
  - apply quoted_args_shape.
  - intros p v. apply quoted_args_lookup.
Qed.

Lemma builtin_setq_is_set_quoted_witness :
  let o := apply_builtin car_first 60 [] Bsetq [SSym "x"; SInt 5] in
  result_of o = Some (VInt 81%nat 5)
  /\ (b <- find 60 3%nat 80%nat ;; cdr b) (state_of o) = Done 81%nat (state_of o).
Proof.
  unfold apply_builtin. mcompute. mcompute. mcompute. cbn [call_builtin].
  match goal with
  | |- context [builtin_setq ?e ?f ?a ?env ?l ?s] =>
      edestruct (proj1 builtin_setq_is_set_quoted e f a env l s)
        as (Heq & _ & _); [vm_compute; reflexivity|]
  end.
  rewrite Heq. clear Heq. split; vm_compute; reflexivity.
Defined.

(** C7. [set] evaluates its first argument to a Symbol, looks it up, and
    evaluates its second argument to the new value, which it returns.
    When the symbol has no binding in the chain, a new binding cell
    for it is put in front of the innermost frame, where [find] then finds
    it. When it has one, the [cdr] of that very cell is overwritten and
    nothing else changes, so every environment whose search for the symbol
    ended at that cell reads the new value. A closure made before
    [(setq i 7)] returns 7 afterwards. *)
Theorem builtin_set_binding :
  (forall fuel eval env list s l a d sym s1 ls name l1 a1 d1 l2 b dd
          value s3 le vars up,
     lookup_ptr (heap s) list = Some (VCell l a d) ->
     eval env a s = Done sym s1 ->
     find fuel env sym s1 = Done NULL s1 ->
     lookup_ptr (heap s1) list = Some (VCell l1 a1 d1) ->
     lookup_ptr (heap s1) d1 = Some (VCell l2 b dd) ->
     eval env b s1 = Done value s3 ->
     lookup_ptr (heap s3) sym = Some (VSymbol ls name) ->
     lookup_ptr (heap s3) env = Some (VCell le vars up) ->
     let nb := (1 + length (heap s3))%nat in
     let spine := (2 + length (heap s3))%nat in
     let s4 :=
       State (<[pred env := VCell le spine up]>
                (heap s3 ++ [VCell no_loc sym value;
                             VCell no_loc nb vars])%list)
             (output s3) in
     builtin_set eval (find fuel) add_variable env list s = Done value s4
     /\ lookup_ptr (heap s4) env = Some (VCell le spine up)
     /\ lookup_ptr (heap s4) spine = Some (VCell no_loc nb vars)
     /\ lookup_ptr (heap s4) nb = Some (VCell no_loc sym value)
     /\ find fuel env sym s4 = Done nb s4)
  /\ (forall fuel eval env list s l a d sym s1 bind l1 a1 d1 l2 b dd
             value s3 lb k old,
        lookup_ptr (heap s) list = Some (VCell l a d) ->
        eval env a s = Done sym s1 ->
        find fuel env sym s1 = Done bind s1 ->
        bind <> NULL ->
        lookup_ptr (heap s1) list = Some (VCell l1 a1 d1) ->
        lookup_ptr (heap s1) d1 = Some (VCell l2 b dd) ->
        eval env b s1 = Done value s3 ->
        lookup_ptr (heap s3) bind = Some (VCell lb k old) ->
        let s4 :=
          State (<[pred bind := VCell lb k value]> (heap s3)) (output s3) in
        builtin_set eval (find fuel) add_variable env list s = Done value s4
        /\ lookup_ptr (heap s4) bind = Some (VCell lb k value)
        /\ (forall p, p <> bind ->
                      lookup_ptr (heap s4) p = lookup_ptr (heap s3) p)
        /\ (forall env' m cells,
              chain_cells m (heap s3) env' = Some cells ->
              ~ In bind cells ->
              find fuel env' sym s3 = Done bind s3 ->
              (b' <- find fuel env' sym ;; cdr b') s4 = Done value s4))
  /\ (forall o,
     result_of (run o 60 (closure_forms ++ [call "g" [SInt 0]]))
     = Some (VInt 82%nat 0)
  /\ result_of (run o 60 (closure_forms ++ [call "setq" [SSym "i"; SInt 7];
                                          call "g" [SInt 0]]))
     = Some (VInt 143%nat 7)).
Proof.
  split; [|split; [|intros o; destruct o; split; vm_compute; reflexivity]].
  - intros fuel eval env list s l a d sym s1 ls name l1 a1 d1 l2 b dd
      value s3 le vars up Hl Ha Hf Hl1 Hd1 Hb Hsym Henv nb spine s4.
    assert (Hfuel : (0 < fuel)%nat).
    { destruct fuel; [discriminate|lia]. }
    pose proof (add_variable_done env sym value s3 le vars up Henv) as Hadd.
    fold nb spine s4 in Hadd.
    destruct (add_variable_found fuel env sym value s3 le vars up ls name
                value s4 Henv Hsym Hfuel Hadd) as [Hfind Hnb].
    pose proof (lookup_ptr_bound _ _ _ Henv) as Hbound.
    split; [|split; [|split; [|split]]].
    + eapply builtin_set_new; eauto.
    + eapply lookup_ptr_insert_eq. apply lookup_ptr_app_l. exact Henv.
    + subst s4. cbn [heap].
      rewrite lookup_ptr_insert_ne by (unfold NULL, spine; lia).
      unfold spine. cbn [lookup_ptr Nat.add].
      rewrite lookup_app_r by lia.
      replace (S (length (heap s3)) - length (heap s3))%nat with 1%nat by lia.
      reflexivity.
    + exact Hnb.
    + exact Hfind.
  - intros fuel eval env list s l a d sym s1 bind l1 a1 d1 l2 b dd
      value s3 lb k old Hl Ha Hf Hn Hl1 Hd1 Hb Hbind s4.
    split; [|split; [|split]].
    + eapply builtin_set_existing; eauto.
    + eapply lookup_ptr_insert_eq; eauto.
    + intros p Hp. apply lookup_ptr_insert_ne; auto.
    + intros env' m cells Hc Hni Hfind. destruct s3 as [h3 o3].
      eapply put_cdr_visible; eauto.
Qed.

Lemma not_In_check (x : ptr) (l : list ptr) :
  forallb (fun c => negb (Nat.eqb c x)) l = true -> ~ In x l.
Proof.
  induction l as [|c l IH]; cbn [forallb In]; [tauto|].
  intros H. apply andb_prop in H as [Hc Hl]. intros [->|Hin].
  - rewrite Nat.eqb_refl in Hc. discriminate.
  - exact (IH Hl Hin).
Qed.

Lemma builtin_set_binding_witness :
  (let o := apply_builtin car_first 60 [] Bset [quoted (SSym "x"); SInt 5] in
   result_of o = Some (VInt 85%nat 5)
   /\ (b <- find 60 3%nat 81%nat ;; cdr b) (state_of o)
      = Done 85%nat (state_of o))
  /\ (let o := apply_builtin car_first 60 closure_forms Bset
                 [quoted (SSym "i"); SInt 7] in
      result_of o = Some (VInt 146%nat 7)
      /\ (b <- find 60 135%nat 142%nat ;; cdr b) (state_of o)
         = Done 146%nat (state_of o)).
Proof.
  split.
  - unfold apply_builtin. mcompute. mcompute. mcompute. cbn [call_builtin].
    match goal with
    | |- context [builtin_set ?e (find ?n) ?a ?env ?l ?s] =>
        edestruct (proj1 builtin_set_binding n e env l s)
          as (Heq & _ & _ & _ & Hfind)
    end.
    1: vm_compute; reflexivity.
    1: vm_compute; reflexivity.
    1: vm_compute; reflexivity.
    1: vm_compute; reflexivity.
    1: vm_compute; reflexivity.
    1: vm_compute; reflexivity.
    1: vm_compute; reflexivity.
    1: vm_compute; reflexivity.
    rewrite Heq. cbn [result_of state_of]. split; [vm_compute; reflexivity|].
    erewrite bind_done by exact Hfind.
    vm_compute. reflexivity.
  - unfold apply_builtin. mcompute. mcompute. mcompute. cbn [call_builtin].
    match goal with
    | |- context [builtin_set ?e (find ?n) ?a ?env ?l ?s] =>
        edestruct (proj1 (proj2 builtin_set_binding) n e env l s)
          as (Heq & _ & _ & Hvis)
    end.
    1: vm_compute; reflexivity.
    1: vm_compute; reflexivity.
    1: vm_compute; reflexivity.
    1: unfold NULL; lia.
    1: vm_compute; reflexivity.
    1: vm_compute; reflexivity.
    1: vm_compute; reflexivity.
    1: vm_compute; reflexivity.
    rewrite Heq. cbn [result_of state_of]. split; [vm_compute; reflexivity|].
    eapply Hvis with (m := 60%nat).
    + vm_compute. reflexivity.
    + apply not_In_check. vm_compute. reflexivity.
    + vm_compute. reflexivity.
Defined.

(** * Further properties of the operators *)

(** ** The numeric operators *)

Lemma less_loop_error TYPE_NAME n v args va sum first s :
  lookup_ptr (heap s) args = Some va ->
  type va = VAL_ERROR ->
  builtin_less_loop TYPE_NAME (S n) v args sum first s = Done (Some args) s.
Proof.
  intros H Ht. cbn [builtin_less_loop]. mstep. rewrite Ht. reflexivity.
Qed.

Lemma eq_loop_error TYPE_NAME n v args va sum first s :
  lookup_ptr (heap s) args = Some va ->
  type va = VAL_ERROR ->
  builtin_eq_loop TYPE_NAME (S n) v args sum first s = Done (Some args) s.
Proof.
  intros H Ht. cbn [builtin_eq_loop]. mstep. rewrite Ht. reflexivity.
Qed.

Lemma arith_loop_error TYPE_NAME X n args va sum first s :
  lookup_ptr (heap s) args = Some va ->
  type va = VAL_ERROR ->
  ARITHMETIC_loop TYPE_NAME X (S n) args sum first s = Done (inl args) s.
Proof.
  intros H Ht. cbn [ARITHMETIC_loop]. mstep. rewrite Ht. reflexivity.
Qed.

Lemma eq_spec_true (z0 : Z) (rest : list Z) :
  eq_spec (z0 :: rest) = true <-> forall z, In z rest -> z = z0.
Proof.
  cbn [eq_spec]. rewrite forallb_forall. split.
  - intros H z Hz. apply Z.eqb_eq. auto.
  - intros H z Hz. apply Z.eqb_eq. auto.
Qed.

(** X1. On a list of Integers, [=] returns [True] when every argument equals
    the first one and [Nil] otherwise; with no argument or one, [True]. *)
Theorem builtin_eq_all_equal :
  (forall fuel eval_list TYPE_NAME env v s args s1 ps zs lv,
     eval_list env v s = Done args s1 ->
     is_list (heap s1) args ps ->
     ints (heap s1) ps zs ->
     lookup_ptr (heap s1) v = Some lv ->
     (length zs < fuel)%nat ->
     builtin_eq fuel eval_list TYPE_NAME env v s =
       Done (S (length (heap s1)))
            (State (heap s1 ++ [if eq_spec zs then VTrue (loc lv)
                                else VNil (loc lv)]) (output s1)))
  /\ (forall z0 rest,
        eq_spec (z0 :: rest) = true <-> forall z, In z rest -> z = z0)
  /\ eq_spec [] = true.
Proof.
  split; [|split; [exact eq_spec_true|reflexivity]].
  intros. eapply builtin_eq_ints; eauto.
Qed.

Lemma builtin_eq_all_equal_witness :
  result_of (apply_builtin car_first 60 [] Beq [SInt 2; SInt 2; SInt 2])
  = Some (VTrue 86%nat)
  /\ result_of (apply_builtin car_first 60 [] Beq [SInt 2; SInt 2; SInt 3])
     = Some (VNil 86%nat).
Proof.
  split.
  - unfold apply_builtin. mcompute. mcompute. mcompute. cbn [call_builtin].
    erewrite (proj1 builtin_eq_all_equal)
      with (ps := [80; 81; 82]%nat) (zs := [2; 2; 2]).
    2: vm_compute; reflexivity.
    2: known_list.
    2: known_nodes.
    2: vm_compute; reflexivity.
    2: vm_compute; lia.
    vm_compute. reflexivity.
  - unfold apply_builtin. mcompute. mcompute. mcompute. cbn [call_builtin].
    erewrite (proj1 builtin_eq_all_equal)
      with (ps := [80; 81; 82]%nat) (zs := [2; 2; 3]).
    2: vm_compute; reflexivity.
    2: known_list.
    2: known_nodes.
    2: vm_compute; reflexivity.
    2: vm_compute; lia.
    vm_compute. reflexivity.
Defined.

(** X2. When the list that [eval_list] returns reaches, after Integers the
    loop gets past, a node that is an Error, each of [+], [-], [*], [/],
    [=] and [<] returns that very node and builds nothing; so an Error that
    [eval_list] returns as a whole is passed on as it is. *)
Theorem numeric_error_propagates :
  forall b name fuel eval eval_list progn find add_variable print_value
         TYPE_NAME IS_VOWEL order env v s args s1 ps zs q vq,
    numeric_name b = Some name ->
    eval_list env v s = Done args s1 ->
    lseg (heap s1) args ps q ->
    ints (heap s1) ps zs ->
    gets_past b zs = true ->
    lookup_ptr (heap s1) q = Some vq ->
    type vq = VAL_ERROR ->
    (length zs < fuel)%nat ->
    call_builtin fuel eval eval_list progn find add_variable print_value
      TYPE_NAME IS_VOWEL order b env v s = Done q s1.
Proof.
  intros b name fuel eval eval_list progn find add_variable print_value
    TYPE_NAME IS_VOWEL order env v s args s1 ps zs q vq
    Hname He Hs Hi Hpast Hq Ht Hf.
  rewrite <- (ints_length _ _ _ Hi) in Hf.
  assert (Hfuel : fuel = (length ps + S (fuel - length ps - 1))%nat) by lia.
  assert (Harith : forall X, (exists r, arith_spec X zs = Some r) ->
            ARITHMETIC fuel eval_list TYPE_NAME X env v s = Done q s1).
  { intros X [r Hr]. unfold ARITHMETIC. mstep. rewrite Hfuel.
    unfold bindM at 1.
    rewrite (arith_loop_reach _ _ _ _ _ _ _ _ _ Hi Hs Hr).
    erewrite arith_loop_error; eauto. }
  destruct b; try discriminate; cbn [call_builtin]; cbn [gets_past] in Hpast.
  - apply Harith. apply arith_spec_total. discriminate.
  - apply Harith. apply arith_spec_total. discriminate.
  - apply Harith. apply arith_spec_total. discriminate.
  - apply Harith. destruct (arith_spec OpDiv zs); [eauto|discriminate].
  - unfold builtin_eq. mstep. rewrite Hfuel. unfold bindM at 1.
    rewrite (eq_loop_reach _ _ _ _ _ _ _ _ Hi Hs Hpast).
    erewrite eq_loop_error; eauto.
  - unfold builtin_less. mstep. rewrite Hfuel. unfold bindM at 1.
    rewrite (less_loop_reach _ _ _ _ _ _ _ _ Hi Hs Hpast).
    erewrite less_loop_error; eauto.
Qed.

Lemma numeric_error_propagates_witness :
  result_of (apply_builtin car_first 60 [] Bmul [SInt 1; SSym "zz"])
  = Some (VError 81%nat "unbound symbol `zz'").
Proof.
  unfold apply_builtin. mcompute. mcompute. mcompute.
  erewrite numeric_error_propagates
    with (name := "*") (ps := []) (zs := []).
  2: reflexivity.
  2: vm_compute; reflexivity.
  2: reflexivity.
  2: constructor.
  2: reflexivity.
  2: vm_compute; reflexivity.
  2: reflexivity.
  2: vm_compute; lia.
  vm_compute. reflexivity.
Defined.

Lemma eq_loop_stop TYPE_NAME n v args l a d l' i lv sum s :
  lookup_ptr (heap s) args = Some (VCell l a d) ->
  lookup_ptr (heap s) a = Some (VInt l' i) ->
  lookup_ptr (heap s) v = Some lv ->
  i <> sum ->
  builtin_eq_loop TYPE_NAME (S n) v args sum false s =
    Done (Some (S (length (heap s))))
         (State (heap s ++ [VNil (loc lv)]) (output s)).
Proof.
  intros Hc Ha Hv Hne.
  rewrite (eq_loop_int _ _ _ _ _ _ _ _ _ _ _ _ Hc Ha). cbn.
  destruct (Z.eqb_spec i sum); [contradiction|]. cbn.
  mstep. reflexivity.
Qed.

(** X3. [<] and [=] return [Nil] at the first Integer that fails the
    comparison with the first argument, whatever comes after it in the list:
    the later arguments are not looked at, not even their types. *)
Theorem comparison_stops_at_first_failure :
  (forall fuel eval_list TYPE_NAME env v s args s1 ps z0 rest p l z q lv,
     eval_list env v s = Done args s1 ->
     lseg (heap s1) args (ps ++ [p]) q ->
     ints (heap s1) ps (z0 :: rest) ->
     (forall x, In x rest -> x < z0) ->
     lookup_ptr (heap s1) p = Some (VInt l z) ->
     z0 <= z ->
     lookup_ptr (heap s1) v = Some lv ->
     (length ps < fuel)%nat ->
     builtin_less fuel eval_list TYPE_NAME env v s =
       Done (S (length (heap s1)))
            (State (heap s1 ++ [VNil (loc lv)]) (output s1)))
  /\ (forall fuel eval_list TYPE_NAME env v s args s1 ps z0 rest p l z q lv,
        eval_list env v s = Done args s1 ->
        lseg (heap s1) args (ps ++ [p]) q ->
        ints (heap s1) ps (z0 :: rest) ->
        (forall x, In x rest -> x = z0) ->
        lookup_ptr (heap s1) p = Some (VInt l z) ->
        z <> z0 ->
        lookup_ptr (heap s1) v = Some lv ->
        (length ps < fuel)%nat ->
        builtin_eq fuel eval_list TYPE_NAME env v s =
          Done (S (length (heap s1)))
               (State (heap s1 ++ [VNil (loc lv)]) (output s1))).
Proof.
  split.
  - intros fuel eval_list TYPE_NAME env v s args s1 ps z0 rest p l z q lv
      He Hs Hi Hall Hp Hz Hv Hf.
    apply lseg_snoc in Hs as (m & lm & Hm & Hc).
    unfold builtin_less. mstep.
    replace fuel with (length ps + S (fuel - length ps - 1))%nat by lia.
    unfold bindM at 1.
    erewrite less_loop_reach; eauto.
    + cbn [hd]. erewrite less_loop_stop; eauto.
    + cbn [less_spec]. apply forallb_forall. intros x Hx.
      apply Z.ltb_lt. auto.
  - intros fuel eval_list TYPE_NAME env v s args s1 ps z0 rest p l z q lv
      He Hs Hi Hall Hp Hz Hv Hf.
    apply lseg_snoc in Hs as (m & lm & Hm & Hc).
    unfold builtin_eq. mstep.
    replace fuel with (length ps + S (fuel - length ps - 1))%nat by lia.
    unfold bindM at 1.
    erewrite eq_loop_reach; eauto.
    + cbn [hd]. erewrite eq_loop_stop; eauto.
    + apply eq_spec_true. exact Hall.
Qed.

Lemma comparison_stops_at_first_failure_witness :
  result_of (apply_builtin car_first 60 [] Bless [SInt 1; SInt 2; quoted (SSym "x")])
  = Some (VNil 90%nat)
  /\ result_of (apply_builtin car_first 60 [] Beq [SInt 1; SInt 2; quoted (SSym "x")])
     = Some (VNil 90%nat).
Proof.
  split.
  - unfold apply_builtin. mcompute. mcompute. mcompute. cbn [call_builtin].
    erewrite (proj1 comparison_stops_at_first_failure)
      with (ps := [80]%nat) (z0 := 1) (rest := []) (p := 81%nat).
    2: vm_compute; reflexivity.
    2: known_lseg.
    2: known_nodes.
    2: intros x [].
    2: vm_compute; reflexivity.
    2: lia.
    2: vm_compute; reflexivity.
    2: vm_compute; lia.
    vm_compute. reflexivity.
  - unfold apply_builtin. mcompute. mcompute. mcompute. cbn [call_builtin].
    erewrite (proj2 comparison_stops_at_first_failure)
      with (ps := [80]%nat) (z0 := 1) (rest := []) (p := 81%nat).
    2: vm_compute; reflexivity.
    2: known_lseg.
    2: known_nodes.
    2: intros x [].
    2: vm_compute; reflexivity.
    2: lia.
    2: vm_compute; reflexivity.
    2: vm_compute; lia.
    vm_compute. reflexivity.
Defined.

Lemma loc_of_inv (p : ptr) (s s' : state) (l : location) :
  loc_of p s = Done l s' ->
  exists v, lookup_ptr (heap s) p = Some v /\ l = loc v /\ s' = s.
Proof.
  intros H. apply bind_inv in H as (v & s1 & Hd & Hr).
  apply deref_inv in Hd as [Hv ->]. injection Hr as <- <-. eauto.
Qed.

Lemma int_of_inv (p : ptr) (s s' : state) (i : Z) :
  int_of p s = Done i s' ->
  exists l, lookup_ptr (heap s) p = Some (VInt l i) /\ s' = s.
Proof.
  intros H. apply bind_inv in H as (v & s1 & Hd & Hr).
  apply deref_inv in Hd as [Hv ->].
  destruct v; try discriminate. injection Hr as <- <-. eauto.
Qed.

Lemma less_loop_outcome TYPE_NAME n : forall v args sum first s r s',
  builtin_less_loop TYPE_NAME n v args sum first s = Done r s' ->
  loop_outcome s (fun r => r = None) (fun r => r)
    (fun t => t = VAL_ERROR \/ t = VAL_NIL) r s'.
Proof.
  induction n as [|n IH]; intros v args sum first s r s' H; [discriminate|].
  cbn [builtin_less_loop] in H.
  apply bind_inv in H as (t & s0 & Ht & H).
  apply type_of_inv in Ht as (va & Hva & -> & ->).
  destruct (type va) eqn:Eva; cbn [val_type_eqb negb] in H;
    try (injection H as <- <-; left; split; reflexivity);
    try (injection H as <- <-; right; left; exists args, va; auto).
  all: apply bind_inv in H as (a & s0 & Ha & H);
    apply car_inv in Ha as (la & da & Hc & ->);
    apply bind_inv in H as (ta & s0 & Hta & H);
    apply type_of_inv in Hta as (vx & Hvx & -> & ->);
    destruct (val_type_eqb (type vx) VAL_INT) eqn:Ex;
    [ apply bind_inv in H as (i & s0 & Hi & H);
      apply int_of_inv in Hi as (li & Hi & ->);
      destruct first;
      [ apply bind_inv in H as (d & s0 & Hd & H);
        apply cdr_inv in Hd as (? & ? & _ & ->); eapply IH; eauto
      | destruct (i >=? sum);
        [ apply bind_inv in H as (lv & s0 & Hlv & H);
          apply loc_of_inv in Hlv as (vv & Hvv & -> & ->);
          unfold Nil, alloc, bindM, ret in H; injection H as <- <-;
          right; right; exists (VNil (loc vv)); cbn; auto
        | apply bind_inv in H as (d & s0 & Hd & H);
          apply cdr_inv in Hd as (? & ? & _ & ->); eapply IH; eauto ] ]
    | apply bind_inv in H as (lx & s0 & Hlx & H);
      apply loc_of_inv in Hlx as (vy & Hvy & -> & ->);
      unfold error, alloc, bindM, ret in H; injection H as <- <-;
      right; right; eexists; cbn; auto ].
Qed.

Lemma eq_loop_outcome TYPE_NAME n : forall v args sum first s r s',
  builtin_eq_loop TYPE_NAME n v args sum first s = Done r s' ->
  loop_outcome s (fun r => r = None) (fun r => r)
    (fun t => t = VAL_ERROR \/ t = VAL_NIL) r s'.
Proof.
  induction n as [|n IH]; intros v args sum first s r s' H; [discriminate|].
  cbn [builtin_eq_loop] in H.
  apply bind_inv in H as (t & s0 & Ht & H).
  apply type_of_inv in Ht as (va & Hva & -> & ->).
  destruct (type va) eqn:Eva; cbn [val_type_eqb negb] in H;
    try (injection H as <- <-; left; split; reflexivity);
    try (injection H as <- <-; right; left; exists args, va; auto).
  all: apply bind_inv in H as (a & s0 & Ha & H);
    apply car_inv in Ha as (la & da & Hc & ->);
    apply bind_inv in H as (ta & s0 & Hta & H);
    apply type_of_inv in Hta as (vx & Hvx & -> & ->);
    destruct (val_type_eqb (type vx) VAL_INT) eqn:Ex;
    [ apply bind_inv in H as (i & s0 & Hi & H);
      apply int_of_inv in Hi as (li & Hi & ->);
      destruct first;
      [ apply bind_inv in H as (d & s0 & Hd & H);
        apply cdr_inv in Hd as (? & ? & _ & ->); eapply IH; eauto
      | destruct (negb (i =? sum));
        [ apply bind_inv in H as (lv & s0 & Hlv & H);
          apply loc_of_inv in Hlv as (vv & Hvv & -> & ->);
          unfold Nil, alloc, bindM, ret in H; injection H as <- <-;
          right; right; exists (VNil (loc vv)); cbn; auto
        | apply bind_inv in H as (d & s0 & Hd & H);
          apply cdr_inv in Hd as (? & ? & _ & ->); eapply IH; eauto ] ]
    | apply bind_inv in H as (lx & s0 & Hlx & H);
      apply loc_of_inv in Hlx as (vy & Hvy & -> & ->);
      unfold error, alloc, bindM, ret in H; injection H as <- <-;
      right; right; eexists; cbn; auto ].
Qed.

Lemma arith_loop_outcome TYPE_NAME X n : forall args sum first s r s',
  ARITHMETIC_loop TYPE_NAME X n args sum first s = Done r s' ->
  loop_outcome s (fun r => exists z, r = inr z)
    (fun r => match r with inl e => Some e | inr _ => None end)
    (fun t => t = VAL_ERROR) r s'.
Proof.
  induction n as [|n IH]; intros args sum first s r s' H; [discriminate|].
  cbn [ARITHMETIC_loop] in H.
  apply bind_inv in H as (t & s0 & Ht & H).
  apply type_of_inv in Ht as (va & Hva & -> & ->).
  destruct (type va) eqn:Eva; cbn [val_type_eqb negb] in H;
    try (injection H as <- <-; left; split; [eexists; reflexivity|reflexivity]);
    try (injection H as <- <-; right; left; exists args, va; auto).
  all: apply bind_inv in H as (a & s0 & Ha & H);
    apply car_inv in Ha as (la & da & Hc & ->);
    apply bind_inv in H as (ta & s0 & Hta & H);
    apply type_of_inv in Hta as (vx & Hvx & -> & ->);
    destruct (val_type_eqb (type vx) VAL_INT) eqn:Ex;
    [ apply bind_inv in H as (i & s0 & Hi & H);
      apply int_of_inv in Hi as (li & Hi & ->);
      apply bind_inv in H as (sum' & s0 & Hsum & H);
      assert (s0 = s) as ->
        by (destruct first;
            [ injection Hsum as _ <-; reflexivity
            | unfold compound_assign in Hsum;
              destruct (arith X sum i); [injection Hsum as _ <-; reflexivity
                                        |discriminate] ]);
      apply bind_inv in H as (d & s0 & Hd & H);
      apply cdr_inv in Hd as (? & ? & _ & ->); eapply IH; eauto
    | apply bind_inv in H as (lx & s0 & Hlx & H);
      apply loc_of_inv in Hlx as (vy & Hvy & -> & ->);
      unfold error, alloc, bindM, ret in H; injection H as <- <-;
      right; right; eexists; cbn; auto ].
Qed.

(** X4. Whatever list [eval_list] returns, a numeric operator that returns
    writes nothing to the output and changes no node: it returns either an
    Error node that was already there, with the state as [eval_list] left
    it, or one new node, which is an Error or an Integer for [+], [-], [*]
    and [/], and an Error, [Nil] or [True] for [=] and [<]. *)
Theorem numeric_operators_frame :
  forall b name fuel eval eval_list progn find add_variable print_value
         TYPE_NAME IS_VOWEL order env v s args s1 r s2,
    numeric_name b = Some name ->
    eval_list env v s = Done args s1 ->
    call_builtin fuel eval eval_list progn find add_variable print_value
      TYPE_NAME IS_VOWEL order b env v s = Done r s2 ->
    output s2 = output s1
    /\ (forall p v0, lookup_ptr (heap s1) p = Some v0 ->
                     lookup_ptr (heap s2) p = Some v0)
    /\ ((s2 = s1
         /\ exists ve, lookup_ptr (heap s1) r = Some ve /\ type ve = VAL_ERROR)
        \/ (exists node,
              r = S (length (heap s1))
              /\ heap s2 = (heap s1 ++ [node])%list
              /\ result_kind b (type node) = true)).
Proof.
  intros b name fuel eval eval_list progn find add_variable print_value
    TYPE_NAME IS_VOWEL order env v s args s1 r s2 Hname He H.
  assert (Harith : forall X,
            result_kind b VAL_ERROR = true -> result_kind b VAL_INT = true ->
            ARITHMETIC fuel eval_list TYPE_NAME X env v s = Done r s2 ->
            output s2 = output s1
            /\ (forall p v0, lookup_ptr (heap s1) p = Some v0 ->
                             lookup_ptr (heap s2) p = Some v0)
            /\ ((s2 = s1 /\ exists ve, lookup_ptr (heap s1) r = Some ve
                                       /\ type ve = VAL_ERROR)
                \/ (exists node, r = S (length (heap s1))
                      /\ heap s2 = (heap s1 ++ [node])%list
                      /\ result_kind b (type node) = true))).
  { intros X Hke Hki HA. unfold ARITHMETIC in HA.
    apply bind_inv in HA as (args' & s1' & He' & HA).
    rewrite He in He'. injection He' as <- <-.
    apply bind_inv in HA as (res & s' & Hloop & HA).
    apply arith_loop_outcome in Hloop
      as [[[z ->] ->] | [(e & ve & Hr & -> & Hve & Hte)
                        | (node & Hr & -> & Hk)]].
    - apply bind_inv in HA as (l & s0 & Hl & HA).
      apply loc_of_inv in Hl as (vv & _ & -> & ->).
      unfold alloc in HA. injection HA as <- <-. cbn [heap output].
      split; [reflexivity|]. split; [intros; apply lookup_ptr_app_l; auto|].
      right. eexists. repeat split. exact Hki.
    - destruct res as [e'|]; [|discriminate]. injection Hr as ->.
      injection HA as <- <-.
      split; [reflexivity|]. split; [auto|]. left. eauto.
    - destruct res as [e'|]; [|discriminate]. injection Hr as ->.
      injection HA as <- <-. cbn [heap output].
      split; [reflexivity|]. split; [intros; apply lookup_ptr_app_l; auto|].
      right. exists node. repeat split. rewrite Hk. exact Hke. }
  assert (Hcmp : forall res s',
            loop_outcome s1 (fun r => r = None) (fun r => r)
              (fun t => t = VAL_ERROR \/ t = VAL_NIL) res s' ->
            result_kind b VAL_ERROR = true -> result_kind b VAL_NIL = true ->
            result_kind b VAL_TRUE = true ->
            match res with
            | Some r => ret r
            | None => l <- loc_of v ;; True_ l
            end s' = Done r s2 ->
            output s2 = output s1
            /\ (forall p v0, lookup_ptr (heap s1) p = Some v0 ->
                             lookup_ptr (heap s2) p = Some v0)
            /\ ((s2 = s1 /\ exists ve, lookup_ptr (heap s1) r = Some ve
                                       /\ type ve = VAL_ERROR)
                \/ (exists node, r = S (length (heap s1))
                      /\ heap s2 = (heap s1 ++ [node])%list
                      /\ result_kind b (type node) = true))).
  { intros res s' Hloop Hke Hkn Hkt HA.
    destruct Hloop as [[-> ->] | [(e & ve & Hr & -> & Hve & Hte)
                                 | (node & Hr & -> & Hk)]].
    - apply bind_inv in HA as (l & s0 & Hl & HA).
      apply loc_of_inv in Hl as (vv & _ & -> & ->).
      unfold True_, alloc in HA. injection HA as <- <-. cbn [heap output].
      split; [reflexivity|]. split; [intros; apply lookup_ptr_app_l; auto|].
      right. eexists. repeat split. exact Hkt.
    - subst res. injection HA as <- <-.
      split; [reflexivity|]. split; [auto|]. left. eauto.
    - subst res. injection HA as <- <-. cbn [heap output].
      split; [reflexivity|]. split; [intros; apply lookup_ptr_app_l; auto|].
      right. exists node. repeat split.
      destruct Hk as [-> | ->]; assumption. }
  destruct b; try discriminate; cbn [call_builtin] in H.
  1-4: eapply Harith; eauto.
  - unfold builtin_eq in H.
    apply bind_inv in H as (args' & s1' & He' & H).
    rewrite He in He'. injection He' as <- <-.
    apply bind_inv in H as (res & s' & Hloop & H).
    apply eq_loop_outcome in Hloop. eapply Hcmp; eauto.
  - unfold builtin_less in H.
    apply bind_inv in H as (args' & s1' & He' & H).
    rewrite He in He'. injection He' as <- <-.
    apply bind_inv in H as (res & s' & Hloop & H).
    apply less_loop_outcome in Hloop. eapply Hcmp; eauto.
Qed.

Lemma numeric_operators_frame_witness :
  let s := state_of ((env <- root_env ;; read (SList [SInt 7; SInt 2]))
                       empty_state) in
  exists args s1 r s2,
    eval_list 60 (eval car_first 60) 3%nat 84%nat s = Done args s1
    /\ builtin_div 60 (eval_list 60 (eval car_first 60)) TYPE_NAME 3%nat 84%nat s
       = Done r s2
    /\ lookup_ptr (heap s2) r = Some (VInt 84%nat 3)
    /\ output s2 = output s1
    /\ (forall p v0, lookup_ptr (heap s1) p = Some v0 ->
                     lookup_ptr (heap s2) p = Some v0).
Proof.
  intros s. do 4 eexists.
  split; [vm_compute; reflexivity|].
  split; [vm_compute; reflexivity|].
  split; [vm_compute; reflexivity|].
  edestruct (numeric_operators_frame Bdiv "/" 60%nat (eval car_first 60)
               (eval_list 60 (eval car_first 60)) (progn 60 (eval car_first 60)) (find 60)
               add_variable print_value TYPE_NAME IS_VOWEL car_first 3%nat 84%nat s)
    as (Hout & Hkeep & _).
  - reflexivity.
  - vm_compute. reflexivity.
  - vm_compute. reflexivity.
  - split; [exact Hout|exact Hkeep].
Defined.

(** ** [fn] and [macro] on well-formed input *)

Lemma make_function_well_formed fuel TYPE_NAME IS_VOWEL env v ty s
    lv a d vd ps q vq :
  ty = VAL_FUNCTION \/ ty = VAL_MACRO ->
  lookup_ptr (heap s) v = Some (VCell lv a d) ->
  lookup_ptr (heap s) d = Some vd ->
  type vd = VAL_NIL \/ type vd = VAL_CELL ->
  lseg (heap s) a ps q ->
  symbols (heap s) ps ->
  lookup_ptr (heap s) q = Some vq ->
  type vq <> VAL_CELL ->
  ps <> [] \/ type vq = VAL_NIL ->
  (length ps < fuel)%nat ->
  make_function fuel TYPE_NAME IS_VOWEL env v ty s =
    Done (S (length (heap s)))
         (State (heap s ++ [closure ty (loc vd) a d env]) (output s)).
Proof.
  intros Hty Hv Hd Hvd Hs Hsym Hq Hqt Hshape Hf.
  unfold make_function.
  erewrite bind_done by (destruct Hty as [-> | ->]; reflexivity).
  mstep.
  assert (Ha : exists va, lookup_ptr (heap s) a = Some va
                          /\ (type va = VAL_NIL \/ type va = VAL_CELL)).
  { destruct ps as [|p ps]; cbn in Hs.
    - subst q. destruct Hshape as [Hne|Hnil]; [congruence|]. eauto.
    - destruct Hs as (l & d' & Hc' & _). eexists. split; [exact Hc'|auto]. }
  destruct Ha as (va & Ha & Hva).
  mstep.
  replace (match type va with VAL_NIL | VAL_CELL => true | _ => false end)
    with true by (destruct Hva as [-> | ->]; reflexivity).
  cbn [negb]. unfold bindM at 1. mstep. mstep.
  replace (match type vd with VAL_NIL | VAL_CELL => true | _ => false end)
    with true by (destruct Hvd as [-> | ->]; reflexivity).
  cbn [negb]. unfold ret at 1. unfold bindM at 1, ret at 1.
  replace fuel with (length ps + S (fuel - length ps - 1))%nat by lia.
  unfold bindM at 1.
  rewrite (make_function_params_symbols _ _ _ _ _ _ _ Hs Hsym).
  rewrite (make_function_params_end _ _ _ _ _ _ Hq Hqt).
  mstep. mstep.
  destruct Hty as [-> | ->]; reflexivity.
Qed.

(** X5. On a parameter list whose elements are all Symbols and a list-shaped
    body, [make_function] returns one new Function or Macro node that holds
    the parameter list and the body as they are (no copy) and the environment
    it was called in; nothing else changes. The parameter list is checked
    along its Cells only: a last tail that is not [Nil] is accepted. *)
Theorem make_function_builds_closure :
  forall fuel TYPE_NAME IS_VOWEL env v ty s lv a d vd ps q vq,
    ty = VAL_FUNCTION \/ ty = VAL_MACRO ->
    lookup_ptr (heap s) v = Some (VCell lv a d) ->
    lookup_ptr (heap s) d = Some vd ->
    type vd = VAL_NIL \/ type vd = VAL_CELL ->
    lseg (heap s) a ps q ->
    symbols (heap s) ps ->
    lookup_ptr (heap s) q = Some vq ->
    type vq <> VAL_CELL ->
    ps <> [] \/ type vq = VAL_NIL ->
    (length ps < fuel)%nat ->
    make_function fuel TYPE_NAME IS_VOWEL env v ty s =
      Done (S (length (heap s)))
           (State (heap s ++ [closure ty (loc vd) a d env]) (output s))
    /\ (ty = VAL_MACRO ->
        builtin_macro fuel TYPE_NAME IS_VOWEL env v s =
          Done (S (length (heap s)))
               (State (heap s ++ [VMacro (loc vd) a d env]) (output s))).
Proof.
  intros. split.
  - eapply make_function_well_formed; eauto.
  - intros ->. unfold builtin_macro.
    erewrite make_function_well_formed; eauto.
Qed.

Ltac known_symbols :=
  repeat (constructor; [eexists; eexists; vm_compute; reflexivity|]);
  constructor.

Lemma make_function_builds_closure_witness :
  result_of (apply_builtin car_first 60 [] Bmacro
               [SList [SSym "x"; SSym "y"]; SSym "x"])
  = Some (VMacro 87%nat 84%nat 87%nat 3%nat).
Proof.
  unfold apply_builtin. mcompute. mcompute. mcompute. cbn [call_builtin].
  match goal with
  | |- context [builtin_macro ?f ?T ?I ?env ?v ?s] =>
      edestruct (make_function_builds_closure f T I env v VAL_MACRO s)
        with (ps := [80; 81]%nat) as (_ & Hm)
  end.
  1: right; reflexivity.
  1: vm_compute; reflexivity.
  1: vm_compute; reflexivity.
  1: right; reflexivity.
  1: known_lseg.
  1: known_symbols.
  1: vm_compute; reflexivity.
  1: vm_compute; discriminate.
  1: left; discriminate.
  1: vm_compute; lia.
  rewrite (Hm eq_refl). vm_compute. reflexivity.
Defined.

(** X6. When the parameter list holds a value that is no Symbol,
    [make_function] returns an Error stamped with the location of the first
    such value and naming its type, with the article the vowel test picks;
    what follows that value in the list is not looked at, and no function
    is built. *)
Theorem make_function_first_non_symbol :
  forall fuel TYPE_NAME IS_VOWEL env v ty s lv a d vd ps bad q vb,
    ty = VAL_FUNCTION \/ ty = VAL_MACRO ->
    lookup_ptr (heap s) v = Some (VCell lv a d) ->
    lookup_ptr (heap s) d = Some vd ->
    type vd = VAL_NIL \/ type vd = VAL_CELL ->
    lseg (heap s) a (ps ++ [bad]) q ->
    symbols (heap s) ps ->
    lookup_ptr (heap s) bad = Some vb ->
    type vb <> VAL_SYMBOL ->
    (length ps < fuel)%nat ->
    make_function fuel TYPE_NAME IS_VOWEL env v ty s =
      Done (S (length (heap s)))
           (State (heap s ++
                   [VError (loc vb)
                      ("parameter name must be a symbol (this is "
                       +:+ (if IS_VOWEL (first_char (TYPE_NAME (type vb)))
                            then "an" else "a")
                       +:+ " " +:+ TYPE_NAME (type vb) +:+ ")")])
                  (output s)).
Proof.
  intros. erewrite make_function_non_symbol; eauto.
Qed.

Lemma make_function_first_non_symbol_witness :
  result_of (apply_builtin car_first 60 [] Bmacro
               [SList [SSym "x"; SInt 5; SList [SSym "y"]]; SSym "x"])
  = Some (VError 81%nat
            "parameter name must be a symbol (this is an Integer)").
Proof.
  unfold apply_builtin. mcompute. mcompute. mcompute.
  cbn [call_builtin]. unfold builtin_macro.
  erewrite make_function_first_non_symbol
    with (ps := [80]%nat) (bad := 81%nat).
  2: right; reflexivity.
  2: vm_compute; reflexivity.
  2: vm_compute; reflexivity.
  2: right; reflexivity.
  2: known_lseg.
  2: known_symbols.
  2: vm_compute; reflexivity.
  2: vm_compute; discriminate.
  2: vm_compute; lia.
  vm_compute. reflexivity.
Defined.

(** X7. [fn] asks for a Cell after its first argument and otherwise returns
    the Error "missing list of parameters" at the location of the form, so
    an anonymous function with an empty body is refused under that message.
    When the first argument is no Symbol, the argument list itself is the
    pair of parameters and body and the Function is returned, nothing being
    bound. When it is a Symbol, the Function is built from the rest and
    handed to [add_variable] under that symbol, after which [find] on the
    symbol returns a binding cell that holds the Function. *)
Theorem builtin_fn_cases :
  (forall fuel add_variable TYPE_NAME IS_VOWEL env v s lv a d vd,
     lookup_ptr (heap s) v = Some (VCell lv a d) ->
     lookup_ptr (heap s) d = Some vd ->
     type vd <> VAL_CELL ->
     builtin_fn fuel add_variable TYPE_NAME IS_VOWEL env v s =
       Done (S (length (heap s)))
            (State (heap s ++ [VError lv "missing list of parameters"])
                   (output s)))
  /\ (forall fuel add_variable TYPE_NAME IS_VOWEL env v s lv a d vd va
             ps q vq,
        lookup_ptr (heap s) v = Some (VCell lv a d) ->
        lookup_ptr (heap s) d = Some vd ->
        type vd = VAL_CELL ->
        lookup_ptr (heap s) a = Some va ->
        type va <> VAL_SYMBOL ->
        lseg (heap s) a ps q ->
        symbols (heap s) ps ->
        lookup_ptr (heap s) q = Some vq ->
        type vq <> VAL_CELL ->
        ps <> [] \/ type vq = VAL_NIL ->
        (length ps < fuel)%nat ->
        builtin_fn fuel add_variable TYPE_NAME IS_VOWEL env v s =
          Done (S (length (heap s)))
               (State (heap s ++ [VFunction (loc vd) a d env]) (output s)))
  /\ (forall fuel add_variable TYPE_NAME IS_VOWEL env v s lv a d ld params
             body la name vbody ps q vq,
        lookup_ptr (heap s) v = Some (VCell lv a d) ->
        lookup_ptr (heap s) d = Some (VCell ld params body) ->
        lookup_ptr (heap s) a = Some (VSymbol la name) ->
        lookup_ptr (heap s) body = Some vbody ->
        type vbody = VAL_NIL \/ type vbody = VAL_CELL ->
        lseg (heap s) params ps q ->
        symbols (heap s) ps ->
        lookup_ptr (heap s) q = Some vq ->
        type vq <> VAL_CELL ->
        ps <> [] \/ type vq = VAL_NIL ->
        (length ps < fuel)%nat ->
        builtin_fn fuel add_variable TYPE_NAME IS_VOWEL env v s =
          add_variable env a (S (length (heap s)))
            (State (heap s ++ [VFunction (loc vbody) params body env])
                   (output s)))
  /\ (forall fuel TYPE_NAME IS_VOWEL env v s lv a d ld params
             body la name vbody ps q vq le vars up,
        lookup_ptr (heap s) v = Some (VCell lv a d) ->
        lookup_ptr (heap s) d = Some (VCell ld params body) ->
        lookup_ptr (heap s) a = Some (VSymbol la name) ->
        lookup_ptr (heap s) body = Some vbody ->
        type vbody = VAL_NIL \/ type vbody = VAL_CELL ->
        lseg (heap s) params ps q ->
        symbols (heap s) ps ->
        lookup_ptr (heap s) q = Some vq ->
        type vq <> VAL_CELL ->
        ps <> [] \/ type vq = VAL_NIL ->
        (length ps < fuel)%nat ->
        lookup_ptr (heap s) env = Some (VCell le vars up) ->
        exists s' b,
          builtin_fn fuel add_variable TYPE_NAME IS_VOWEL env v s
          = Done (S (length (heap s))) s'
          /\ lookup_ptr (heap s') (S (length (heap s)))
             = Some (VFunction (loc vbody) params body env)
          /\ find fuel env a s' = Done b s'
          /\ lookup_ptr (heap s') b
             = Some (VCell no_loc a (S (length (heap s))))).
Proof.
  assert (Hnamed : forall fuel add_variable TYPE_NAME IS_VOWEL env v s lv a d
             ld params body la name vbody ps q vq,
        lookup_ptr (heap s) v = Some (VCell lv a d) ->
        lookup_ptr (heap s) d = Some (VCell ld params body) ->
        lookup_ptr (heap s) a = Some (VSymbol la name) ->
        lookup_ptr (heap s) body = Some vbody ->
        type vbody = VAL_NIL \/ type vbody = VAL_CELL ->
        lseg (heap s) params ps q ->
        symbols (heap s) ps ->
        lookup_ptr (heap s) q = Some vq ->
        type vq <> VAL_CELL ->
        ps <> [] \/ type vq = VAL_NIL ->
        (length ps < fuel)%nat ->
        builtin_fn fuel add_variable TYPE_NAME IS_VOWEL env v s =
          add_variable env a (S (length (heap s)))
            (State (heap s ++ [VFunction (loc vbody) params body env])
                   (output s))).
  { intros fuel add_variable TYPE_NAME IS_VOWEL env v s lv a d ld params
      body la name vbody ps q vq Hv Hd Ha Hb Hbt Hs Hsym Hq Hqt Hshape Hf.
    unfold builtin_fn. mstep. mstep. cbn [type val_type_eqb negb].
    mstep. mstep. cbn [type val_type_eqb negb].
    erewrite bind_done
      by (eapply make_function_well_formed with (ty := VAL_FUNCTION); eauto).
    reflexivity. }
  split; [|split; [|split]].
  - intros fuel add_variable TYPE_NAME IS_VOWEL env v s lv a d vd Hv Hd Ht.
    unfold builtin_fn. mstep. mstep.
    destruct (type vd); try congruence; cbn [val_type_eqb negb];
      mstep; reflexivity.
  - intros fuel add_variable TYPE_NAME IS_VOWEL env v s lv a d vd va ps q vq
      Hv Hd Hdt Ha Hat Hs Hsym Hq Hqt Hshape Hf.
    unfold builtin_fn. mstep. mstep. rewrite Hdt. cbn [val_type_eqb negb].
    mstep. mstep.
    replace (negb (val_type_eqb (type va) VAL_SYMBOL)) with true
      by (destruct (type va); try reflexivity; congruence).
    erewrite make_function_well_formed with (ty := VAL_FUNCTION); eauto.
  - exact Hnamed.
  - intros fuel TYPE_NAME IS_VOWEL env v s lv a d ld params
      body la name vbody ps q vq le vars up
      Hv Hd Ha Hb Hbt Hs Hsym Hq Hqt Hshape Hf Henv.
    rewrite (Hnamed fuel add_variable TYPE_NAME IS_VOWEL env v s lv a d
               ld params body la name vbody ps q vq) by assumption.
    set (s1 := State (heap s ++ [VFunction (loc vbody) params body env])
                     (output s)).
    assert (Henv1 : lookup_ptr (heap s1) env = Some (VCell le vars up))
      by (apply lookup_ptr_app_l; exact Henv).
    assert (Ha1 : lookup_ptr (heap s1) a = Some (VSymbol la name))
      by (apply lookup_ptr_app_l; exact Ha).
    pose proof (add_variable_done env a (S (length (heap s))) s1 le vars up
                  Henv1) as Hadd.
    assert (Hfuel : (0 < fuel)%nat) by lia.
    destruct (add_variable_found fuel env a (S (length (heap s))) s1 le vars up
                la name _ _ Henv1 Ha1 Hfuel Hadd) as [Hfind Hnb].
    eexists. eexists. split; [exact Hadd|].
    split; [|split; [exact Hfind|exact Hnb]].
    cbn [heap].
    pose proof (lookup_ptr_bound _ _ _ Henv) as Hbound.
    rewrite lookup_ptr_insert_ne by (unfold NULL; lia).
    apply lookup_ptr_app_l. subst s1. cbn [heap]. apply lookup_ptr_alloc.
Qed.

Lemma builtin_fn_cases_witness :
  result_of (apply_builtin car_first 60 [] Bfn [SList [SSym "x"]])
  = Some (VError 84%nat "missing list of parameters")
  /\ result_of (apply_builtin car_first 60 [] Bfn [SList [SSym "x"]; SSym "x"])
     = Some (VFunction 85%nat 82%nat 85%nat 3%nat)
  /\ result_of (apply_builtin car_first 60 [] Bfn
                  [SSym "id"; SList [SSym "x"]; SSym "x"])
     = Some (VFunction 86%nat 83%nat 86%nat 3%nat)
  /\ (let s := state_of ((env <- root_env ;;
                          read (SList [SSym "id"; SList [SSym "x"]; SSym "x"]))
                           empty_state) in
      exists s' b,
        builtin_fn 60 add_variable TYPE_NAME IS_VOWEL 3%nat 88%nat s
        = Done 89%nat s'
        /\ lookup_ptr (heap s') 89%nat
           = Some (VFunction 86%nat 83%nat 86%nat 3%nat)
        /\ find 60 3%nat 80%nat s' = Done b s'
        /\ lookup_ptr (heap s') b = Some (VCell no_loc 80%nat 89%nat)).
Proof.
  split; [|split; [|split]].
  - unfold apply_builtin. mcompute. mcompute. mcompute. cbn [call_builtin].
    erewrite (proj1 builtin_fn_cases).
    2: vm_compute; reflexivity.
    2: vm_compute; reflexivity.
    2: vm_compute; discriminate.
    vm_compute. reflexivity.
  - unfold apply_builtin. mcompute. mcompute. mcompute. cbn [call_builtin].
    erewrite (proj1 (proj2 builtin_fn_cases)) with (ps := [80]%nat).
    2: vm_compute; reflexivity.
    2: vm_compute; reflexivity.
    2: reflexivity.
    2: vm_compute; reflexivity.
    2: vm_compute; discriminate.
    2: known_lseg.
    2: known_symbols.
    2: vm_compute; reflexivity.
    2: vm_compute; discriminate.
    2: left; discriminate.
    2: vm_compute; lia.
    vm_compute. reflexivity.
  - unfold apply_builtin. mcompute. mcompute. mcompute. cbn [call_builtin].
    erewrite (proj1 (proj2 (proj2 builtin_fn_cases))) with (ps := [81]%nat).
    2: vm_compute; reflexivity.
    2: vm_compute; reflexivity.
    2: vm_compute; reflexivity.
    2: vm_compute; reflexivity.
    2: right; reflexivity.
    2: known_lseg.
    2: known_symbols.
    2: vm_compute; reflexivity.
    2: vm_compute; discriminate.
    2: left; discriminate.
    2: vm_compute; lia.
    vm_compute. reflexivity.
  - intros s.
    edestruct (proj2 (proj2 (proj2 builtin_fn_cases))
                 60%nat TYPE_NAME IS_VOWEL 3%nat 88%nat s)
      with (ps := [81]%nat) as (s' & b & H1 & H2 & H3 & H4).
    1: vm_compute; reflexivity.
    1: vm_compute; reflexivity.
    1: vm_compute; reflexivity.
    1: vm_compute; reflexivity.
    1: right; reflexivity.
    1: known_lseg.
    1: known_symbols.
    1: vm_compute; reflexivity.
    1: vm_compute; discriminate.
    1: left; discriminate.
    1: vm_compute; lia.
    1: vm_compute; reflexivity.
    exists s', b. split; [exact H1|]. split; [exact H2|].
    split; [exact H3|exact H4].
Defined.

(** ** [if], [cons], [car] and [cdr] *)

(** X8. [if] runs one branch only. When the condition evaluates to [True],
    the result and the final state are those of evaluating the second form,
    and the forms after it are never handed to [progn]; when it evaluates to
    any other value, they are those of [progn] on the forms after the
    second, and the second form is never evaluated. *)
Theorem builtin_if_one_branch :
  (forall eval progn env list s l c d r s1 vr l1 c1 d1 l2 a dd,
     lookup_ptr (heap s) list = Some (VCell l c d) ->
     eval env c s = Done r s1 ->
     lookup_ptr (heap s1) r = Some vr ->
     type vr = VAL_TRUE ->
     lookup_ptr (heap s1) list = Some (VCell l1 c1 d1) ->
     lookup_ptr (heap s1) d1 = Some (VCell l2 a dd) ->
     builtin_if eval progn env list s = eval env a s1)
  /\ (forall eval progn env list s l c d r s1 vr l1 c1 d1 l2 a dd,
        lookup_ptr (heap s) list = Some (VCell l c d) ->
        eval env c s = Done r s1 ->
        lookup_ptr (heap s1) r = Some vr ->
        type vr <> VAL_TRUE ->
        lookup_ptr (heap s1) list = Some (VCell l1 c1 d1) ->
        lookup_ptr (heap s1) d1 = Some (VCell l2 a dd) ->
        builtin_if eval progn env list s = progn env dd s1).
Proof.
  split; intros.
  - eapply builtin_if_true; eauto.
  - eapply builtin_if_not_true; eauto.
Qed.

Lemma builtin_if_one_branch_witness :
  printed (apply_builtin car_first 60 [] Bif
             [call "=" [SInt 1; SInt 1];
              call "print" [SInt 1]; call "print" [SInt 2]])
  = Some "1"
  /\ printed (apply_builtin car_first 60 [] Bif
                [call "=" [SInt 1; SInt 2];
                 call "print" [SInt 1]; call "print" [SInt 2];
                 call "print" [SInt 3]])
     = Some "23".
Proof.
  split.
  - unfold apply_builtin. mcompute. mcompute. mcompute. cbn [call_builtin].
    erewrite (proj1 builtin_if_one_branch).
    2: vm_compute; reflexivity.
    2: vm_compute; reflexivity.
    2: vm_compute; reflexivity.
    2: reflexivity.
    2: vm_compute; reflexivity.
    2: vm_compute; reflexivity.
    vm_compute. reflexivity.
  - unfold apply_builtin. mcompute. mcompute. mcompute. cbn [call_builtin].
    erewrite (proj2 builtin_if_one_branch).
    2: vm_compute; reflexivity.
    2: vm_compute; reflexivity.
    2: vm_compute; reflexivity.
    2: vm_compute; discriminate.
    2: vm_compute; reflexivity.
    2: vm_compute; reflexivity.
    vm_compute. reflexivity.
Defined.

Lemma builtin_cdr_done eval env v s l x d c s1 lc a b :
  lookup_ptr (heap s) v = Some (VCell l x d) ->
  eval env x s = Done c s1 ->
  lookup_ptr (heap s1) c = Some (VCell lc a b) ->
  builtin_cdr eval env v s = Done b s1.
Proof.
  intros Hv Hx Hc. unfold builtin_cdr. mstep. mstep. eauto with prim.
Qed.

(** X9. [cons] returns one new Cell whose [car] is the value of its first
    argument and whose [cdr] is the value of its second, the values
    themselves and no copies, whichever of the two the compiled code
    evaluates first; the second evaluation starts in the state the first
    one left, and every node that was there at the end stays as it was.
    [car] and [cdr] return the field of the Cell their argument evaluates
    to, in the state that evaluation left; so [cdr] of a [cons] of two
    quoted forms is the second quoted value itself, in every order. *)
Theorem cons_car_cdr_fields :
  (forall eval order env v s l qa d l2 qb dd x s1 l1 qa1 l3 dd1 y s2,
     first_argument_first order = true ->
     lookup_ptr (heap s) v = Some (VCell l qa d) ->
     lookup_ptr (heap s) d = Some (VCell l2 qb dd) ->
     eval env qa s = Done x s1 ->
     lookup_ptr (heap s1) v = Some (VCell l1 qa1 d) ->
     lookup_ptr (heap s1) d = Some (VCell l3 qb dd1) ->
     eval env qb s1 = Done y s2 ->
     let c := S (length (heap s2)) in
     let s3 := State (heap s2 ++ [VCell no_loc x y]) (output s2) in
     builtin_cons eval order env v s = Done c s3
     /\ lookup_ptr (heap s3) c = Some (VCell no_loc x y)
     /\ (forall p v0, lookup_ptr (heap s2) p = Some v0 ->
                      lookup_ptr (heap s3) p = Some v0))
  /\ (forall eval order env v s l qa d l2 qb dd y s1 l1 d1 x s2,
        first_argument_first order = false ->
        lookup_ptr (heap s) v = Some (VCell l qa d) ->
        lookup_ptr (heap s) d = Some (VCell l2 qb dd) ->
        eval env qb s = Done y s1 ->
        lookup_ptr (heap s1) v = Some (VCell l1 qa d1) ->
        eval env qa s1 = Done x s2 ->
        let c := S (length (heap s2)) in
        let s3 := State (heap s2 ++ [VCell no_loc x y]) (output s2) in
        builtin_cons eval order env v s = Done c s3
        /\ lookup_ptr (heap s3) c = Some (VCell no_loc x y)
        /\ (forall p v0, lookup_ptr (heap s2) p = Some v0 ->
                         lookup_ptr (heap s3) p = Some v0))
  /\ (forall eval env v s l x d c s1 lc a b,
        lookup_ptr (heap s) v = Some (VCell l x d) ->
        eval env x s = Done c s1 ->
        lookup_ptr (heap s1) c = Some (VCell lc a b) ->
        builtin_car eval env v s = Done a s1
        /\ builtin_cdr eval env v s = Done b s1)
  /\ (forall eval order env s v lv x dv vc lc qa dc ld qb dd va la a da
             vb lb b db,
        lookup_ptr (heap s) v = Some (VCell lv x dv) ->
        eval env x s = builtin_cons eval order env vc s ->
        lookup_ptr (heap s) vc = Some (VCell lc qa dc) ->
        lookup_ptr (heap s) dc = Some (VCell ld qb dd) ->
        eval env qa s = builtin_quote env va s ->
        lookup_ptr (heap s) va = Some (VCell la a da) ->
        eval env qb s = builtin_quote env vb s ->
        lookup_ptr (heap s) vb = Some (VCell lb b db) ->
        builtin_cdr eval env v s =
          Done b (State (heap s ++ [VCell no_loc a b]) (output s))).
Proof.
  split; [|split; [|split]].
  - intros eval order env v s l qa d l2 qb dd x s1 l1 qa1 l3 dd1 y s2
      Ho Hv Hd Hx Hv1 Hd1 Hy c s3.
    split; [eapply builtin_cons_first_first; eauto|].
    split; [apply lookup_ptr_alloc|].
    intros p v0 Hp. apply lookup_ptr_app_l. exact Hp.
  - intros eval order env v s l qa d l2 qb dd y s1 l1 d1 x s2
      Ho Hv Hd Hy Hv1 Hx c s3.
    split; [eapply builtin_cons_second_first; eauto|].
    split; [apply lookup_ptr_alloc|].
    intros p v0 Hp. apply lookup_ptr_app_l. exact Hp.
  - intros. split.
    + eapply builtin_car_done; eauto.
    + eapply builtin_cdr_done; eauto.
  - intros eval order env s v lv x dv vc lc qa dc ld qb dd va la a da
      vb lb b db Hv Hx Hvc Hdc Hqa Hva Hqb Hvb.
    eapply builtin_cdr_done; eauto.
    + rewrite Hx. eapply builtin_cons_pure; eauto.
      * rewrite Hqa. eapply builtin_quote_verbatim; eauto.
      * rewrite Hqb. eapply builtin_quote_verbatim; eauto.
    + cbn [heap]. apply lookup_ptr_alloc.
Qed.

Lemma cons_car_cdr_fields_witness :
  (printed (apply_builtin car_first 60 [] Bcons
              [call "print" [SInt 1]; call "print" [SInt 2]]) = Some "12"
   /\ result_of (apply_builtin car_first 60 [] Bcons
                   [call "print" [SInt 1]; call "print" [SInt 2]])
      = Some (VCell no_loc 95%nat 98%nat))
  /\ (printed (apply_builtin cadr_first 60 [] Bcons
                 [call "print" [SInt 1]; call "print" [SInt 2]]) = Some "21"
      /\ result_of (apply_builtin cadr_first 60 [] Bcons
                      [call "print" [SInt 1]; call "print" [SInt 2]])
         = Some (VCell no_loc 98%nat 95%nat))
  /\ result_of (apply_builtin car_first 60 [] Bcdr
                  [quoted (SList [SInt 1; SInt 2])])
     = Some (VCell 84%nat 82%nat 83%nat)
  /\ result_of (apply_builtin cadr_first 60 [] Bcdr
                  [call "cons" [quoted (SSym "a"); quoted (SSym "b")]])
     = Some (VSymbol 87%nat "b").
Proof.
  split; [|split; [|split]].
  - unfold apply_builtin. mcompute. mcompute. mcompute. cbn [call_builtin].
    match goal with
    | |- context [builtin_cons ?e ?o ?env ?v ?s] =>
        edestruct (proj1 cons_car_cdr_fields e o env v s) as (Heq & _ & _)
    end.
    1: reflexivity.
    1: vm_compute; reflexivity.
    1: vm_compute; reflexivity.
    1: vm_compute; reflexivity.
    1: vm_compute; reflexivity.
    1: vm_compute; reflexivity.
    1: vm_compute; reflexivity.
    rewrite Heq. split; vm_compute; reflexivity.
  - unfold apply_builtin. mcompute. mcompute. mcompute. cbn [call_builtin].
    match goal with
    | |- context [builtin_cons ?e ?o ?env ?v ?s] =>
        edestruct (proj1 (proj2 cons_car_cdr_fields) e o env v s)
          as (Heq & _ & _)
    end.
    1: reflexivity.
    1: vm_compute; reflexivity.
    1: vm_compute; reflexivity.
    1: vm_compute; reflexivity.
    1: vm_compute; reflexivity.
    1: vm_compute; reflexivity.
    rewrite Heq. split; vm_compute; reflexivity.
  - unfold apply_builtin. mcompute. mcompute. mcompute. cbn [call_builtin].
    match goal with
    | |- context [builtin_cdr ?e ?env ?v ?s] =>
        edestruct (proj1 (proj2 (proj2 cons_car_cdr_fields)) e env v s)
          as (_ & Heq)
    end.
    1: vm_compute; reflexivity.
    1: vm_compute; reflexivity.
    1: vm_compute; reflexivity.
    rewrite Heq. vm_compute. reflexivity.
  - unfold apply_builtin. mcompute. mcompute. mcompute. cbn [call_builtin].
    erewrite (proj2 (proj2 (proj2 cons_car_cdr_fields)))
      with (order := cadr_first) (vc := 93%nat) (va := 84%nat) (vb := 89%nat).
    2: vm_compute; reflexivity.
    2: vm_compute; reflexivity.
    2: vm_compute; reflexivity.
    2: vm_compute; reflexivity.
    2: vm_compute; reflexivity.
    2: vm_compute; reflexivity.
    2: vm_compute; reflexivity.
    2: vm_compute; reflexivity.
    vm_compute. reflexivity.
Defined.

(** ** [print] and a printer that fails *)

Lemma builtin_print_loop_prefix print_value render ps : forall vs n p q h out,
  lseg h p ps q ->
  nodes h ps vs ->
  Forall (prints print_value render) vs ->
  builtin_print_loop print_value (length ps + n) p (State h out) =
    builtin_print_loop print_value n q
      (State h (out +:+ foldr String.append "" (map render vs))).
Proof.
  induction ps as [|a ps IH]; intros vs n p q h out Hs Hvs Hok.
  - inversion Hvs; subst. cbn in Hs. subst q. cbn [length Nat.add map foldr].
    rewrite string_app_nil_r. reflexivity.
  - inversion Hvs as [|? v ? vs' Ha Hrest]; subst.
    inversion Hok as [|? ? Hv Hok']; subst.
    destruct Hs as (lc & d & Hc & Hs).
    cbn [length Nat.add builtin_print_loop].
    mstep. cbn [type val_type_eqb negb]. mstep.
    destruct (Hv a (State h out) Ha) as (e & ve & He & Hve & Hte).
    cbn [heap output] in He, Hve.
    mstep. mstep.
    replace (val_type_eqb (type ve) VAL_ERROR) with false
      by (destruct (type ve); try reflexivity; congruence).
    mstep. erewrite IH; eauto.
    cbn [map foldr]. rewrite string_app_assoc. reflexivity.
Qed.

(** X10. [print] stops at the first value the printer reports an Error for:
    the values before it have been written, that Error is the result in the
    state the failing call left, and the values after it are not
    printed. *)
Theorem builtin_print_stops_at_error :
  forall fuel eval_list print_value render env list s r s1 ps vs bad q e s2 ve,
    eval_list env list s = Done r s1 ->
    lseg (heap s1) r (ps ++ [bad]) q ->
    nodes (heap s1) ps vs ->
    Forall (prints print_value render) vs ->
    print_value bad
      (State (heap s1)
             (output s1 +:+ foldr String.append "" (map render vs)))
    = Done e s2 ->
    lookup_ptr (heap s2) e = Some ve ->
    type ve = VAL_ERROR ->
    (length ps < fuel)%nat ->
    builtin_print fuel eval_list print_value env list s = Done e s2.
Proof.
  intros fuel eval_list print_value render env list s r s1 ps vs bad q e s2 ve
    He Hs Hvs Hok Hbad Hve Hte Hf.
  apply lseg_snoc in Hs as (m & lm & Hm & Hc).
  assert (Hr : exists vr, lookup_ptr (heap s1) r = Some vr
                          /\ type vr = VAL_CELL).
  { destruct ps as [|p ps]; cbn in Hm.
    - subst m. eexists. split; [exact Hc|reflexivity].
    - destruct Hm as (l & d & Hc' & _). eexists. split; [exact Hc'|reflexivity]. }
  destruct Hr as (vr & Hr & Hrt).
  unfold builtin_print. mstep. mstep. rewrite Hrt. cbn [val_type_eqb].
  replace fuel with (length ps + S (fuel - length ps - 1))%nat by lia.
  destruct s1 as [h out]. cbn [heap output] in *.
  unfold bindM at 1.
  erewrite builtin_print_loop_prefix; eauto.
  cbn [builtin_print_loop].
  erewrite bind_done by (eapply type_of_done; cbn [heap]; eauto).
  cbn [type val_type_eqb negb].
  erewrite bind_done by (eapply car_done; cbn [heap]; eauto).
  erewrite bind_done by (exact Hbad).
  erewrite bind_done by (eapply type_of_done; eauto).
  rewrite Hte. reflexivity.
Qed.

Lemma print_no_symbols_prints_integers l i :
  prints print_no_symbols render (VInt l i).
Proof.
  intros p s Hp. exists p, (VInt l i). unfold print_no_symbols.
  erewrite bind_done by eauto with prim. cbv beta iota.
  unfold print_value. erewrite bind_done by eauto with prim.
  split; [reflexivity|]. cbn [heap]. split; [exact Hp|discriminate].
Qed.

Lemma builtin_print_stops_at_error_witness :
  let s := state_of ((env <- root_env ;;
                      read (SList [SInt 1; quoted (SSym "a"); SInt 2]))
                       empty_state) in
  let o := builtin_print 60 (eval_list 60 (eval car_first 60)) print_no_symbols
             3%nat 90%nat s in
  result_of o = Some (VError 82%nat "cannot print a symbol")
  /\ printed o = Some "1".
Proof.
  intros s o. subst o.
  erewrite builtin_print_stops_at_error
    with (render := render) (ps := [80]%nat) (vs := [VInt 80%nat 1])
         (bad := 82%nat).
  2: vm_compute; reflexivity.
  2: known_lseg.
  2: known_nodes.
  2: repeat constructor; apply print_no_symbols_prints_integers.
  2: vm_compute; reflexivity.
  2: vm_compute; reflexivity.
  2: reflexivity.
  2: vm_compute; lia.
  split; vm_compute; reflexivity.
Defined.

(** ** [while] *)

Lemma builtin_while_loop_null eval progn n env v acc s l c d s1 :
  lookup_ptr (heap s) v = Some (VCell l c d) ->
  eval env c s = Done NULL s1 ->
  builtin_while_loop eval progn (S n) env v acc s = Done acc s1.
Proof.
  intros Hv Hc. cbn [builtin_while_loop]. mstep. mstep. reflexivity.
Qed.

Lemma while_rounds_run eval progn env v s acc s' res k :
  while_rounds eval progn env v s acc s' res k ->
  forall n, (k < n)%nat ->
  builtin_while_loop eval progn n env v acc s = Done res s'.
Proof.
  induction 1 as [s acc l c d r s1 Hv Hc Hr
                 |s acc l c d r s1 vr l1 c1 d1 x s2 s3 res k
                    Hv Hc Hr Ht Hv1 Hp Hrest IH];
    intros n Hn; (destruct n as [|n]; [lia|]).
  - destruct Hr as [-> | (vr & Hr & Ht)].
    + eapply builtin_while_loop_null; eauto.
    + eapply builtin_while_loop_stop; eauto.
  - erewrite builtin_while_loop_true; eauto. apply IH. lia.
Qed.

Lemma while_rounds_result eval progn env v s acc s' res k :
  while_rounds eval progn env v s acc s' res k ->
  (k = 0%nat -> res = acc) /\ ((0 < k)%nat -> exists x, res = Some x).
Proof.
  induction 1 as [|s acc l c d r s1 vr l1 c1 d1 x s2 s3 res k
                    Hv Hc Hr Ht Hv1 Hp Hrest [IH0 IHk]].
  - split; [reflexivity|lia].
  - split; [lia|]. intros _. destruct k as [|k].
    + exists x. apply IH0. reflexivity.
    + apply IHk. lia.
Qed.

(** X11. [while] runs as many rounds as its condition evaluates to [True],
    each round running the body as a [progn] in the state the condition
    left. After at least one round the result is the value of the body in
    the last round, in the state the last test of the condition left. With
    no round at all the local [r] is returned uninitialised: the call has no
    defined result. *)
Theorem builtin_while_rounds :
  forall fuel eval progn env v s s' res k,
    while_rounds eval progn env v s None s' res k ->
    (k < fuel)%nat ->
    builtin_while fuel eval progn env v s =
      match res with
      | Some x => Done x s'
      | None => Undefined
      end
    /\ (k = 0%nat -> res = None)
    /\ ((0 < k)%nat -> exists x, res = Some x).
Proof.
  intros fuel eval progn env v s s' res k Hrounds Hk.
  split; [|exact (while_rounds_result _ _ _ _ _ _ _ _ _ Hrounds)].
  unfold builtin_while.
  erewrite bind_done by (eapply while_rounds_run; eauto).
  destruct res; reflexivity.
Qed.

Lemma builtin_while_rounds_witness :
  result_of (apply_builtin car_first 60 [call "setq" [SSym "i"; SInt 0]] Bwhile
               [call "<" [SInt 2; SSym "i"];
                call "setq" [SSym "i"; call "+" [SSym "i"; SInt 1]]])
  = Some (VInt 108%nat 2)
  /\ apply_builtin car_first 60 [] Bwhile [call "=" [SInt 1; SInt 2];
                                 call "print" [SInt 1]]
     = Undefined.
Proof.
  split.
  - unfold apply_builtin. mcompute. mcompute. mcompute. cbn [call_builtin].
    match goal with
    | |- context [builtin_while ?f ?e ?p ?env ?v ?s] =>
        edestruct (builtin_while_rounds f e p env v s) with (k := 2%nat)
          as (Heq & _)
    end.
    1: { eapply rounds_more.
         1: vm_compute; reflexivity.
         1: vm_compute; reflexivity.
         1: vm_compute; reflexivity.
         1: reflexivity.
         1: vm_compute; reflexivity.
         1: vm_compute; reflexivity.
         eapply rounds_more.
         1: vm_compute; reflexivity.
         1: vm_compute; reflexivity.
         1: vm_compute; reflexivity.
         1: reflexivity.
         1: vm_compute; reflexivity.
         1: vm_compute; reflexivity.
         eapply rounds_end.
         1: vm_compute; reflexivity.
         1: vm_compute; reflexivity.
         right. eexists. split; [vm_compute; reflexivity|discriminate]. }
    1: lia.
    rewrite Heq. vm_compute. reflexivity.
  - unfold apply_builtin. mcompute. mcompute. mcompute. cbn [call_builtin].
    match goal with
    | |- context [builtin_while ?f ?e ?p ?env ?v ?s] =>
        edestruct (builtin_while_rounds f e p env v s) with (k := 0%nat)
          as (Heq & _)
    end.
    1: { eapply rounds_end.
         1: vm_compute; reflexivity.
         1: vm_compute; reflexivity.
         right. eexists. split; [vm_compute; reflexivity|discriminate]. }
    1: lia.
    rewrite Heq. reflexivity.
Defined.

(** ** The range of the arithmetic operators *)

Lemma fold_from_range X zs : forall acc r,
  in_range acc -> fold_from X acc zs = Some r -> in_range r.
Proof.
  induction zs as [|i zs IH]; intros acc r Ha H; cbn [fold_from] in H.
  - injection H as <-. exact Ha.
  - destruct (arith X acc i) as [a'|] eqn:E; [|discriminate].
    eapply IH; [|exact H]. eapply arith_range; eauto.
Qed.

Lemma arith_exact X a b :
  in_range (exact X a b) -> (X = OpDiv -> b <> 0) ->
  arith X a b = Some (exact X a b).
Proof.
  intros Hr Hb. destruct X; cbn [arith exact] in *;
    try (rewrite wrap_in_range by exact Hr; reflexivity).
  destruct (Z.eqb_spec b 0) as [->|_]; [exfalso; apply Hb; reflexivity|].
  cbn [orb].
  destruct (Z.eqb_spec a INT_MIN) as [->|_]; [|reflexivity].
  destruct (Z.eqb_spec b (-1)) as [->|_]; [|reflexivity].
  exfalso. unfold in_range, INT_MIN, INT_MAX in Hr.
  change (-1) with (- (1)) in Hr.
  rewrite Z.quot_opp_r, Z.quot_1_r in Hr by lia. lia.
Qed.

Lemma fold_from_exact X zs : forall acc,
  fits X acc zs -> fold_from X acc zs = Some (fold_left (exact X) zs acc).
Proof.
  induction zs as [|i zs IH]; intros acc H; [reflexivity|].
  destruct H as (Hr & Hb & Hrest). cbn [fold_from fold_left].
  rewrite (arith_exact X acc i Hr Hb). apply IH. exact Hrest.
Qed.

(** X12. On Integers that fit an [int], an arithmetic operator either
    returns an Integer that fits an [int] or, for [/] only, has no defined
    result (a zero divisor, or [INT_MIN / -1]). When folding the arguments
    with the exact operator never leaves the range and never divides by
    zero, the Integer returned is the exact result. *)
Theorem ARITHMETIC_in_range :
  (forall X fuel eval_list TYPE_NAME env list s args s1 ps zs lv,
     eval_list env list s = Done args s1 ->
     is_list (heap s1) args ps ->
     ints (heap s1) ps zs ->
     lookup_ptr (heap s1) list = Some lv ->
     (length zs < fuel)%nat ->
     Forall in_range zs ->
     (exists r,
        ARITHMETIC fuel eval_list TYPE_NAME X env list s =
          Done (S (length (heap s1)))
               (State (heap s1 ++ [VInt (loc lv) r]) (output s1))
        /\ in_range r)
     \/ (X = OpDiv
         /\ ARITHMETIC fuel eval_list TYPE_NAME X env list s = Undefined))
  /\ (forall X fuel eval_list TYPE_NAME env list s args s1 ps z0 rest lv,
        eval_list env list s = Done args s1 ->
        is_list (heap s1) args ps ->
        ints (heap s1) ps (z0 :: rest) ->
        lookup_ptr (heap s1) list = Some lv ->
        (length ps < fuel)%nat ->
        fits X z0 rest ->
        ARITHMETIC fuel eval_list TYPE_NAME X env list s =
          Done (S (length (heap s1)))
               (State (heap s1 ++ [VInt (loc lv) (fold_left (exact X) rest z0)])
                      (output s1))).
Proof.
  split.
  - intros X fuel eval_list TYPE_NAME env list s args s1 ps zs lv
      He Hl Hi Hv Hf Hr.
    rewrite (ARITHMETIC_ints TYPE_NAME fuel eval_list X env list s args s1
               ps zs lv He Hl Hi Hv Hf).
    destruct (arith_spec X zs) as [r|] eqn:E.
    + left. exists r. split; [reflexivity|].
      destruct zs as [|z0 rest]; cbn [arith_spec] in E.
      * injection E as <-. unfold in_range, INT_MIN, INT_MAX. lia.
      * inversion Hr; subst. eapply fold_from_range; eauto.
    + right. split; [|reflexivity].
      destruct X; try reflexivity; exfalso;
        match type of E with
        | arith_spec ?Y _ = None =>
            destruct (arith_spec_total Y zs) as [r Hr'];
            [discriminate|congruence]
        end.
  - intros X fuel eval_list TYPE_NAME env list s args s1 ps z0 rest lv
      He Hl Hi Hv Hf Hfits.
    assert (Hlen : (length (z0 :: rest) < fuel)%nat)
      by (rewrite <- (ints_length _ _ _ Hi); exact Hf).
    rewrite (ARITHMETIC_ints TYPE_NAME fuel eval_list X env list s args s1
               ps (z0 :: rest) lv He Hl Hi Hv Hlen).
    cbn [arith_spec]. rewrite (fold_from_exact X rest z0 Hfits). reflexivity.
Qed.

Lemma ARITHMETIC_in_range_witness :
  (exists r,
     result_of (apply_builtin car_first 60 [] Bmul [SInt 65536; SInt 65536])
     = Some (VInt 84%nat r)
     /\ in_range r)
  /\ result_of (apply_builtin car_first 60 [] Bsub [SInt 10; SInt 1; SInt 2])
     = Some (VInt 86%nat 7).
Proof.
  split.
  - unfold apply_builtin. mcompute. mcompute. mcompute.
    cbn [call_builtin]. unfold builtin_mul.
    match goal with
    | |- context [ARITHMETIC ?f ?el ?T ?X ?env ?v ?s] =>
        edestruct (proj1 ARITHMETIC_in_range X f el T env v s)
          with (ps := [80; 81]%nat) (zs := [65536; 65536])
          as [(r & Heq & Hr) | (Hdiv & _)]
    end.
    1: vm_compute; reflexivity.
    1: known_list.
    1: known_nodes.
    1: vm_compute; reflexivity.
    1: vm_compute; lia.
    1: repeat constructor; unfold INT_MIN, INT_MAX; lia.
    + exists r. rewrite Heq. split; [|exact Hr].
      cbn [result_of heap]. rewrite lookup_ptr_alloc. reflexivity.
    + discriminate Hdiv.
  - unfold apply_builtin. mcompute. mcompute. mcompute.
    cbn [call_builtin]. unfold builtin_sub.
    erewrite (proj2 ARITHMETIC_in_range)
      with (ps := [80; 81; 82]%nat) (z0 := 10) (rest := [1; 2]).
    2: vm_compute; reflexivity.
    2: known_list.
    2: known_nodes.
    2: vm_compute; reflexivity.
    2: vm_compute; lia.
    2: cbn; unfold in_range, INT_MIN, INT_MAX; repeat split; try lia;
       discriminate.
    vm_compute. reflexivity.
Defined.
